(** * ghh-lib hashmap: an open-addressing hash table (src/hashmap.c)

    A shallow embedding of the table of [src/hashmap.c] and the proofs of
    its specification.

    Conventions of the embedding.
    - The 64 bit branch of the [#if] is the one modelled: [hash_t] is
      [uint64_t], [size_t] has 64 bits and [int] has 32.  Integers are [Z];
      every conversion and wrap-around of the source is written out
      ([to_int], [to_size], [to_hash]).
    - A non-null key pointer is a [block]: the address it holds together
      with the bytes found there.  Memory behind the listed bytes reads as
      zero, so every list is a terminated string and holds at least
      [key_size] bytes.  The bytes of a key do not change while the table
      holds the pointer.  [NULL] is [None].
    - A value pointer is its address, [NULL] is [0].
    - A computation that reads outside the bucket array, dereferences a
      null key or never leaves a loop has no result ([None]).
    - [malloc] in [copy_key] returns an address chosen by the allocator; it
      is the argument [fresh] of [hashmap_set].  Every operation returns
      the addresses it passed to [free].                                   *)

From Stdlib Require Import ZArith List Lia Bool Permutation.
From Stdlib Require Import Strings.Byte.
Import ListNotations.
Open Scope Z_scope.

(** ** Machine integers *)

Definition INT_MAX : Z := 2147483647.

(** conversion to [int] (two's complement, 32 bits) *)
Definition to_int (x : Z) : Z := (x + 2147483648) mod 4294967296 - 2147483648.

(** conversion to [size_t] (64 bits) *)
Definition to_size (x : Z) : Z := x mod 18446744073709551616.

(** conversion to [hash_t] (64 bits) *)
Definition to_hash (x : Z) : Z := x mod 18446744073709551616.

Definition FNV_PRIME : Z := 0x00000100000001b3.
Definition FNV_BASIS : Z := 0xcbf29ce484222325.
Definition MIN_HASHMAP_SIZE : Z := 8.

(** Modelled from the spec: the macro [MAX] of [ghh/utils.h] is not among the
    sources; the capacity hint is floored to the minimum, so [MAX] takes the
    larger of its two arguments. *)
Definition MAX (a b : Z) : Z := if a >? b then a else b.

(** ** Data *)

Record block := mkblock { addr : Z; bytes : list byte }.

(** [void *key] *)
Definition keyptr := option block.

Record hashbucket_t := mkbucket {
  filled : bool;
  desired_idx : Z;
  hash : Z;
  key : keyptr;
  value : Z
}.

Record hashmap_t := mkhmap {
  buckets : list hashbucket_t;
  size : Z;
  min_size : Z;
  alloc_size : Z;
  key_size : Z;
  copy_keys : bool
}.

(** a bucket of a [calloc]ed array *)
Definition zero_bucket : hashbucket_t := mkbucket false 0 0 None 0.

Definition calloc (n : Z) : list hashbucket_t := repeat zero_bucket (Z.to_nat n).

Definition set_buckets (hm : hashmap_t) (bs : list hashbucket_t) : hashmap_t :=
  mkhmap bs (size hm) (min_size hm) (alloc_size hm) (key_size hm) (copy_keys hm).

Definition set_size (hm : hashmap_t) (n : Z) : hashmap_t :=
  mkhmap (buckets hm) n (min_size hm) (alloc_size hm) (key_size hm) (copy_keys hm).

(** [hmap->buckets[index]] as a read; no result outside the array *)
Definition bucket_at (bs : list hashbucket_t) (index : Z) : option hashbucket_t :=
  if index <? 0 then None else nth_error bs (Z.to_nat index).

Fixpoint upd (bs : list hashbucket_t) (i : nat) (b : hashbucket_t) : list hashbucket_t :=
  match bs, i with
  | [], _ => []
  | _ :: rest, O => b :: rest
  | x :: rest, S i' => x :: upd rest i' b
  end.

(** [hmap->buckets[index] = b] *)
Definition store_at (bs : list hashbucket_t) (index : Z) (b : hashbucket_t) : list hashbucket_t :=
  upd bs (Z.to_nat index) b.

Notation "x <- e ;; k" := (match e with Some x => k | None => None end)
  (at level 61, e at next level, right associativity).
Notation "' p <- e ;; k" := (match e with Some p => k | None => None end)
  (at level 61, p pattern, e at next level, right associativity).

(** ** hashmap_create, hashmap_destroy, hashmap_size *)

Definition hashmap_create (initial_size key_size : Z) (copy_keys : bool) : hashmap_t :=
  let min_size := MAX initial_size MIN_HASHMAP_SIZE in
  mkhmap (calloc min_size) 0 min_size min_size key_size copy_keys.

Definition free_key (p : keyptr) : list Z :=
  match p with Some k => [addr k] | None => [] end.

(** the calls of [free] on values, then on keys, in order *)
Definition hashmap_destroy (hm : hashmap_t) (destroy_values : bool) : list Z :=
  (if destroy_values
   then map value (filter filled (buckets hm))
   else [])
  ++
  (if copy_keys hm
   then flat_map (fun b => free_key (key b)) (buckets hm)
   else []).

Definition hashmap_size (hm : hashmap_t) : Z := size hm.

(** ** Keys *)

Definition byte_val (b : byte) : Z := Z.of_N (Byte.to_N b).

Definition hash_step (hash : Z) (b : byte) : Z :=
  to_hash (Z.lxor hash (byte_val b) * FNV_PRIME).

(** [while ( *bytes) { hash ^= *bytes++; hash *= FNV_PRIME; }] *)
Fixpoint hash_str (hash : Z) (bs : list byte) : Z :=
  match bs with
  | [] => hash
  | b :: rest => if Byte.eqb b x00 then hash else hash_str (hash_step hash b) rest
  end.

(** [for (int i = 0; i < hmap->key_size; ++i)] *)
Fixpoint hash_fixed (n : nat) (hash : Z) (bs : list byte) : Z :=
  match n with
  | O => hash
  | S n' => hash_fixed n' (hash_step hash (hd x00 bs)) (tl bs)
  end.

Definition hash_key (hm : hashmap_t) (key : block) : Z :=
  if key_size hm <? 0
  then hash_str FNV_BASIS (bytes key)
  else hash_fixed (Z.to_nat (key_size hm)) FNV_BASIS (bytes key).

(** [while ( *str++) ++num_bytes;] *)
Fixpoint strlen (bs : list byte) : nat :=
  match bs with
  | [] => O
  | b :: rest => if Byte.eqb b x00 then O else S (strlen rest)
  end.

(** the first [n] bytes of memory at a pointer, as [memcpy] reads them *)
Fixpoint take (n : nat) (bs : list byte) : list byte :=
  match n with
  | O => []
  | S n' => hd x00 bs :: take n' (tl bs)
  end.

Definition copy_key (hm : hashmap_t) (key : block) (fresh : Z) : block :=
  if key_size hm <? 0
  then mkblock fresh (take (1 + strlen (bytes key)) (bytes key))
  else mkblock fresh (take (Z.to_nat (key_size hm)) (bytes key)).

(** [do { if (kbytes[i] != obytes[i]) return false; } while (kbytes[i++]);] *)
Fixpoint str_equals (kbytes obytes : list byte) : bool :=
  match kbytes with
  | [] => Byte.eqb x00 (hd x00 obytes)
  | k :: krest =>
      if negb (Byte.eqb k (hd x00 obytes)) then false
      else if Byte.eqb k x00 then true
      else str_equals krest (tl obytes)
  end.

(** [for (; i < hmap->key_size; ++i) if (kbytes[i] != obytes[i]) return false;] *)
Fixpoint fixed_equals (n : nat) (kbytes obytes : list byte) : bool :=
  match n with
  | O => true
  | S n' =>
      if negb (Byte.eqb (hd x00 kbytes) (hd x00 obytes)) then false
      else fixed_equals n' (tl kbytes) (tl obytes)
  end.

Definition key_equals (hm : hashmap_t) (key other : block) : bool :=
  if key_size hm <? 0
  then str_equals (bytes key) (bytes other)
  else fixed_equals (Z.to_nat (key_size hm)) (bytes key) (bytes other).

(** ** Probing *)

(** the loop of [get_bucket_index], entered with [index]; [k] is the key
    looked for and [h] its hash.  [key_equals] reads both keys, so a null one
    among them gives no result. *)
Fixpoint probe (fuel : nat) (hm : hashmap_t) (k : keyptr) (h : Z) (index : Z) : option Z :=
  match fuel with
  | O => None
  | S fuel' =>
      b <- bucket_at (buckets hm) index ;;
      if filled b then
        if hash b =? h then
          kb <- k ;;
          ob <- key b ;;
          if key_equals hm kb ob then Some index
          else probe fuel' hm k h (to_int (to_size (index + 1) mod alloc_size hm))
        else probe fuel' hm k h (to_int (to_size (index + 1) mod alloc_size hm))
      else Some index
  end.

(** A probe that has looked at every bucket without leaving the loop never
    leaves it, as the buckets do not change: [alloc_size] rounds decide. *)
Definition get_bucket_index (hm : hashmap_t) (k : keyptr) (h : Z) : option Z :=
  probe (Z.to_nat (alloc_size hm)) hm k h (to_int (h mod alloc_size hm)).

(** ** hashmap_set_lower, rehash *)

(** result: the table, the old value, the addresses freed *)
Definition hashmap_set_lower (hm : hashmap_t) (k : keyptr) (v : Z) (h : Z)
  : option (hashmap_t * Z * list Z) :=
  index <- get_bucket_index hm k h ;;
  b <- bucket_at (buckets hm) index ;;
  let freed := if filled b && copy_keys hm then free_key (key b) else [] in
  let old_value := if filled b then value b else 0 in
  let hash' := if filled b then hash b else h in
  let size' := if filled b then size hm else to_size (size hm + 1) in
  let b' := mkbucket true (to_int (hash' mod alloc_size hm)) hash' k v in
  Some (set_size (set_buckets hm (store_at (buckets hm) index b')) size', old_value, freed).

(** the [for] loop of [rehash] over the old buckets *)
Fixpoint rehash_loop (old_buckets : list hashbucket_t) (hm : hashmap_t) (freed : list Z)
  : option (hashmap_t * list Z) :=
  match old_buckets with
  | [] => Some (hm, freed)
  | b :: rest =>
      if filled b then
        '(hm', _, fr) <- hashmap_set_lower hm (key b) (value b) (hash b) ;;
        rehash_loop rest hm' (freed ++ fr)
      else rehash_loop rest hm freed
  end.

Definition rehash (hm : hashmap_t) (new_size : Z) : option (hashmap_t * list Z) :=
  if new_size <? min_size hm then Some (hm, [])
  else
    let old_buckets := buckets hm in
    let hm' := mkhmap (calloc new_size) 0 (min_size hm) new_size (key_size hm) (copy_keys hm) in
    rehash_loop old_buckets hm' [].

(** ** hashmap_get, hashmap_may_get, hashmap_has *)

Definition hashmap_get (hm : hashmap_t) (k : block) : option Z :=
  index <- get_bucket_index hm (Some k) (hash_key hm k) ;;
  b <- bucket_at (buckets hm) index ;;
  Some (if filled b then value b else 0).

(** result: the flag returned and the value written to [out_value], if any *)
Definition hashmap_may_get (hm : hashmap_t) (k : block) : option (bool * option Z) :=
  index <- get_bucket_index hm (Some k) (hash_key hm k) ;;
  b <- bucket_at (buckets hm) index ;;
  Some (if filled b then (true, Some (value b)) else (false, None)).

Definition hashmap_has (hm : hashmap_t) (k : block) : option bool :=
  index <- get_bucket_index hm (Some k) (hash_key hm k) ;;
  b <- bucket_at (buckets hm) index ;;
  Some (filled b).

(** ** hashmap_set *)

Definition hashmap_set (hm : hashmap_t) (k : block) (v : Z) (fresh : Z)
  : option (hashmap_t * Z * list Z) :=
  '(hm1, fr1) <- (if size hm >=? Z.shiftr (alloc_size hm) 1
                  then rehash hm (to_size (Z.shiftl (alloc_size hm) 1))
                  else Some (hm, [])) ;;
  let k' := if copy_keys hm1 then copy_key hm1 k fresh else k in
  '(hm2, old_value, fr2) <- hashmap_set_lower hm1 (Some k') v (hash_key hm1 k') ;;
  Some (hm2, old_value, fr1 ++ fr2).

(** ** hashmap_remove *)

(** the [while (1)] loop of [hashmap_remove]; it leaves at the first bucket
    that is not filled, and no copy changes a [filled] flag from true, so
    [alloc_size] rounds decide *)
Fixpoint remove_loop (fuel : nat) (hm : hashmap_t) (last_index index : Z)
  : option (hashmap_t * Z) :=
  match fuel with
  | O => None
  | S fuel' =>
      let index := to_int (to_size (index + 1) mod alloc_size hm) in
      b <- bucket_at (buckets hm) index ;;
      if negb (filled b) then Some (hm, last_index)
      else
        let desired := desired_idx b in
        let filter :=
          if desired <? index then (last_index <? index) && (desired <=? last_index)
          else if desired >? index then (last_index <? index) || (desired <=? last_index)
          else false in
        if filter
        then remove_loop fuel' (set_buckets hm (store_at (buckets hm) last_index b)) index index
        else remove_loop fuel' hm last_index index
  end.

(** result: the table, the value returned, the addresses freed *)
Definition hashmap_remove (hm : hashmap_t) (k : block) : option (hashmap_t * Z * list Z) :=
  index <- get_bucket_index hm (Some k) (hash_key hm k) ;;
  b <- bucket_at (buckets hm) index ;;
  if filled b then
    let v := value b in
    let fr := if copy_keys hm then free_key (key b) else [] in
    '(hm1, last_index) <- remove_loop (Z.to_nat (alloc_size hm)) hm index index ;;
    lb <- bucket_at (buckets hm1) last_index ;;
    let vacated := mkbucket false (desired_idx lb) (hash lb) (key lb) (value lb) in
    let hm2 := set_buckets hm1 (store_at (buckets hm1) last_index vacated) in
    let hm3 := set_size hm2 (to_size (size hm2 - 1)) in
    if size hm3 <? Z.shiftr (alloc_size hm3) 2
    then '(hm4, fr') <- rehash hm3 (Z.shiftr (alloc_size hm3) 1) ;;
         Some (hm4, v, fr ++ fr')
    else Some (hm3, v, fr)
  else Some (hm, 0, []).

(** ** Iterators *)

(** [iter->idx]; the table of the iterator is passed along *)
Definition hmapiter_create : Z := -1.

Definition hmapiter_reset (idx : Z) : Z := -1.

(** the [do ... while] loop of [hmapiter_next]; result: [iter->idx], the flag
    returned, [*out_key] and [*out_value] *)
Fixpoint next_loop (fuel : nat) (hm : hashmap_t) (idx : Z) : option (Z * bool * keyptr * Z) :=
  match fuel with
  | O => None
  | S fuel' =>
      let idx := to_int (idx + 1) in
      if to_size idx >=? alloc_size hm then Some (-1, false, None, 0)
      else
        b <- bucket_at (buckets hm) idx ;;
        if negb (filled b) then next_loop fuel' hm idx
        else Some (idx, true, key b, value b)
  end.

(** every round of the loop increments [idx], and the round that finds it at
    [alloc_size] or more returns *)
Definition hmapiter_next (hm : hashmap_t) (idx : Z) : option (Z * bool * keyptr * Z) :=
  next_loop (S (Z.to_nat (alloc_size hm - idx))) hm idx.

(** the loop of a caller: [while (hmapiter_next(iter, &k, &v))], with the
    pairs of the calls that returned true and the result of the last call *)
Fixpoint drain (fuel : nat) (hm : hashmap_t) (idx : Z)
  : option (list (keyptr * Z) * (Z * bool * keyptr * Z)) :=
  match fuel with
  | O => None
  | S fuel' =>
      r <- hmapiter_next hm idx ;;
      match r with
      | (idx', true, k, v) =>
          '(items, last) <- drain fuel' hm idx' ;;
          Some ((k, v) :: items, last)
      | (_, false, _, _) => Some ([], r)
      end
  end.

(** reset, then advance until the first failure; every successful call
    moves [idx] forward, so there are at most [alloc_size] of them *)
Definition iterate (hm : hashmap_t) (idx : Z) : option (list (keyptr * Z) * (Z * bool * keyptr * Z)) :=
  drain (S (Z.to_nat (alloc_size hm))) hm (hmapiter_reset idx).

(** ** Vocabulary of the specification *)

(** FNV-1a on 64 bits, as published: start from the offset basis; for each
    byte, xor it into the hash, then multiply by the prime. *)
Definition fnv1a_64 (bs : list byte) : Z :=
  fold_left (fun h b => (Z.lxor h (Z.of_N (Byte.to_N b)) * 1099511628211) mod 2 ^ 64)
            bs 14695981039346656037.

(** the bytes of a key that take part in hashing *)
Definition key_span (hm : hashmap_t) (k : block) : list byte :=
  if key_size hm <? 0
  then take (strlen (bytes k)) (bytes k)
  else take (Z.to_nat (key_size hm)) (bytes k).

(** the filled buckets, in array order *)
Definition entries (hm : hashmap_t) : list hashbucket_t := filter filled (buckets hm).

Definition span_of (hm : hashmap_t) (b : hashbucket_t) : list byte :=
  match key b with Some o => key_span hm o | None => [] end.

(** [k] is stored with value [v] *)
Definition holds (hm : hashmap_t) (k : block) (v : Z) : Prop :=
  exists b o, In b (entries hm) /\ key b = Some o /\ key_equals hm k o = true /\ value b = v.

(** no filled bucket has a key equal to [k] *)
Definition absent (hm : hashmap_t) (k : block) : Prop :=
  forall b o, In b (entries hm) -> key b = Some o -> key_equals hm k o = false.

(** distance from [a] forward to [b] on an array of [n] buckets *)
Definition cyc (n a b : Z) : Z := (b - a) mod n.

(** [j] comes strictly before [i] on the probe that starts at [d] *)
Definition on_path (n d i j : Z) : Prop := cyc n d j < cyc n d i.

(** a probe from [index] meets [target] before any bucket that is not filled *)
Fixpoint reaches (fuel : nat) (hm : hashmap_t) (index target : Z) : bool :=
  match fuel with
  | O => false
  | S fuel' =>
      if index =? target then true
      else match bucket_at (buckets hm) index with
           | Some b => filled b && reaches fuel' hm ((index + 1) mod alloc_size hm) target
           | None => false
           end
  end.

(** every filled bucket is reached from its desired index *)
Definition probe_chain (hm : hashmap_t) : Prop :=
  forall i b, bucket_at (buckets hm) i = Some b -> filled b = true ->
    reaches (Z.to_nat (alloc_size hm)) hm (desired_idx b) i = true.

(** the same, by positions *)
Definition chain (hm : hashmap_t) : Prop :=
  forall i b j, bucket_at (buckets hm) i = Some b -> filled b = true ->
    0 <= j < alloc_size hm -> on_path (alloc_size hm) (desired_idx b) i j ->
    exists bj, bucket_at (buckets hm) j = Some bj /\ filled bj = true.

(** what a filled bucket records *)
Definition good_bucket (hm : hashmap_t) (b : hashbucket_t) : Prop :=
  exists o, key b = Some o /\ hash b = hash_key hm o /\
            desired_idx b = hash b mod alloc_size hm.

(** the array of a table, whatever its load *)
Record table_ok (hm : hashmap_t) : Prop := {
  ok_pos : 0 < alloc_size hm;
  ok_int : alloc_size hm <= INT_MAX;
  ok_len : Z.of_nat (length (buckets hm)) = alloc_size hm;
  ok_size : size hm = Z.of_nat (length (entries hm));
  ok_good : Forall (good_bucket hm) (entries hm);
  ok_distinct : NoDup (map (span_of hm) (entries hm));
  ok_chain : chain hm
}.

(** the states of a table between two operations *)
Record WF (hm : hashmap_t) : Prop := {
  wf_ok : table_ok hm;
  wf_min : MIN_HASHMAP_SIZE <= min_size hm;
  wf_cap : exists e : nat, alloc_size hm = min_size hm * 2 ^ Z.of_nat e;
  wf_load : size hm <= Z.shiftr (alloc_size hm) 1
}.

(** the doubling that the next [hashmap_set] may ask for keeps every index
    of the new array within [int] *)
Definition fits (hm : hashmap_t) : Prop :=
  size hm >= Z.shiftr (alloc_size hm) 1 -> 2 * alloc_size hm <= INT_MAX.

(** the tables built by [hashmap_create initial_size key_size copy_keys] and
    any number of [hashmap_set] and [hashmap_remove], as long as the bucket
    array can be indexed by an [int] *)
Inductive reachable (initial_size ks : Z) (ck : bool) : hashmap_t -> Prop :=
| reach_create :
    0 <= initial_size -> MAX initial_size MIN_HASHMAP_SIZE <= INT_MAX ->
    reachable initial_size ks ck (hashmap_create initial_size ks ck)
| reach_set hm k v fresh hm' old fr :
    reachable initial_size ks ck hm ->
    fits hm ->
    hashmap_set hm k v fresh = Some (hm', old, fr) ->
    reachable initial_size ks ck hm'
| reach_remove hm k hm' v fr :
    reachable initial_size ks ck hm ->
    hashmap_remove hm k = Some (hm', v, fr) ->
    reachable initial_size ks ck hm'.

(** the bucket a removal leaves behind: only the flag is cleared *)
Definition clear_filled (b : hashbucket_t) : hashbucket_t :=
  mkbucket false (desired_idx b) (hash b) (key b) (value b).

(** the array with the bucket at [h] taken for vacant *)
Definition vacate (bs : list hashbucket_t) (h : Z) : list hashbucket_t :=
  match bucket_at bs h with
  | Some b => store_at bs h (clear_filled b)
  | None => bs
  end.

(** the key and the value of a bucket, as an iterator yields them *)
Definition entry_kv (b : hashbucket_t) : keyptr * Z := (key b, value b).

(** the pairs stored in the table, in array order *)
Definition contents (hm : hashmap_t) : list (keyptr * Z) := map entry_kv (entries hm).

(** the bucket stops a probe for [k] with hash [h] on a match *)
Definition hit (hm : hashmap_t) (k : block) (h : Z) (b : hashbucket_t) : Prop :=
  filled b = true /\ hash b = h /\ exists o, key b = Some o /\ key_equals hm k o = true.

(** the probe passes the bucket *)
Definition miss (hm : hashmap_t) (k : block) (h : Z) (b : hashbucket_t) : Prop :=
  filled b = true /\
  (hash b <> h \/ exists o, key b = Some o /\ key_equals hm k o = false).

(** the state of the loop of [hashmap_remove] before a round: the hole is at
    [h], the last bucket looked at is [c], and [e] is a vacant bucket ahead.
    The flag of the hole is still set; every bucket after the hole up to [c]
    has its desired index after the hole as well, and every other filled
    bucket is reached from its desired index over buckets whose flag is set. *)
Record shift_inv (hm : hashmap_t) (h c e : Z) : Prop := {
  si_pos : 0 < alloc_size hm <= INT_MAX;
  si_len : Z.of_nat (length (buckets hm)) = alloc_size hm;
  si_h : 0 <= h < alloc_size hm;
  si_c : 0 <= c < alloc_size hm;
  si_e : 0 <= e < alloc_size hm;
  si_vac : exists be, bucket_at (buckets hm) e = Some be /\ filled be = false;
  si_ahead : cyc (alloc_size hm) h c < cyc (alloc_size hm) h e;
  si_phys : forall j, 0 <= j < alloc_size hm ->
    cyc (alloc_size hm) h j <= cyc (alloc_size hm) h c ->
    exists bj, bucket_at (buckets hm) j = Some bj /\ filled bj = true;
  si_des : forall j bj, bucket_at (buckets hm) j = Some bj -> filled bj = true ->
    0 <= desired_idx bj < alloc_size hm;
  si_fix : forall j bj, bucket_at (buckets hm) j = Some bj ->
    0 < cyc (alloc_size hm) h j <= cyc (alloc_size hm) h c ->
    0 < cyc (alloc_size hm) h (desired_idx bj) <= cyc (alloc_size hm) h j;
  si_chain : forall i b j, i <> h ->
    bucket_at (buckets hm) i = Some b -> filled b = true ->
    0 <= j < alloc_size hm -> on_path (alloc_size hm) (desired_idx b) i j ->
    exists bj, bucket_at (buckets hm) j = Some bj /\ filled bj = true
}.

(** the table once [b'] is written to the bucket at [r] and the count is
    [size'] *)
Definition stored (hm : hashmap_t) (r : Z) (b' : hashbucket_t) (size' : Z) : hashmap_t :=
  set_size (set_buckets hm (store_at (buckets hm) r b')) size'.

(** the filled buckets behind position [idx] *)
Definition filled_after (hm : hashmap_t) (idx : Z) : list hashbucket_t :=
  filter filled (skipn (Z.to_nat (idx + 1)) (buckets hm)).

(** the 32 bit branch of the [#if]: the constants and the loop of [hash_key]
    for keys of variable length *)
Definition FNV_PRIME_32 : Z := 0x01000193a.
Definition FNV_BASIS_32 : Z := 0x811c9dc5.

Fixpoint hash_str_32 (hash : Z) (bs : list byte) : Z :=
  match bs with
  | [] => hash
  | b :: rest =>
      if Byte.eqb b x00 then hash
      else hash_str_32 ((Z.lxor hash (byte_val b) * FNV_PRIME_32) mod 4294967296) rest
  end.

(** FNV-1a on 32 bits, as published *)
Definition fnv1a_32 (bs : list byte) : Z :=
  fold_left (fun h b => (Z.lxor h (Z.of_N (Byte.to_N b)) * 16777619) mod 2 ^ 32)
            bs 2166136261.

(** the addresses of the keys that the filled buckets hold *)
Definition held (hm : hashmap_t) : list Z :=
  flat_map (fun p => free_key (fst p)) (contents hm).

(** no vacant bucket holds a key pointer *)
Definition clean (hm : hashmap_t) : Prop :=
  forall b, In b (buckets hm) -> filled b = false -> key b = None.

(** the tables built by [hashmap_create] and [hashmap_set] alone *)
Inductive built (initial_size ks : Z) (ck : bool) : hashmap_t -> Prop :=
| built_create : built initial_size ks ck (hashmap_create initial_size ks ck)
| built_set hm k v fresh hm' old fr :
    built initial_size ks ck hm ->
    hashmap_set hm k v fresh = Some (hm', old, fr) ->
    built initial_size ks ck hm'.

(** a run of [hashmap_set] and [hashmap_remove] on a new table, with the
    addresses [copy_key] was given by [malloc] and the addresses passed to
    [free], both latest first *)
Inductive run (initial_size ks : Z) (ck : bool) : hashmap_t -> list Z -> list Z -> Prop :=
| run_create :
    0 <= initial_size -> MAX initial_size MIN_HASHMAP_SIZE <= INT_MAX ->
    run initial_size ks ck (hashmap_create initial_size ks ck) [] []
| run_set hm allocated freed k v fresh hm' old fr :
    run initial_size ks ck hm allocated freed ->
    fits hm ->
    hashmap_set hm k v fresh = Some (hm', old, fr) ->
    run initial_size ks ck hm'
        (if ck then fresh :: allocated else allocated) (fr ++ freed)
| run_remove hm allocated freed k hm' v fr :
    run initial_size ks ck hm allocated freed ->
    hashmap_remove hm k = Some (hm', v, fr) ->
    run initial_size ks ck hm' allocated (fr ++ freed).

(** ** Sample keys and tables *)

Definition key_a : block := mkblock 1000 ["a"%byte; x00].
Definition key_b : block := mkblock 1001 ["b"%byte; x00].
Definition key_c : block := mkblock 1002 ["c"%byte; x00].
Definition key_d : block := mkblock 1003 ["d"%byte; x00].

(** the table after a [hashmap_set], after a [hashmap_remove] *)
Definition after_set (hm : hashmap_t) (k : block) (v fresh : Z) : hashmap_t :=
  match hashmap_set hm k v fresh with Some (hm', _, _) => hm' | None => hm end.

Definition after_remove (hm : hashmap_t) (k : block) : hashmap_t :=
  match hashmap_remove hm k with Some (hm', _, _) => hm' | None => hm end.

(** string keys, copied; capacity 8 *)
Definition table_empty : hashmap_t := hashmap_create 8 (-1) true.
Definition table_a : hashmap_t := after_set table_empty key_a 7 100.
Definition table_abc : hashmap_t :=
  after_set (after_set table_a key_b 8 101) key_c 9 102.
Definition table_a_removed : hashmap_t := after_remove table_a key_a.
Definition key_e : block := mkblock 1004 ["e"%byte; x00].
Definition table_abcd : hashmap_t := after_set table_abc key_d 10 103.
Definition table_abcde : hashmap_t := after_set table_abcd key_e 11 104.
Definition table_abcd_wide : hashmap_t := after_remove table_abcde key_e.

(** "a" and "i" have the same desired index, 4 *)
Definition key_i : block := mkblock 1008 ["i"%byte; x00].
Definition table_ai : hashmap_t := after_set table_a key_i 8 101.
Definition table_ai_removed : hashmap_t := after_remove table_ai key_a.

(** keys of four bytes, not copied; capacity hint 12 *)
Definition table_twelve : hashmap_t := hashmap_create 12 4 false.

(** string keys, copied; capacity hint 9: the fifth key doubles the capacity
    to 18 *)
Definition table_nine_0 : hashmap_t := hashmap_create 9 (-1) true.
Definition table_nine_1 : hashmap_t := after_set table_nine_0 key_a 7 100.
Definition table_nine_2 : hashmap_t := after_set table_nine_1 key_b 8 101.
Definition table_nine_3 : hashmap_t := after_set table_nine_2 key_c 9 102.
Definition table_nine_4 : hashmap_t := after_set table_nine_3 key_d 10 103.
Definition table_nine : hashmap_t := after_set table_nine_4 key_e 11 104.

(** * Proofs *)

(** ** Machine integers *)

Lemma to_int_small (x : Z) : 0 <= x <= INT_MAX -> to_int x = x.
Proof.
  unfold to_int, INT_MAX. intros H.
  rewrite Z.mod_small by lia. lia.
Qed.

Lemma to_size_small (x : Z) : 0 <= x < 2 ^ 64 -> to_size x = x.
Proof. unfold to_size. intros H. apply Z.mod_small. exact H. Qed.

Lemma next_eq (n i : Z) :
  0 <= i < n -> (i + 1) mod n = if i + 1 =? n then 0 else i + 1.
Proof.
  intros H. destruct (Z.eqb_spec (i + 1) n) as [E|E].
  - rewrite E. apply Z.mod_same. lia.
  - apply Z.mod_small. lia.
Qed.

Lemma next_range (n i : Z) : 0 <= i < n -> 0 <= (i + 1) mod n < n.
Proof. intros H. apply Z.mod_pos_bound. lia. Qed.

Lemma next_index_eq (n i : Z) :
  0 <= i < n -> n <= INT_MAX ->
  to_int (to_size (i + 1) mod n) = (i + 1) mod n.
Proof.
  intros H Hn. unfold INT_MAX in Hn.
  rewrite to_size_small by lia.
  apply to_int_small. pose proof (next_range n i H). unfold INT_MAX. lia.
Qed.

Lemma home_eq (n h : Z) : 0 < n <= INT_MAX -> to_int (h mod n) = h mod n.
Proof.
  intros H. apply to_int_small.
  pose proof (Z.mod_pos_bound h n). lia.
Qed.

Lemma home_range (n h : Z) : 0 < n -> 0 <= h mod n < n.
Proof. intros H. apply Z.mod_pos_bound. exact H. Qed.

Lemma cyc_eq (n a b : Z) :
  0 <= a < n -> 0 <= b < n ->
  cyc n a b = if a <=? b then b - a else b - a + n.
Proof.
  intros Ha Hb. unfold cyc. destruct (Z.leb_spec a b).
  - apply Z.mod_small. lia.
  - transitivity ((b - a + 1 * n) mod n).
    + symmetry. apply Z.mod_add. lia.
    + rewrite Z.mod_small; lia.
Qed.

(** the arithmetic of positions on the ring of buckets, by cases *)
Ltac ring_cases :=
  unfold on_path in *;
  repeat match goal with
  | H : context [cyc ?n ?a ?b] |- _ => rewrite (cyc_eq n a b) in H by lia
  | |- context [cyc ?n ?a ?b] => rewrite (cyc_eq n a b) by lia
  | H : context [(?i + 1) mod ?n] |- _ => rewrite (next_eq n i) in H by lia
  | |- context [(?i + 1) mod ?n] => rewrite (next_eq n i) by lia
  end;
  repeat match goal with
  | H : context [?a <=? ?b] |- _ => destruct (Z.leb_spec a b)
  | |- context [?a <=? ?b] => destruct (Z.leb_spec a b)
  | H : context [?a =? ?b] |- _ => destruct (Z.eqb_spec a b)
  | |- context [?a =? ?b] => destruct (Z.eqb_spec a b)
  end;
  try lia.

Lemma cyc_range (n a b : Z) : 0 <= a < n -> 0 <= b < n -> 0 <= cyc n a b < n.
Proof. intros. ring_cases. Qed.

Lemma cyc_self (n a : Z) : 0 <= a < n -> cyc n a a = 0.
Proof. intros. ring_cases. Qed.

Lemma cyc_zero (n a b : Z) : 0 <= a < n -> 0 <= b < n -> cyc n a b = 0 -> a = b.
Proof. intros. ring_cases. Qed.

Lemma cyc_next (n a b : Z) :
  0 <= a < n -> 0 <= b < n -> a <> b ->
  cyc n ((a + 1) mod n) b = cyc n a b - 1.
Proof.
  intros Ha Hb Hab. pose proof (next_range n a Ha).
  rewrite (cyc_eq n ((a + 1) mod n) b) by lia. ring_cases.
Qed.

(** ** The bucket array *)

Lemma bucket_at_range bs i b :
  bucket_at bs i = Some b -> 0 <= i < Z.of_nat (length bs).
Proof.
  unfold bucket_at. destruct (Z.ltb_spec i 0); [discriminate|].
  intros E. assert (Z.to_nat i < length bs)%nat.
  { apply nth_error_Some. congruence. }
  lia.
Qed.

Lemma bucket_at_some bs i :
  0 <= i < Z.of_nat (length bs) -> exists b, bucket_at bs i = Some b.
Proof.
  intros H. unfold bucket_at. destruct (Z.ltb_spec i 0); [lia|].
  destruct (nth_error bs (Z.to_nat i)) eqn:E; [eauto|].
  apply nth_error_None in E. lia.
Qed.

Lemma bucket_at_In bs i b : bucket_at bs i = Some b -> In b bs.
Proof.
  unfold bucket_at. destruct (i <? 0); [discriminate|]. apply nth_error_In.
Qed.

Lemma In_bucket_at bs b : In b bs -> exists i, bucket_at bs i = Some b.
Proof.
  intros H. apply In_nth_error in H. destruct H as [n E].
  exists (Z.of_nat n). unfold bucket_at.
  destruct (Z.ltb_spec (Z.of_nat n) 0); [lia|]. now rewrite Nat2Z.id.
Qed.

Lemma length_upd bs i b : length (upd bs i b) = length bs.
Proof.
  revert i. induction bs as [|x bs IH]; intros i; simpl; [reflexivity|].
  destruct i; simpl; [reflexivity|]. now rewrite IH.
Qed.

Lemma length_store_at bs i b : length (store_at bs i b) = length bs.
Proof. apply length_upd. Qed.

Lemma nth_error_upd_eq bs i b :
  (i < length bs)%nat -> nth_error (upd bs i b) i = Some b.
Proof.
  revert i. induction bs as [|x bs IH]; intros i H; simpl in *; [lia|].
  destruct i; simpl; [reflexivity|]. apply IH. lia.
Qed.

Lemma nth_error_upd_ne bs i j b :
  i <> j -> nth_error (upd bs i b) j = nth_error bs j.
Proof.
  revert i j. induction bs as [|x bs IH]; intros i j H; simpl; [reflexivity|].
  destruct i, j; simpl; try reflexivity; try congruence.
  apply IH. congruence.
Qed.

Lemma bucket_at_store_eq bs i b :
  0 <= i < Z.of_nat (length bs) -> bucket_at (store_at bs i b) i = Some b.
Proof.
  intros H. unfold bucket_at, store_at.
  destruct (Z.ltb_spec i 0); [lia|]. apply nth_error_upd_eq. lia.
Qed.

Lemma bucket_at_store_ne bs i j b :
  0 <= i -> i <> j -> bucket_at (store_at bs i b) j = bucket_at bs j.
Proof.
  intros Hi H. unfold bucket_at, store_at.
  destruct (Z.ltb_spec j 0); [reflexivity|]. apply nth_error_upd_ne. lia.
Qed.

(** what an assignment to one bucket does to the list of filled buckets *)
Lemma entries_upd bs i b b' :
  nth_error bs i = Some b ->
  exists rest,
    Permutation (filter filled bs) ((if filled b then [b] else []) ++ rest) /\
    Permutation (filter filled (upd bs i b')) ((if filled b' then [b'] else []) ++ rest).
Proof.
  revert i. induction bs as [|x bs IH]; intros i E.
  - destruct i; discriminate.
  - destruct i; simpl in E.
    + injection E as ->. exists (filter filled bs). simpl.
      split; [destruct (filled b)|destruct (filled b')]; reflexivity.
    + destruct (IH i E) as [rest [P1 P2]]. simpl.
      destruct (filled x).
      * exists (x :: rest). split.
        -- rewrite P1. apply Permutation_middle.
        -- rewrite P2. apply Permutation_middle.
      * exists rest. split; assumption.
Qed.

Lemma entries_store bs i b b' :
  bucket_at bs i = Some b ->
  exists rest,
    Permutation (filter filled bs) ((if filled b then [b] else []) ++ rest) /\
    Permutation (filter filled (store_at bs i b')) ((if filled b' then [b'] else []) ++ rest).
Proof.
  unfold bucket_at, store_at. destruct (i <? 0); [discriminate|]. apply entries_upd.
Qed.

(** ** Keys: what is compared and what is hashed *)

Lemma byte_eqb_spec (a b : byte) : reflect (a = b) (Byte.eqb a b).
Proof.
  destruct (Byte.eqb a b) eqn:E; constructor.
  - now apply byte_dec_bl.
  - now apply eqb_false.
Qed.

Lemma fnv1a_64_fold bs : fnv1a_64 bs = fold_left hash_step bs FNV_BASIS.
Proof. reflexivity. Qed.

Lemma take_take m n bs : (m <= n)%nat -> take m (take n bs) = take m bs.
Proof.
  revert n bs. induction m as [|m IH]; intros n bs H; [reflexivity|].
  destruct n as [|n]; [lia|]. simpl. f_equal. apply IH. lia.
Qed.

Lemma length_take n bs : length (take n bs) = n.
Proof. revert bs. induction n; intros; simpl; congruence. Qed.

Lemma strlen_take bs : strlen (take (S (strlen bs)) bs) = strlen bs.
Proof.
  induction bs as [|b bs IH]; [reflexivity|].
  cbn [strlen]. destruct (byte_eqb_spec b x00) as [->|N].
  - reflexivity.
  - cbn [take hd tl strlen]. destruct (byte_eqb_spec b x00); [contradiction|].
    f_equal. exact IH.
Qed.

Lemma hash_str_span h bs : hash_str h bs = fold_left hash_step (take (strlen bs) bs) h.
Proof.
  revert h. induction bs as [|b bs IH]; intros h; [reflexivity|].
  simpl. destruct (byte_eqb_spec b x00); [reflexivity|]. simpl. apply IH.
Qed.

Lemma hash_fixed_span n h bs : hash_fixed n h bs = fold_left hash_step (take n bs) h.
Proof.
  revert h bs. induction n as [|n IH]; intros h bs; [reflexivity|]. simpl. apply IH.
Qed.

Lemma hash_key_span hm k : hash_key hm k = fold_left hash_step (key_span hm k) FNV_BASIS.
Proof.
  unfold hash_key, key_span. destruct (key_size hm <? 0).
  - apply hash_str_span.
  - apply hash_fixed_span.
Qed.

Lemma str_equals_span a b :
  str_equals a b = true <-> take (strlen a) a = take (strlen b) b.
Proof.
  revert b. induction a as [|x a IH]; intros b.
  - simpl. destruct b as [|y b]; simpl.
    + split; reflexivity.
    + destruct (byte_eqb_spec x00 y) as [<-|N].
      * simpl. split; reflexivity.
      * destruct (byte_eqb_spec y x00) as [->|N']; [contradiction|].
        simpl. split; discriminate.
  - cbn [str_equals strlen].
    destruct b as [|y b]; cbn [hd tl strlen].
    + destruct (byte_eqb_spec x x00) as [->|N]; simpl.
      * split; reflexivity.
      * split; discriminate.
    + destruct (byte_eqb_spec x y) as [<-|N]; cbn [negb].
      * destruct (byte_eqb_spec x x00) as [->|N0]; [split; reflexivity|].
        cbn [take hd tl]. rewrite IH. split; intros E.
        -- now f_equal.
        -- now injection E.
      * split; [discriminate|].
        destruct (byte_eqb_spec x x00) as [->|Nx], (byte_eqb_spec y x00) as [->|Ny];
          cbn [take hd tl]; intros E; try discriminate; try contradiction.
        injection E as E1 _. contradiction.
Qed.

Lemma fixed_equals_span n a b : fixed_equals n a b = true <-> take n a = take n b.
Proof.
  revert a b. induction n as [|n IH]; intros a b; simpl.
  - split; reflexivity.
  - destruct (byte_eqb_spec (hd x00 a) (hd x00 b)) as [E|N]; simpl.
    + rewrite IH. rewrite E. split; intros H; [now f_equal|now injection H].
    + split; [discriminate|]. intros H. injection H as H _. contradiction.
Qed.

Lemma key_equals_span hm a b :
  key_equals hm a b = true <-> key_span hm a = key_span hm b.
Proof.
  unfold key_equals, key_span. destruct (key_size hm <? 0).
  - apply str_equals_span.
  - apply fixed_equals_span.
Qed.

Lemma key_equals_false hm a b :
  key_equals hm a b = false <-> key_span hm a <> key_span hm b.
Proof.
  rewrite <- key_equals_span. destruct (key_equals hm a b); split; congruence.
Qed.

Lemma key_equals_refl hm a : key_equals hm a a = true.
Proof. now apply key_equals_span. Qed.

Lemma key_equals_hash hm a b : key_equals hm a b = true -> hash_key hm a = hash_key hm b.
Proof.
  intros H. apply key_equals_span in H. now rewrite !hash_key_span, H.
Qed.

Lemma copy_key_span hm k fresh : key_span hm (copy_key hm k fresh) = key_span hm k.
Proof.
  unfold copy_key, key_span. destruct (key_size hm <? 0); cbn [bytes].
  - change (1 + strlen (bytes k))%nat with (S (strlen (bytes k))).
    rewrite strlen_take. apply take_take. lia.
  - apply take_take. lia.
Qed.

(** the functions on keys read the key size of the table and nothing else *)
Lemma key_span_ext hm hm' k : key_size hm' = key_size hm -> key_span hm' k = key_span hm k.
Proof. unfold key_span. now intros ->. Qed.

Lemma key_equals_ext hm hm' a b :
  key_size hm' = key_size hm -> key_equals hm' a b = key_equals hm a b.
Proof. unfold key_equals. now intros ->. Qed.

Lemma hash_key_ext hm hm' k : key_size hm' = key_size hm -> hash_key hm' k = hash_key hm k.
Proof. unfold hash_key. now intros ->. Qed.

Lemma span_of_ext hm hm' b : key_size hm' = key_size hm -> span_of hm' b = span_of hm b.
Proof. unfold span_of. intros E. destruct (key b); [now apply key_span_ext|reflexivity]. Qed.

(** ** Probing *)

Lemma exists_vacant bs :
  (length (filter filled bs) < length bs)%nat ->
  exists e be, bucket_at bs e = Some be /\ filled be = false.
Proof.
  induction bs as [|x bs IH]; simpl; [lia|].
  destruct (filled x) eqn:F.
  - simpl. intros H. destruct IH as [e [be [E Fe]]]; [lia|].
    pose proof (bucket_at_range _ _ _ E).
    exists (e + 1), be. split; [|exact Fe].
    unfold bucket_at in *. destruct (Z.ltb_spec (e + 1) 0); [lia|].
    destruct (Z.ltb_spec e 0); [lia|].
    replace (Z.to_nat (e + 1)) with (S (Z.to_nat e)) by lia. exact E.
  - intros _. exists 0, x. split; [reflexivity|exact F].
Qed.

(** two filled buckets with the same span are one bucket *)
Lemma NoDup_spans_nth (f : hashbucket_t -> list byte) bs i j b b' :
  NoDup (map f (filter filled bs)) ->
  nth_error bs i = Some b -> nth_error bs j = Some b' ->
  filled b = true -> filled b' = true -> f b = f b' -> i = j.
Proof.
  revert i j. induction bs as [|x bs IH]; intros i j ND Ei Ej Fb Fb' E.
  - destruct i; discriminate.
  - assert (Hin : forall m c, nth_error bs m = Some c -> filled c = true ->
                              In (f c) (map f (filter filled bs))).
    { intros m c Em Fc. apply in_map. apply filter_In. split; [|exact Fc].
      eapply nth_error_In; eauto. }
    simpl in ND. destruct i, j; simpl in Ei, Ej.
    + reflexivity.
    + injection Ei as ->. rewrite Fb in ND. simpl in ND. inversion ND; subst.
      exfalso. rewrite E in *. eauto.
    + injection Ej as ->. rewrite Fb' in ND. simpl in ND. inversion ND; subst.
      exfalso. rewrite <- E in *. eauto.
    + f_equal. apply IH; auto.
      destruct (filled x); [now inversion ND|exact ND].
Qed.

Lemma distinct_index hm i j b b' :
  NoDup (map (span_of hm) (entries hm)) ->
  bucket_at (buckets hm) i = Some b -> bucket_at (buckets hm) j = Some b' ->
  filled b = true -> filled b' = true -> span_of hm b = span_of hm b' -> i = j.
Proof.
  intros ND Ei Ej Fb Fb' E.
  pose proof (bucket_at_range _ _ _ Ei). pose proof (bucket_at_range _ _ _ Ej).
  unfold bucket_at in *.
  destruct (Z.ltb_spec i 0); [lia|]. destruct (Z.ltb_spec j 0); [lia|].
  assert (Z.to_nat i = Z.to_nat j) by (eapply NoDup_spans_nth; eauto).
  lia.
Qed.

Lemma entries_In hm i b :
  bucket_at (buckets hm) i = Some b -> filled b = true -> In b (entries hm).
Proof.
  intros E F. apply filter_In. split; [eapply bucket_at_In; eauto|exact F].
Qed.

Lemma In_entries hm b :
  In b (entries hm) -> filled b = true /\ exists i, bucket_at (buckets hm) i = Some b.
Proof.
  intros H. apply filter_In in H. destruct H as [H F].
  split; [exact F|now apply In_bucket_at].
Qed.

Section Probe.
Variable hm : hashmap_t.
Hypothesis Hok : table_ok hm.

Lemma ok_keyed i b :
  bucket_at (buckets hm) i = Some b -> filled b = true -> good_bucket hm b.
Proof.
  intros E F. pose proof (ok_good hm Hok) as G.
  rewrite Forall_forall in G. apply G. eapply entries_In; eauto.
Qed.

Lemma ok_range i b : bucket_at (buckets hm) i = Some b -> 0 <= i < alloc_size hm.
Proof. intros E. apply bucket_at_range in E. rewrite (ok_len hm Hok) in E. exact E. Qed.

Lemma ok_some i : 0 <= i < alloc_size hm -> exists b, bucket_at (buckets hm) i = Some b.
Proof. intros H. apply bucket_at_some. now rewrite (ok_len hm Hok). Qed.

Lemma bucket_cases k h i b :
  bucket_at (buckets hm) i = Some b ->
  filled b = false \/ hit hm k h b \/ miss hm k h b.
Proof.
  intros E. destruct (filled b) eqn:F; [right|now left].
  destruct (ok_keyed i b E F) as [o [Ko _]].
  unfold hit, miss. destruct (Z.eq_dec (hash b) h) as [Eh|Nh].
  - destruct (key_equals hm k o) eqn:Q.
    + left. eauto 6.
    + right. split; [exact F|]. right. eauto.
  - right. split; [exact F|]. now left.
Qed.

Lemma hit_not_miss k h b : hit hm k h b -> miss hm k h b -> False.
Proof.
  intros [_ [Eh [o [Ko Q]]]] [_ [Nh|[o' [Ko' Q']]]]; [contradiction|].
  congruence.
Qed.

Lemma probe_stop fuel k h i b :
  bucket_at (buckets hm) i = Some b ->
  filled b = false \/ hit hm k h b ->
  probe (S fuel) hm (Some k) h i = Some i.
Proof.
  intros E [F|[F [Eh [o [Ko Q]]]]]; simpl; rewrite E, F; [reflexivity|].
  apply Z.eqb_eq in Eh. now rewrite Eh, Ko, Q.
Qed.

Lemma probe_step fuel k h i b :
  bucket_at (buckets hm) i = Some b ->
  miss hm k h b ->
  probe (S fuel) hm (Some k) h i = probe fuel hm (Some k) h ((i + 1) mod alloc_size hm).
Proof.
  intros E [F M]. pose proof (ok_range i b E) as R.
  simpl. rewrite E, F.
  rewrite next_index_eq by (auto; apply (ok_int hm Hok)).
  destruct (Z.eqb_spec (hash b) h) as [Eh|Nh]; [|reflexivity].
  destruct M as [Nh|[o [Ko Q]]]; [contradiction|]. now rewrite Ko, Q.
Qed.

(** with a vacant bucket ahead, the loop leaves at the first bucket that
    is vacant or matches, having passed only buckets that do not match *)
Lemma probe_run k h fuel : forall i e be,
  0 <= i < alloc_size hm ->
  bucket_at (buckets hm) e = Some be -> filled be = false ->
  cyc (alloc_size hm) i e < Z.of_nat fuel ->
  exists r br,
    probe fuel hm (Some k) h i = Some r /\
    bucket_at (buckets hm) r = Some br /\
    (filled br = false \/ hit hm k h br) /\
    forall j bj, bucket_at (buckets hm) j = Some bj ->
                 on_path (alloc_size hm) i r j -> miss hm k h bj.
Proof.
  induction fuel as [|fuel IH]; intros i e be Hi Ee Fe Hf.
  - pose proof (ok_range e be Ee). pose proof (cyc_range _ i e Hi H). lia.
  - pose proof (ok_range e be Ee) as He.
    destruct (ok_some i Hi) as [b Eb].
    destruct (bucket_cases k h i b Eb) as [F|[Hh|M]].
    + exists i, b. rewrite (probe_stop fuel k h i b Eb) by auto.
      split; [reflexivity|]. split; [assumption|]. split; [auto|]. intros j bj Ej P. pose proof (ok_range j bj Ej).
      exfalso. ring_cases.
    + exists i, b. rewrite (probe_stop fuel k h i b Eb) by auto.
      split; [reflexivity|]. split; [assumption|]. split; [auto|]. intros j bj Ej P. pose proof (ok_range j bj Ej).
      exfalso. ring_cases.
    + assert (i <> e).
      { intros ->. destruct M as [F _]. congruence. }
      pose proof (next_range _ i Hi) as Hn.
      destruct (IH ((i + 1) mod alloc_size hm) e be Hn Ee Fe) as [r [br [P [Er [St Pass]]]]].
      { rewrite cyc_next by auto. lia. }
      exists r, br. rewrite (probe_step fuel k h i b Eb M).
      split; [assumption|]. split; [assumption|]. split; [assumption|].
      intros j bj Ej Pj. pose proof (ok_range j bj Ej). pose proof (ok_range r br Er).
      destruct (Z.eq_dec j i) as [->|Nj].
      * congruence.
      * apply (Pass j bj Ej).
        assert (r <> i).
        { intros ->. rewrite Eb in Er. injection Er as <-.
          destruct St as [F|Hh]; [destruct M; congruence|].
          eapply hit_not_miss; eauto. }
        unfold on_path. rewrite !cyc_next by auto.
        unfold on_path in Pj.
        assert (cyc (alloc_size hm) i j <> 0).
        { intros Z0. apply cyc_zero in Z0; auto. }
        pose proof (cyc_range _ i j Hi H0). lia.
Qed.
End Probe.

(** ** Lookup *)

Lemma cyc_inj n s a b :
  0 <= s < n -> 0 <= a < n -> 0 <= b < n -> cyc n s a = cyc n s b -> a = b.
Proof. intros. ring_cases. Qed.

Section Lookup.
Variable hm : hashmap_t.
Hypothesis Hok : table_ok hm.
Hypothesis Hroom : size hm < alloc_size hm.

Lemma ok_vacant : exists e be, bucket_at (buckets hm) e = Some be /\ filled be = false.
Proof.
  apply exists_vacant. pose proof (ok_len hm Hok). pose proof (ok_size hm Hok).
  unfold entries in *. lia.
Qed.

Lemma start_range h : 0 <= h mod alloc_size hm < alloc_size hm.
Proof. apply home_range. apply (ok_pos hm Hok). Qed.

Lemma get_bucket_index_eq k h :
  get_bucket_index hm k h =
  probe (Z.to_nat (alloc_size hm)) hm k h (h mod alloc_size hm).
Proof.
  unfold get_bucket_index. rewrite home_eq; [reflexivity|].
  split; [apply (ok_pos hm Hok)|apply (ok_int hm Hok)].
Qed.

Lemma lookup_hit k i b o :
  bucket_at (buckets hm) i = Some b -> filled b = true ->
  key b = Some o -> key_equals hm k o = true ->
  get_bucket_index hm (Some k) (hash_key hm k) = Some i.
Proof.
  intros Eb Fb Ko Q. rewrite get_bucket_index_eq.
  set (h := hash_key hm k).
  destruct (ok_keyed hm Hok i b Eb Fb) as [o' [Ko' [Hb Db]]].
  rewrite Ko in Ko'. injection Ko' as <-.
  assert (Hh : hash b = h).
  { rewrite Hb. symmetry. now apply key_equals_hash. }
  assert (Hit : hit hm k h b) by (unfold hit; eauto 6).
  destruct ok_vacant as [e [be [Ee Fe]]].
  pose proof (start_range h) as Hs.
  pose proof (ok_range hm Hok e be Ee) as He.
  pose proof (ok_range hm Hok i b Eb) as Hi.
  destruct (probe_run hm Hok k h (Z.to_nat (alloc_size hm)) (h mod alloc_size hm)
                      e be Hs Ee Fe)
    as [r [br [P [Er [St Pass]]]]].
  { pose proof (cyc_range _ _ e Hs He). lia. }
  rewrite P. f_equal.
  pose proof (ok_range hm Hok r br Er) as Hr.
  destruct (Z.lt_trichotomy (cyc (alloc_size hm) (h mod alloc_size hm) r)
                            (cyc (alloc_size hm) (h mod alloc_size hm) i)) as [L|[E|G]].
  - (* the probe stopped before [i]: on the chain of [b], so at a match *)
    destruct (ok_chain hm Hok i b r Eb Fb Hr) as [br' [Er' Fr']].
    { rewrite Db, Hh. exact L. }
    rewrite Er in Er'. injection Er' as <-.
    destruct St as [F|[_ [_ [o2 [Ko2 Q2]]]]]; [congruence|].
    apply (distinct_index hm r i br b (ok_distinct hm Hok) Er Eb Fr' Fb).
    unfold span_of. rewrite Ko, Ko2.
    apply key_equals_span in Q. apply key_equals_span in Q2. congruence.
  - eapply cyc_inj; [exact Hs|exact Hr|exact Hi|exact E].
  - exfalso. eapply hit_not_miss; [exact Hit|]. eapply Pass; eauto.
Qed.

Lemma lookup_spec k :
  exists r br,
    get_bucket_index hm (Some k) (hash_key hm k) = Some r /\
    bucket_at (buckets hm) r = Some br /\
    ((filled br = false /\ absent hm k) \/ hit hm k (hash_key hm k) br) /\
    forall j bj, bucket_at (buckets hm) j = Some bj ->
                 on_path (alloc_size hm) (hash_key hm k mod alloc_size hm) r j ->
                 filled bj = true.
Proof.
  destruct ok_vacant as [e [be [Ee Fe]]].
  pose proof (start_range (hash_key hm k)) as Hs.
  pose proof (ok_range hm Hok e be Ee) as He.
  destruct (probe_run hm Hok k (hash_key hm k) (Z.to_nat (alloc_size hm))
                      (hash_key hm k mod alloc_size hm) e be Hs Ee Fe)
    as [r [br [P [Er [St Pass]]]]].
  { pose proof (cyc_range _ _ e Hs He). lia. }
  exists r, br. rewrite get_bucket_index_eq. split; [exact P|]. split; [exact Er|].
  split; [|intros j bj Ej Pj; now destruct (Pass j bj Ej Pj)].
  destruct St as [F|Hh]; [left|now right]. split; [exact F|].
  intros b o Hin Ko. destruct (key_equals hm k o) eqn:Q; [|reflexivity].
  apply In_entries in Hin. destruct Hin as [Fb [i Eb]].
  pose proof (lookup_hit k i b o Eb Fb Ko Q) as L.
  rewrite get_bucket_index_eq, P in L. injection L as ->. congruence.
Qed.

Lemma holds_lookup k v :
  holds hm k v ->
  exists r br, get_bucket_index hm (Some k) (hash_key hm k) = Some r /\
               bucket_at (buckets hm) r = Some br /\
               filled br = true /\ value br = v /\
               exists o, key br = Some o /\ key_equals hm k o = true.
Proof.
  intros [b [o [Hin [Ko [Q V]]]]]. apply In_entries in Hin. destruct Hin as [Fb [i Eb]].
  exists i, b. split; [eapply lookup_hit; eauto|]. eauto 8.
Qed.

Lemma absent_lookup k :
  absent hm k ->
  exists r br, get_bucket_index hm (Some k) (hash_key hm k) = Some r /\
               bucket_at (buckets hm) r = Some br /\ filled br = false.
Proof.
  intros A. destruct (lookup_spec k) as [r [br [G [Er [[[F _]|[F [_ [o [Ko Q]]]]] _]]]]].
  - eauto.
  - exfalso. pose proof (A br o (entries_In hm r br Er F) Ko). congruence.
Qed.

Lemma holds_or_absent k : (exists v, holds hm k v) \/ absent hm k.
Proof.
  destruct (lookup_spec k) as [r [br [G [Er [[[F A]|[F [_ [o [Ko Q]]]]] _]]]]].
  - now right.
  - left. exists (value br), br, o. split; [eapply entries_In; eauto|]. auto.
Qed.

Lemma holds_not_absent k v : holds hm k v -> absent hm k -> False.
Proof. intros [b [o [Hin [Ko [Q _]]]]] A. pose proof (A b o Hin Ko). congruence. Qed.

Lemma holds_fun k v v' : holds hm k v -> holds hm k v' -> v = v'.
Proof.
  intros H H'. apply holds_lookup in H, H'.
  destruct H as [r [br [G [Er [_ [V _]]]]]], H' as [r' [br' [G' [Er' [_ [V' _]]]]]].
  congruence.
Qed.

Lemma get_holds k v :
  holds hm k v ->
  hashmap_get hm k = Some v /\
  hashmap_may_get hm k = Some (true, Some v) /\
  hashmap_has hm k = Some true.
Proof.
  intros H. apply holds_lookup in H. destruct H as [r [br [G [Er [F [V _]]]]]].
  unfold hashmap_get, hashmap_may_get, hashmap_has. rewrite G, Er, F, V. auto.
Qed.

Lemma get_absent k :
  absent hm k ->
  hashmap_get hm k = Some 0 /\
  hashmap_may_get hm k = Some (false, None) /\
  hashmap_has hm k = Some false.
Proof.
  intros H. apply absent_lookup in H. destruct H as [r [br [G [Er F]]]].
  unfold hashmap_get, hashmap_may_get, hashmap_has. rewrite G, Er, F. auto.
Qed.

Lemma may_get_holds k v : hashmap_may_get hm k = Some (true, Some v) -> holds hm k v.
Proof.
  intros H. destruct (holds_or_absent k) as [[v' Hv]|A].
  - destruct (get_holds k v' Hv) as [_ [M _]]. congruence.
  - destruct (get_absent k A) as [_ [M _]]. congruence.
Qed.

Lemma has_holds k : hashmap_has hm k = Some true -> exists v, holds hm k v.
Proof.
  intros H. destruct (holds_or_absent k) as [Hv|A]; [exact Hv|].
  destruct (get_absent k A) as [_ [_ M]]. congruence.
Qed.

Lemma has_absent k : hashmap_has hm k = Some false -> absent hm k.
Proof.
  intros H. destruct (holds_or_absent k) as [[v Hv]|A]; [|exact A].
  destruct (get_holds k v Hv) as [_ [_ M]]. congruence.
Qed.
End Lookup.

(** ** Writing a bucket *)

Lemma good_bucket_ext hm hm' b :
  key_size hm' = key_size hm -> alloc_size hm' = alloc_size hm ->
  good_bucket hm b -> good_bucket hm' b.
Proof.
  intros Ek Ea [o [Ko [Hb Db]]]. exists o.
  rewrite (hash_key_ext hm hm' o Ek), Ea. auto.
Qed.

Lemma map_span_ext hm hm' l :
  key_size hm' = key_size hm -> map (span_of hm') l = map (span_of hm) l.
Proof. intros E. apply map_ext. intros b. now apply span_of_ext. Qed.

Section Store.
Variable hm : hashmap_t.
Hypothesis Hok : table_ok hm.
Variables (r : Z) (br b' : hashbucket_t) (size' : Z).
Hypothesis Er : bucket_at (buckets hm) r = Some br.
Hypothesis Fb' : filled b' = true.
Hypothesis Gb' : good_bucket hm b'.
Hypothesis Hpath : forall j, 0 <= j < alloc_size hm ->
  on_path (alloc_size hm) (desired_idx b') r j ->
  exists bj, bucket_at (buckets hm) j = Some bj /\ filled bj = true.
Hypothesis Hspan_old : filled br = true -> span_of hm b' = span_of hm br.
Hypothesis Hspan_new :
  filled br = false -> ~ In (span_of hm b') (map (span_of hm) (entries hm)).
Hypothesis Hsize : size' = if filled br then size hm else size hm + 1.

Lemma store_entries :
  exists rest,
    Permutation (entries hm) ((if filled br then [br] else []) ++ rest) /\
    Permutation (entries (stored hm r b' size')) (b' :: rest).
Proof.
  destruct (entries_store (buckets hm) r br b' Er) as [rest [P1 P2]].
  exists rest. split; [exact P1|]. unfold entries, stored. cbn [buckets set_size set_buckets].
  rewrite Fb' in P2. exact P2.
Qed.

Lemma store_filled j bj :
  bucket_at (buckets hm) j = Some bj -> filled bj = true ->
  exists bj', bucket_at (buckets (stored hm r b' size')) j = Some bj' /\ filled bj' = true.
Proof.
  intros Ej Fj. unfold stored. cbn [buckets set_size set_buckets].
  pose proof (bucket_at_range _ _ _ Er).
  destruct (Z.eq_dec r j) as [<-|N].
  - exists b'. rewrite bucket_at_store_eq by lia. auto.
  - exists bj. rewrite bucket_at_store_ne by lia. auto.
Qed.

Lemma store_ok : table_ok (stored hm r b' size').
Proof.
  destruct store_entries as [rest [P1 P2]].
  pose proof (bucket_at_range _ _ _ Er) as Rr.
  constructor.
  - apply (ok_pos hm Hok).
  - apply (ok_int hm Hok).
  - unfold stored. cbn [buckets set_size set_buckets alloc_size].
    rewrite length_store_at. apply (ok_len hm Hok).
  - change (size (stored hm r b' size')) with size'.
    rewrite (Permutation_length P2), Hsize. pose proof (ok_size hm Hok) as S.
    rewrite (Permutation_length P1) in S. rewrite S, length_app.
    destruct (filled br); simpl length; lia.
  - pose proof (ok_good hm Hok) as G.
    rewrite Forall_forall in *. intros b Hb.
    apply (good_bucket_ext hm (stored hm r b' size')); [reflexivity|reflexivity|].
    apply (Permutation_in _ P2) in Hb. destruct Hb as [<-|Hb]; [exact Gb'|].
    apply G. apply (Permutation_in _ (Permutation_sym P1)).
    apply in_or_app. now right.
  - rewrite (map_span_ext hm (stored hm r b' size')) by reflexivity.
    pose proof (ok_distinct hm Hok) as ND.
    apply (Permutation_NoDup (Permutation_sym (Permutation_map (span_of hm) P2))).
    apply (Permutation_NoDup (Permutation_map (span_of hm) P1)) in ND.
    simpl. destruct (filled br) eqn:F.
    + simpl in ND. rewrite Hspan_old by reflexivity. exact ND.
    + simpl in ND. constructor; [|exact ND].
      intros Hin. apply Hspan_new; [reflexivity|].
      apply (Permutation_in _ (Permutation_sym (Permutation_map (span_of hm) P1))).
      exact Hin.
  - intros i b j Ei Fi Hj Pj.
    change (alloc_size (stored hm r b' size')) with (alloc_size hm) in *.
    unfold stored in Ei. cbn [buckets set_size set_buckets] in Ei.
    destruct (Z.eq_dec r i) as [<-|N].
    + rewrite bucket_at_store_eq in Ei by lia. injection Ei as <-.
      destruct (Hpath j Hj Pj) as [bj [Ej Fj]]. eapply store_filled; eauto.
    + rewrite bucket_at_store_ne in Ei by lia.
      destruct (ok_chain hm Hok i b j Ei Fi Hj Pj) as [bj [Ej Fj]].
      eapply store_filled; eauto.
Qed.
End Store.

(** ** hashmap_set_lower *)

Lemma holds_span hm k k' v :
  key_span hm k = key_span hm k' -> holds hm k v -> holds hm k' v.
Proof.
  intros E [b [o [Hin [Ko [Q V]]]]]. exists b, o. repeat split; auto.
  apply key_equals_span. apply key_equals_span in Q. congruence.
Qed.

Lemma absent_span hm k k' :
  key_span hm k = key_span hm k' -> absent hm k -> absent hm k'.
Proof.
  intros E A b o Hin Ko. specialize (A b o Hin Ko).
  apply key_equals_false. apply key_equals_false in A. congruence.
Qed.

Section SetLower.
Variable hm : hashmap_t.
Hypothesis Hok : table_ok hm.
Hypothesis Hroom : size hm < alloc_size hm.
Variables (k : block) (v : Z).

Lemma set_lower_spec :
  exists r br hm',
    bucket_at (buckets hm) r = Some br /\
    hashmap_set_lower hm (Some k) v (hash_key hm k) =
      Some (hm', (if filled br then value br else 0),
                 (if filled br && copy_keys hm then free_key (key br) else [])) /\
    table_ok hm' /\
    min_size hm' = min_size hm /\ alloc_size hm' = alloc_size hm /\
    key_size hm' = key_size hm /\ copy_keys hm' = copy_keys hm /\
    size hm' = (if filled br then size hm else size hm + 1) /\
    ((filled br = false /\ absent hm k) \/ hit hm k (hash_key hm k) br) /\
    exists rest,
      Permutation (entries hm) ((if filled br then [br] else []) ++ rest) /\
      Permutation (entries hm')
        (mkbucket true (hash_key hm k mod alloc_size hm) (hash_key hm k) (Some k) v :: rest).
Proof.
  destruct (lookup_spec hm Hok Hroom k) as [r [br [G [Er [St Path]]]]].
  set (h := hash_key hm k) in *.
  set (b' := mkbucket true (h mod alloc_size hm) h (Some k) v).
  set (size' := if filled br then size hm else size hm + 1).
  exists r, br, (set_size (set_buckets hm (store_at (buckets hm) r b')) size').
  split; [exact Er|].
  assert (Hh : (if filled br then hash br else h) = h).
  { destruct (filled br) eqn:F; [|reflexivity].
    destruct St as [[F' _]|[_ [Hh _]]]; congruence. }
  split.
  { unfold hashmap_set_lower. rewrite G, Er, Hh.
    rewrite home_eq by (split; [apply (ok_pos hm Hok)|apply (ok_int hm Hok)]).
    fold b'. do 3 f_equal. unfold size'.
    destruct (filled br); [reflexivity|].
    rewrite to_size_small; [reflexivity|].
    pose proof (ok_size hm Hok). pose proof (ok_int hm Hok). unfold INT_MAX in *. lia. }
  split.
  { apply (store_ok hm Hok r br b' size' Er); try reflexivity.
    - exists k. auto.
    - intros j Hj Pj. destruct (ok_some hm Hok j Hj) as [bj Ej].
      exists bj. split; [exact Ej|]. apply (Path j bj Ej Pj).
    - intros F. destruct St as [[F' _]|[_ [_ [o [Ko Q]]]]]; [congruence|].
      unfold span_of. cbn [key b']. rewrite Ko. now apply key_equals_span.
    - intros F. destruct St as [[_ A]|[F' _]]; [|congruence].
      intros Hin. apply in_map_iff in Hin. destruct Hin as [b [Eb Hb]].
      pose proof (ok_good hm Hok) as Gd. rewrite Forall_forall in Gd.
      destruct (Gd b Hb) as [o [Ko _]].
      specialize (A b o Hb Ko). apply key_equals_false in A.
      unfold span_of in Eb. cbn [key b'] in Eb. rewrite Ko in Eb. congruence. }
  repeat (split; [reflexivity|]).
  split; [exact St|].
  destruct (entries_store (buckets hm) r br b' Er) as [rest [P1 P2]].
  exists rest. split; [exact P1|exact P2].
Qed.

(** what the table holds after the write *)
Lemma set_lower_holds hm' old fr :
  hashmap_set_lower hm (Some k) v (hash_key hm k) = Some (hm', old, fr) ->
  holds hm' k v /\
  (forall k' v', key_equals hm k' k = false -> (holds hm' k' v' <-> holds hm k' v')) /\
  (forall k', key_equals hm k' k = false -> (absent hm' k' <-> absent hm k')).
Proof.
  destruct set_lower_spec
    as [r [br [hm1 [Er [E [_ [_ [_ [Ks [_ [_ [St [rest [P1 P2]]]]]]]]]]]]]].
  rewrite E. intros H. injection H as <- _ _.
  assert (Hin' : forall b, In b (entries hm1) <->
            b = mkbucket true (hash_key hm k mod alloc_size hm) (hash_key hm k) (Some k) v
            \/ In b rest).
  { intros b. split; intros H.
    - apply (Permutation_in _ P2) in H. destruct H; auto.
    - apply (Permutation_in _ (Permutation_sym P2)). destruct H; [left|right]; auto. }
  assert (Hin : forall b, In b (entries hm) <-> (filled br = true /\ b = br) \/ In b rest).
  { intros b. split; intros H.
    - apply (Permutation_in _ P1) in H. apply in_app_or in H.
      destruct H as [H|H]; [left|now right].
      destruct (filled br); [|contradiction]. destruct H; [auto|contradiction].
    - apply (Permutation_in _ (Permutation_sym P1)). apply in_or_app.
      destruct H as [[F ->]|H]; [left|now right]. rewrite F. now left. }
  assert (Hbr : forall k' o, key_equals hm k' k = false -> filled br = true ->
                             key br = Some o -> key_equals hm k' o = false).
  { intros k' o N F Ko. destruct St as [[F' _]|[_ [_ [o' [Ko' Q]]]]]; [congruence|].
    rewrite Ko in Ko'. injection Ko' as <-.
    apply key_equals_false. apply key_equals_false in N.
    apply key_equals_span in Q. congruence. }
  split; [|split].
  - eexists _, k. split; [apply Hin'; left; reflexivity|].
    cbn [key value]. repeat split; auto.
    rewrite (key_equals_ext hm hm1) by exact Ks. apply key_equals_refl.
  - intros k' v' N. split; intros [b [o [Hb [Ko [Q V]]]]].
    + rewrite (key_equals_ext hm hm1) in Q by exact Ks.
      apply Hin' in Hb. destruct Hb as [->|Hb].
      * cbn [key] in Ko. injection Ko as <-. congruence.
      * exists b, o. repeat split; auto. apply Hin. now right.
    + apply Hin in Hb. destruct Hb as [[F ->]|Hb].
      * rewrite (Hbr k' o N F Ko) in Q. discriminate.
      * exists b, o. rewrite (key_equals_ext hm hm1) by exact Ks.
        repeat split; auto. apply Hin'. now right.
  - intros k' N. split; intros A b o Hb Ko.
    + apply Hin in Hb. destruct Hb as [[F ->]|Hb]; [now apply Hbr|].
      rewrite <- (key_equals_ext hm hm1) by exact Ks.
      apply (A b o); [|exact Ko]. apply Hin'. now right.
    + rewrite (key_equals_ext hm hm1) by exact Ks.
      apply Hin' in Hb. destruct Hb as [->|Hb].
      * cbn [key] in Ko. injection Ko as <-. exact N.
      * apply (A b o); [|exact Ko]. apply Hin. now right.
Qed.
End SetLower.

(** ** The pairs a table stores *)

Lemma holds_contents hm k v :
  holds hm k v <-> exists o, In (Some o, v) (contents hm) /\ key_equals hm k o = true.
Proof.
  unfold holds, contents. split.
  - intros [b [o [Hin [Ko [Q V]]]]]. exists o. split; [|exact Q].
    apply in_map_iff. exists b. unfold entry_kv. rewrite Ko, V. auto.
  - intros [o [Hin Q]]. apply in_map_iff in Hin. destruct Hin as [b [E Hin]].
    unfold entry_kv in E. injection E as Ko V. exists b, o. auto.
Qed.

Lemma absent_contents hm k :
  absent hm k <-> forall o v, In (Some o, v) (contents hm) -> key_equals hm k o = false.
Proof.
  unfold absent, contents. split.
  - intros A o v Hin. apply in_map_iff in Hin. destruct Hin as [b [E Hin]].
    unfold entry_kv in E. injection E as Ko V. eauto.
  - intros A b o Hin Ko. apply (A o (value b)). apply in_map_iff.
    exists b. unfold entry_kv. rewrite Ko. auto.
Qed.

Lemma same_contents hm hm' :
  key_size hm' = key_size hm -> Permutation (contents hm') (contents hm) ->
  (forall k v, holds hm' k v <-> holds hm k v) /\
  (forall k, absent hm' k <-> absent hm k).
Proof.
  intros Ks P. split.
  - intros k v. rewrite !holds_contents. split; intros [o [Hin Q]]; exists o.
    + rewrite <- (key_equals_ext hm hm') by exact Ks. split; [|exact Q].
      apply (Permutation_in _ P). exact Hin.
    + rewrite (key_equals_ext hm hm') by exact Ks. split; [|exact Q].
      apply (Permutation_in _ (Permutation_sym P)). exact Hin.
  - intros k. rewrite !absent_contents. split; intros A o v Hin.
    + rewrite <- (key_equals_ext hm hm') by exact Ks. apply (A o v).
      apply (Permutation_in _ (Permutation_sym P)). exact Hin.
    + rewrite (key_equals_ext hm hm') by exact Ks. apply (A o v).
      apply (Permutation_in _ P). exact Hin.
Qed.

(** ** rehash *)

Lemma filter_calloc n : filter filled (calloc n) = [].
Proof.
  unfold calloc. induction (Z.to_nat n) as [|m IH]; simpl; [reflexivity|exact IH].
Qed.

Lemma calloc_bucket n i b : bucket_at (calloc n) i = Some b -> b = zero_bucket.
Proof.
  intros E. apply bucket_at_In in E. unfold calloc in E.
  now apply repeat_spec in E.
Qed.

Lemma length_calloc n : 0 <= n -> Z.of_nat (length (calloc n)) = n.
Proof. intros H. unfold calloc. rewrite repeat_length. lia. Qed.

Lemma fresh_table_ok n m ks ck :
  0 < n <= INT_MAX -> table_ok (mkhmap (calloc n) 0 m n ks ck).
Proof.
  intros H. constructor; cbn [alloc_size buckets size]; unfold entries; cbn [buckets];
    rewrite ?filter_calloc; simpl; try lia.
  - apply length_calloc. lia.
  - constructor.
  - constructor.
  - intros i b j Ei Fi. apply calloc_bucket in Ei. subst b. discriminate.
Qed.

Lemma rehash_loop_spec old : forall hm fr,
  table_ok hm ->
  Forall (fun b => filled b = true ->
                   exists o, key b = Some o /\ hash b = hash_key hm o) old ->
  NoDup (map (span_of hm) (entries hm) ++ map (span_of hm) (filter filled old)) ->
  size hm + Z.of_nat (length (filter filled old)) < alloc_size hm ->
  exists hm',
    rehash_loop old hm fr = Some (hm', fr) /\
    table_ok hm' /\
    min_size hm' = min_size hm /\ alloc_size hm' = alloc_size hm /\
    key_size hm' = key_size hm /\ copy_keys hm' = copy_keys hm /\
    size hm' = size hm + Z.of_nat (length (filter filled old)) /\
    Permutation (contents hm') (contents hm ++ map entry_kv (filter filled old)).
Proof.
  induction old as [|b old IH]; intros hm fr Hok Hkeys ND Hsz.
  - exists hm. simpl. rewrite app_nil_r, Z.add_0_r.
    split; [reflexivity|]. split; [exact Hok|]. repeat (split; [reflexivity|]).
    reflexivity.
  - cbn [filter rehash_loop] in *. inversion Hkeys as [|? ? Hb Hrest]; subst.
    destruct (filled b) eqn:F.
    + destruct (Hb eq_refl) as [o [Ko Hh]]. cbn [map length] in *.
      rewrite Nat2Z.inj_succ in *.
      assert (Hroom : size hm < alloc_size hm) by lia.
      destruct (set_lower_spec hm Hok Hroom o (value b))
        as [r [br [hm1 [Er [E [Hok1 [M1 [A1 [K1 [C1 [S1 [St [rest [P1 P2]]]]]]]]]]]]]].
      assert (Fbr : filled br = false).
      { destruct St as [[Fbr _]|[Fbr [_ [o' [Ko' Q]]]]]; [exact Fbr|]. exfalso.
        apply NoDup_remove_2 in ND. apply ND. apply in_or_app. left.
        apply in_map_iff. exists br. split; [|eapply entries_In; eauto].
        unfold span_of. rewrite Ko, Ko'. symmetry. now apply key_equals_span. }
      rewrite Fbr in *. simpl in E, P1.
      rewrite Ko, Hh, E.
      assert (Pc : Permutation (contents hm1) (entry_kv b :: contents hm)).
      { unfold contents. rewrite (Permutation_map entry_kv P2).
        rewrite (Permutation_map entry_kv P1). cbn [map].
        apply Permutation_cons; [|reflexivity].
        unfold entry_kv. cbn [key value]. now rewrite Ko. }
      destruct (IH hm1 (fr ++ []) Hok1) as [hm' [L [Hok' [M' [A' [K' [C' [S' P']]]]]]]].
      * rewrite Forall_forall in *. intros x Hx Fx.
        destruct (Hrest x Hx Fx) as [ox [Kx Hx']]. exists ox.
        rewrite (hash_key_ext hm hm1) by exact K1. auto.
      * rewrite !(map_span_ext hm hm1) by exact K1.
        assert (Ps : Permutation (map (span_of hm) (entries hm1))
                                 (span_of hm b :: map (span_of hm) (entries hm))).
        { rewrite (Permutation_map (span_of hm) P2).
          rewrite (Permutation_map (span_of hm) P1). cbn [map].
          apply Permutation_cons; [|reflexivity].
          unfold span_of. cbn [key]. now rewrite Ko. }
        eapply Permutation_NoDup; [|exact ND].
        rewrite Ps. simpl. symmetry. apply Permutation_middle.
      * lia.
      * exists hm'. rewrite app_nil_r in *.
        split; [exact L|]. split; [exact Hok'|].
        repeat (split; [congruence|]). split; [lia|].
        rewrite P', Pc. simpl. apply Permutation_middle.
    + destruct (IH hm fr Hok Hrest ND Hsz) as [hm' H]. exists hm'. exact H.
Qed.

Lemma rehash_spec hm new_size :
  table_ok hm -> min_size hm <= new_size -> 0 < new_size <= INT_MAX ->
  size hm < new_size ->
  exists hm',
    rehash hm new_size = Some (hm', []) /\
    table_ok hm' /\
    min_size hm' = min_size hm /\ alloc_size hm' = new_size /\
    key_size hm' = key_size hm /\ copy_keys hm' = copy_keys hm /\
    size hm' = size hm /\
    Permutation (contents hm') (contents hm).
Proof.
  intros Hok Hmin Hn Hsz. unfold rehash.
  destruct (Z.ltb_spec new_size (min_size hm)); [lia|].
  set (hm0 := mkhmap (calloc new_size) 0 (min_size hm) new_size (key_size hm) (copy_keys hm)).
  assert (E0 : entries hm0 = []) by apply filter_calloc.
  destruct (rehash_loop_spec (buckets hm) hm0 [])
    as [hm' [L [Hok' [M' [A' [K' [C' [S' P']]]]]]]].
  - apply fresh_table_ok. exact Hn.
  - pose proof (ok_good hm Hok) as G. rewrite Forall_forall in *.
    intros b Hb Fb. destruct (G b) as [o [Ko [Hh _]]].
    + apply filter_In. auto.
    + exists o. rewrite (hash_key_ext hm hm0) by reflexivity. auto.
  - rewrite E0. simpl. rewrite (map_span_ext hm hm0) by reflexivity.
    apply (ok_distinct hm Hok).
  - cbn [size alloc_size hm0]. pose proof (ok_size hm Hok). unfold entries in *. lia.
  - exists hm'. split; [exact L|]. split; [exact Hok'|].
    repeat (split; [assumption|]). split.
    + rewrite S'. cbn [size hm0]. pose proof (ok_size hm Hok). unfold entries in *. lia.
    + rewrite P'. unfold contents at 1. rewrite E0. reflexivity.
Qed.

(** ** hashmap_set *)

Lemma shiftr_1 x : Z.shiftr x 1 = x / 2.
Proof. rewrite Z.shiftr_div_pow2 by lia. reflexivity. Qed.

Lemma shiftr_2 x : Z.shiftr x 2 = x / 4.
Proof. rewrite Z.shiftr_div_pow2 by lia. reflexivity. Qed.

Lemma shiftl_1 x : Z.shiftl x 1 = 2 * x.
Proof. rewrite Z.shiftl_mul_pow2 by lia. lia. Qed.

Lemma WF_min_le_alloc hm : WF hm -> min_size hm <= alloc_size hm.
Proof.
  intros W. destruct (wf_cap hm W) as [e E]. pose proof (wf_min hm W) as M.
  unfold MIN_HASHMAP_SIZE in M. rewrite E.
  assert (0 < 2 ^ Z.of_nat e) by (apply Z.pow_pos_nonneg; lia). nia.
Qed.

Lemma WF_size_nonneg hm : table_ok hm -> 0 <= size hm.
Proof. intros W. rewrite (ok_size hm W). lia. Qed.

(** the growth check that opens [hashmap_set] *)
Lemma grow_spec hm :
  WF hm -> fits hm ->
  exists hm1,
    (if size hm >=? Z.shiftr (alloc_size hm) 1
     then rehash hm (to_size (Z.shiftl (alloc_size hm) 1))
     else Some (hm, [])) = Some (hm1, []) /\
    table_ok hm1 /\
    alloc_size hm1 = (if size hm >=? Z.shiftr (alloc_size hm) 1
                      then 2 * alloc_size hm else alloc_size hm) /\
    min_size hm1 = min_size hm /\ key_size hm1 = key_size hm /\
    copy_keys hm1 = copy_keys hm /\ size hm1 = size hm /\
    Permutation (contents hm1) (contents hm) /\
    size hm1 + 1 <= Z.shiftr (alloc_size hm1) 1.
Proof.
  intros W Hfit. unfold fits in Hfit. pose proof (wf_ok hm W) as Hok.
  pose proof (WF_min_le_alloc hm W) as Hmin. pose proof (wf_min hm W) as H8.
  pose proof (wf_load hm W) as Hload. pose proof (WF_size_nonneg hm Hok) as H0.
  unfold MIN_HASHMAP_SIZE in H8. rewrite shiftr_1 in *.
  destruct (Z.geb_spec (size hm) (alloc_size hm / 2)) as [G|G].
  - assert (Hfit' : 2 * alloc_size hm <= INT_MAX) by (apply Hfit; lia).
    clear Hfit. rename Hfit' into Hfit.
    rewrite shiftl_1. rewrite to_size_small by (unfold INT_MAX in Hfit; lia).
    destruct (rehash_spec hm (2 * alloc_size hm) Hok) as [hm1 [R [Hok1 [M [A [K [C [S P]]]]]]]];
      try lia.
    { assert (alloc_size hm / 2 <= alloc_size hm) by (apply Z.div_le_upper_bound; lia). lia. }
    exists hm1. repeat (split; [assumption|]).
    rewrite shiftr_1, A, S.
    replace (2 * alloc_size hm / 2) with (alloc_size hm)
      by (symmetry; rewrite Z.mul_comm; apply Z.div_mul; lia).
    assert (alloc_size hm / 2 <= alloc_size hm - 1)
      by (apply Z.div_le_upper_bound; lia).
    lia.
  - exists hm. split; [reflexivity|]. split; [exact Hok|].
    repeat (split; [reflexivity|]). rewrite shiftr_1. lia.
Qed.

Lemma set_key_span hm k fresh :
  key_span hm (if copy_keys hm then copy_key hm k fresh else k) = key_span hm k.
Proof. destruct (copy_keys hm); [apply copy_key_span|reflexivity]. Qed.

Lemma key_equals_span_r hm a b b' :
  key_span hm b = key_span hm b' -> key_equals hm a b = key_equals hm a b'.
Proof.
  intros E. destruct (key_equals hm a b') eqn:Q.
  - apply key_equals_span. apply key_equals_span in Q. congruence.
  - apply key_equals_false. apply key_equals_false in Q. congruence.
Qed.

Lemma set_spec hm k v fresh :
  WF hm -> fits hm ->
  exists hm' old fr,
    hashmap_set hm k v fresh = Some (hm', old, fr) /\
    WF hm' /\
    alloc_size hm' = (if size hm >=? Z.shiftr (alloc_size hm) 1
                      then 2 * alloc_size hm else alloc_size hm) /\
    min_size hm' = min_size hm /\ key_size hm' = key_size hm /\
    copy_keys hm' = copy_keys hm /\
    holds hm' k v /\
    (forall k' v', key_equals hm k' k = false -> (holds hm' k' v' <-> holds hm k' v')) /\
    (forall k', key_equals hm k' k = false -> (absent hm' k' <-> absent hm k')) /\
    ((absent hm k /\ old = 0 /\ size hm' = size hm + 1 /\ fr = []) \/
     (holds hm k old /\ size hm' = size hm)).
Proof.
  intros W Hfit.
  destruct (grow_spec hm W Hfit) as [hm1 [G [Hok1 [A1 [M1 [K1 [C1 [S1 [P1 L1]]]]]]]]].
  destruct (same_contents hm hm1 K1 P1) as [Hh Ha].
  set (k' := if copy_keys hm1 then copy_key hm1 k fresh else k).
  assert (Ek' : key_span hm1 k' = key_span hm1 k) by apply set_key_span.
  assert (Hroom : size hm1 < alloc_size hm1).
  { rewrite shiftr_1 in L1. pose proof (ok_pos hm1 Hok1).
    assert (alloc_size hm1 / 2 <= alloc_size hm1) by (apply Z.div_le_upper_bound; lia).
    lia. }
  destruct (set_lower_spec hm1 Hok1 Hroom k' v)
    as [r [br [hm2 [Er [E [Hok2 [M2 [A2 [K2 [C2 [S2 [St _]]]]]]]]]]]].
  destruct (set_lower_holds hm1 Hok1 Hroom k' v hm2 _ _ E) as [Hk [Hoth Habs]].
  exists hm2. eexists. eexists.
  split.
  { unfold hashmap_set. rewrite G. fold k'. rewrite E. rewrite app_nil_l. reflexivity. }
  assert (Ek2 : key_span hm2 k' = key_span hm2 k).
  { rewrite !(key_span_ext hm1 hm2) by exact K2. exact Ek'. }
  split.
  { constructor.
    - exact Hok2.
    - rewrite M2, M1. apply (wf_min hm W).
    - rewrite A2, A1, M2, M1. destruct (wf_cap hm W) as [e Ee].
      destruct (size hm >=? Z.shiftr (alloc_size hm) 1).
      + exists (S e). rewrite Nat2Z.inj_succ, Z.pow_succ_r by lia. lia.
      + exists e. exact Ee.
    - rewrite S2, A2. destruct (filled br); lia. }
  split; [congruence|]. split; [congruence|]. split; [congruence|]. split; [congruence|].
  split; [apply (holds_span hm2 k' k v Ek2 Hk)|].
  assert (Hne : forall k0, key_equals hm k0 k = false -> key_equals hm1 k0 k' = false).
  { intros k0 N. rewrite (key_equals_span_r hm1 k0 k' k Ek').
    rewrite (key_equals_ext hm hm1) by exact K1. exact N. }
  split; [|split].
  - intros k0 v0 N. rewrite (Hoth k0 v0 (Hne k0 N)). apply Hh.
  - intros k0 N. rewrite (Habs k0 (Hne k0 N)). apply Ha.
  - destruct St as [[F A]|[F [_ [o [Ko Q]]]]]; rewrite F in *; cbn [andb].
    + left. split; [|split; [reflexivity|split; [lia|reflexivity]]].
      apply Ha. apply (absent_span hm1 k' k Ek' A).
    + right. split; [|lia]. apply Hh. apply (holds_span hm1 k' k _ Ek').
      exists br, o. split; [eapply entries_In; eauto|]. auto.
Qed.

(** ** The loop of hashmap_remove *)

Lemma next_cases n c :
  0 <= c < n ->
  0 <= (c + 1) mod n < n /\
  ((c + 1 < n /\ (c + 1) mod n = c + 1) \/ (c + 1 = n /\ (c + 1) mod n = 0)).
Proof.
  intros H. split; [now apply next_range|]. rewrite next_eq by exact H.
  destruct (Z.eqb_spec (c + 1) n); lia.
Qed.

(** the test of the loop: the bucket at [c'] moves into the hole at [h]
    unless its desired index lies after the hole, up to [c'] *)
Lemma filter_iff n h c' d :
  0 <= h < n -> 0 <= c' < n -> 0 <= d < n -> h <> c' ->
  (if d <? c' then (h <? c') && (d <=? h)
   else if d >? c' then (h <? c') || (d <=? h)
   else false) = true <->
  ~ (0 < cyc n h d <= cyc n h c').
Proof.
  intros Hh Hc Hd N.
  rewrite (cyc_eq n h d), (cyc_eq n h c') by lia.
  destruct (Z.ltb_spec d c'), (Z.ltb_spec h c'), (Z.leb_spec d h),
           (Z.leb_spec h d), (Z.leb_spec h c'); cbn [andb orb];
    try (destruct (Z.gtb_spec d c')); split; intros; try discriminate; try reflexivity;
    try lia.
Qed.

Lemma store_store bs i x y : store_at (store_at bs i x) i y = store_at bs i y.
Proof.
  unfold store_at. generalize (Z.to_nat i) as m. induction bs as [|b bs IH]; intros m.
  - reflexivity.
  - destruct m; simpl; [reflexivity|]. now rewrite IH.
Qed.

Lemma bucket_at_vacate_ne bs h j : 0 <= h -> h <> j -> bucket_at (vacate bs h) j = bucket_at bs j.
Proof.
  intros Hh N. unfold vacate. destruct (bucket_at bs h); [|reflexivity].
  now apply bucket_at_store_ne.
Qed.

Lemma bucket_at_vacate_eq bs h b :
  bucket_at bs h = Some b -> bucket_at (vacate bs h) h = Some (clear_filled b).
Proof.
  intros E. unfold vacate. rewrite E. apply bucket_at_store_eq.
  eapply bucket_at_range; eauto.
Qed.

Lemma length_vacate bs h : length (vacate bs h) = length bs.
Proof. unfold vacate. destruct (bucket_at bs h); [apply length_store_at|reflexivity]. Qed.

(** moving the bucket at [c'] into the hole at [h] moves the hole to [c'] *)
Lemma vacate_shift bs h c' bh b :
  h <> c' -> bucket_at bs h = Some bh -> bucket_at bs c' = Some b -> filled b = true ->
  Permutation (filter filled (vacate (store_at bs h b) c')) (filter filled (vacate bs h)).
Proof.
  intros N Eh Ec F.
  pose proof (bucket_at_range _ _ _ Eh) as Rh. pose proof (bucket_at_range _ _ _ Ec) as Rc.
  assert (Ec' : bucket_at (store_at bs h b) c' = Some b).
  { rewrite bucket_at_store_ne by lia. exact Ec. }
  unfold vacate at 1. rewrite Ec'.
  destruct (entries_store (store_at bs h b) c' b (clear_filled b) Ec') as [rest2 [Q1 Q2]].
  rewrite F in Q1. cbn [filled clear_filled app] in Q1, Q2.
  pose proof (bucket_at_vacate_eq bs h bh Eh) as Ev.
  destruct (entries_store (vacate bs h) h (clear_filled bh) b Ev) as [rest1 [P1 P2]].
  rewrite F in P2. cbn [filled clear_filled app] in P1, P2.
  assert (E : store_at (vacate bs h) h b = store_at bs h b).
  { unfold vacate. rewrite Eh. apply store_store. }
  rewrite E in P2.
  rewrite Q2, P1. apply Permutation_cons_inv with (a := b).
  rewrite <- Q1. exact P2.
Qed.

Lemma remove_loop_unfold fuel hm h c :
  0 <= c < alloc_size hm -> alloc_size hm <= INT_MAX ->
  remove_loop (S fuel) hm h c =
  match bucket_at (buckets hm) ((c + 1) mod alloc_size hm) with
  | Some b =>
      if negb (filled b) then Some (hm, h)
      else if (if desired_idx b <? (c + 1) mod alloc_size hm
               then (h <? (c + 1) mod alloc_size hm) && (desired_idx b <=? h)
               else if desired_idx b >? (c + 1) mod alloc_size hm
                    then (h <? (c + 1) mod alloc_size hm) || (desired_idx b <=? h)
                    else false)
           then remove_loop fuel (set_buckets hm (store_at (buckets hm) h b))
                            ((c + 1) mod alloc_size hm) ((c + 1) mod alloc_size hm)
           else remove_loop fuel hm h ((c + 1) mod alloc_size hm)
  | None => None
  end.
Proof.
  intros Hc Hn. cbn [remove_loop]. rewrite next_index_eq by auto. reflexivity.
Qed.

Lemma shift_inv_distinct hm h c e : shift_inv hm h c e -> c <> e /\ h <> e.
Proof.
  intros I. destruct (si_vac hm h c e I) as [be [Ee Fe]].
  pose proof (si_h hm h c e I) as Hh. pose proof (si_c hm h c e I) as Hc.
  split; intros ->.
  - destruct (si_phys hm h e e I e Hc) as [bj [Ej Fj]]; [lia|]. congruence.
  - destruct (si_phys hm e c e I e Hh) as [bj [Ej Fj]]; [|congruence].
    rewrite cyc_self by lia. pose proof (cyc_range (alloc_size hm) e c Hh Hc). lia.
Qed.

(** the loop ends: the round that reads the vacant bucket ahead leaves it *)
Lemma remove_loop_spec fuel : forall hm h c e,
  shift_inv hm h c e ->
  cyc (alloc_size hm) c e <= Z.of_nat fuel ->
  exists hm' h',
    remove_loop fuel hm h c = Some (hm', h') /\
    size hm' = size hm /\ min_size hm' = min_size hm /\
    alloc_size hm' = alloc_size hm /\
    key_size hm' = key_size hm /\ copy_keys hm' = copy_keys hm /\
    length (buckets hm') = length (buckets hm) /\
    0 <= h' < alloc_size hm /\
    chain (set_buckets hm' (vacate (buckets hm') h')) /\
    Permutation (filter filled (vacate (buckets hm') h'))
                (filter filled (vacate (buckets hm) h)).
Proof.
  induction fuel as [|fuel IH]; intros hm h c e I Hf.
  - exfalso. destruct (shift_inv_distinct hm h c e I) as [Nce _].
    pose proof (si_c hm h c e I). pose proof (si_e hm h c e I).
    assert (cyc (alloc_size hm) c e <> 0) by (intros Z0; apply cyc_zero in Z0; auto).
    pose proof (cyc_range (alloc_size hm) c e). lia.
  - destruct (shift_inv_distinct hm h c e I) as [Nce Nhe].
    pose proof I as [Hn Hlen Hh Hc He [be [Ee Fe]] Hahead Hphys Hdes Hfix Hchain].
    set (n := alloc_size hm) in *.
    destruct (next_cases n c Hc) as [Rc' Cc'].
    rewrite remove_loop_unfold by (fold n; lia). fold n.
    set (c' := (c + 1) mod n) in *.
    destruct (bucket_at_some (buckets hm) c') as [b Eb]; [lia|]. rewrite Eb.
    destruct (Hphys h Hh) as [bh [Ebh Fbh]].
    { rewrite cyc_self by lia. pose proof (cyc_range n h c). lia. }
    assert (Hfuel : cyc n c' e = cyc n c e - 1).
    { unfold c'. apply cyc_next; auto. }
    destruct (filled b) eqn:Fb; cbn [negb].
    + (* the bucket at [c'] is filled *)
      pose proof (Hdes c' b Eb Fb) as Rd.
      assert (Nc'e : c' <> e) by (intros ->; congruence).
      assert (Nhc' : h <> c') by (clear IH Hphys Hdes Hfix Hchain; ring_cases).
      assert (Hstep : cyc n h c' = cyc n h c + 1)
        by (clear IH Hphys Hdes Hfix Hchain; ring_cases).
      match goal with |- context [if ?t then remove_loop _ _ _ _ else _] =>
        destruct t eqn:Flt end.
      * (* it moves into the hole *)
        apply (proj1 (filter_iff n h c' (desired_idx b) Hh Rc' Rd Nhc')) in Flt.
        assert (Hkeep : forall j bj, bucket_at (buckets hm) j = Some bj -> filled bj = true ->
                  exists bj', bucket_at (store_at (buckets hm) h b) j = Some bj' /\
                              filled bj' = true).
        { intros j bj Ej Fj. destruct (Z.eq_dec h j) as [<-|N].
          - exists b. rewrite bucket_at_store_eq by lia. auto.
          - exists bj. rewrite bucket_at_store_ne by lia. auto. }
        destruct (IH (set_buckets hm (store_at (buckets hm) h b)) c' c' e)
          as [hm' [h' [R [S' [M' [A' [K' [C' [L' [Rh' [Ch' P']]]]]]]]]]].
        { constructor; cbn [alloc_size buckets set_buckets]; fold n; try assumption.
          - rewrite length_store_at. exact Hlen.
          - exists be. rewrite bucket_at_store_ne by lia. auto.
          - rewrite cyc_self by lia.
            assert (cyc n c' e <> 0) by (intros Z0; apply cyc_zero in Z0; auto).
            pose proof (cyc_range n c' e). lia.
          - intros j Hj Hle. rewrite cyc_self in Hle by lia.
            assert (c' = j).
            { apply (cyc_zero n); auto. pose proof (cyc_range n c' j). lia. }
            subst j. exists b. rewrite bucket_at_store_ne by lia. auto.
          - intros j bj Ej Fj. destruct (Z.eq_dec h j) as [<-|N].
            + rewrite bucket_at_store_eq in Ej by lia. injection Ej as <-. exact Rd.
            + rewrite bucket_at_store_ne in Ej by lia. eapply Hdes; eauto.
          - intros j bj Ej Hj. rewrite cyc_self in Hj by lia. lia.
          - intros i bi j Ni Ei Fi Hj Pj. destruct (Z.eq_dec h i) as [<-|N].
            + rewrite bucket_at_store_eq in Ei by lia. injection Ei as <-.
              destruct (Hchain c' b j) as [bj [Ej Fj]]; auto.
              { clear IH Hphys Hdes Hfix Hchain Hkeep. ring_cases. }
              eapply Hkeep; eauto.
            + rewrite bucket_at_store_ne in Ei by lia.
              destruct (Hchain i bi j) as [bj [Ej Fj]]; auto.
              eapply Hkeep; eauto. }
        { cbn [alloc_size set_buckets]. fold n. lia. }
        exists hm', h'. cbn [size min_size alloc_size key_size copy_keys buckets set_buckets] in *.
        rewrite length_store_at in L'.
        split; [exact R|]. repeat (split; [assumption|]).
        rewrite P'. apply (vacate_shift (buckets hm) h c' bh b); auto.
      * (* it stays *)
        assert (Hin : 0 < cyc n h (desired_idx b) <= cyc n h c').
        { apply not_true_iff_false in Flt.
          rewrite (filter_iff n h c' (desired_idx b) Hh Rc' Rd Nhc') in Flt. lia. }
        destruct (IH hm h c' e) as [hm' [h' H']].
        { constructor; fold n; try assumption.
          - exists be. auto.
          - assert (cyc n h c' <> cyc n h e).
            { intros Q. apply Nc'e. apply (cyc_inj n h c' e Hh Rc' He Q). }
            lia.
          - intros j Hj Hle. destruct (Z.eq_dec j c') as [->|N]; [eauto|].
            apply Hphys; [exact Hj|].
            assert (cyc n h j <> cyc n h c').
            { intros Q. apply N. apply (cyc_inj n h j c' Hh Hj Rc' Q). }
            lia.
          - intros j bj Ej Hj. destruct (Z.eq_dec j c') as [->|N].
            + rewrite Eb in Ej. injection Ej as <-. exact Hin.
            + apply Hfix; [exact Ej|].
              pose proof (bucket_at_range _ _ _ Ej) as Rj. rewrite Hlen in Rj.
              assert (cyc n h j <> cyc n h c').
              { intros Q. apply N. apply (cyc_inj n h j c' Hh Rj Rc' Q). }
              lia. }
        { fold n. lia. }
        exists hm', h'. exact H'.
    + (* the bucket at [c'] is vacant: the loop is left *)
      exists hm, h. split; [reflexivity|]. repeat (split; [reflexivity|]).
      split; [exact Hh|]. split; [|reflexivity].
      intros i bi j Ei Fi Hj Pj. cbn [buckets alloc_size set_buckets] in *. fold n in Hj, Pj.
      assert (Ni : i <> h).
      { intros ->. rewrite (bucket_at_vacate_eq _ _ _ Ebh) in Ei.
        injection Ei as <-. discriminate. }
      rewrite bucket_at_vacate_ne in Ei by lia.
      pose proof (bucket_at_range _ _ _ Ei) as Ri. rewrite Hlen in Ri.
      pose proof (Hdes i bi Ei Fi) as Rd.
      destruct (Hchain i bi j Ni Ei Fi Hj Pj) as [bj [Ej Fj]].
      destruct (Z.eq_dec j h) as [->|Nj].
      * exfalso.
        assert (Hic : cyc n h i <= cyc n h c).
        { destruct (Z.le_gt_cases (cyc n h i) (cyc n h c)) as [L|G]; [exact L|exfalso].
          destruct (Z.eq_dec c' i) as [<-|Nc'i]; [congruence|].
          destruct (Hchain i bi c' Ni Ei Fi) as [bc [Ec Fc]]; [lia| |congruence].
          clear IH Hphys Hdes Hfix Hchain. ring_cases. }
        assert (0 < cyc n h i).
        { assert (cyc n h i <> 0) by (intros Z0; apply cyc_zero in Z0; auto).
          pose proof (cyc_range n h i). lia. }
        pose proof (Hfix i bi Ei (conj H Hic)) as Hd.
        clear IH Hphys Hdes Hfix Hchain. ring_cases.
      * exists bj. rewrite bucket_at_vacate_ne by lia. auto.
Qed.

(** ** hashmap_remove *)

(** the loop is entered with the invariant *)
Lemma shift_inv_init hm r br e be :
  table_ok hm ->
  bucket_at (buckets hm) r = Some br -> filled br = true ->
  bucket_at (buckets hm) e = Some be -> filled be = false ->
  shift_inv hm r r e.
Proof.
  intros Hok Er Fr Ee Fe.
  pose proof (ok_range hm Hok r br Er) as Rr. pose proof (ok_range hm Hok e be Ee) as Re.
  assert (r <> e) by (intros ->; congruence).
  constructor; try assumption.
  - split; [apply (ok_pos hm Hok)|apply (ok_int hm Hok)].
  - apply (ok_len hm Hok).
  - eauto.
  - rewrite cyc_self by lia.
    assert (cyc (alloc_size hm) r e <> 0) by (intros Z0; apply cyc_zero in Z0; auto).
    pose proof (cyc_range (alloc_size hm) r e). lia.
  - intros j Hj Hle. rewrite cyc_self in Hle by lia.
    assert (r = j).
    { apply (cyc_zero (alloc_size hm)); auto. pose proof (cyc_range (alloc_size hm) r j). lia. }
    subst j. eauto.
  - intros j bj Ej Fj. destruct (ok_keyed hm Hok j bj Ej Fj) as [o [_ [_ D]]].
    rewrite D. apply home_range. apply (ok_pos hm Hok).
  - intros j bj Ej Hj. rewrite cyc_self in Hj by lia. lia.
  - intros i b j _. apply (ok_chain hm Hok).
Qed.

(** the table once the loop is left and the hole is cleared, before the
    shrink check *)
Lemma remove_core hm r br :
  table_ok hm -> size hm < alloc_size hm ->
  bucket_at (buckets hm) r = Some br -> filled br = true ->
  exists hm1 last lb,
    remove_loop (Z.to_nat (alloc_size hm)) hm r r = Some (hm1, last) /\
    bucket_at (buckets hm1) last = Some lb /\
    let hm3 := set_size (set_buckets hm1 (store_at (buckets hm1) last
                 (mkbucket false (desired_idx lb) (hash lb) (key lb) (value lb))))
                 (to_size (size hm1 - 1)) in
    table_ok hm3 /\
    size hm3 = size hm - 1 /\ min_size hm3 = min_size hm /\
    alloc_size hm3 = alloc_size hm /\ key_size hm3 = key_size hm /\
    copy_keys hm3 = copy_keys hm /\
    Permutation (br :: entries hm3) (entries hm).
Proof.
  intros Hok Hroom Er Fr.
  destruct (ok_vacant hm Hok Hroom) as [e [be [Ee Fe]]].
  pose proof (shift_inv_init hm r br e be Hok Er Fr Ee Fe) as I.
  pose proof (ok_range hm Hok r br Er) as Rr. pose proof (ok_range hm Hok e be Ee) as Re.
  destruct (remove_loop_spec (Z.to_nat (alloc_size hm)) hm r r e I)
    as [hm1 [last [R [S1 [M1 [A1 [K1 [C1 [L1 [Rl [Ch P]]]]]]]]]]].
  { pose proof (cyc_range (alloc_size hm) r e Rr Re). lia. }
  destruct (bucket_at_some (buckets hm1) last) as [lb El].
  { rewrite L1, (ok_len hm Hok). exact Rl. }
  exists hm1, last, lb. split; [exact R|]. split; [exact El|].
  change (mkbucket false (desired_idx lb) (hash lb) (key lb) (value lb))
    with (clear_filled lb).
  assert (Ev : store_at (buckets hm1) last (clear_filled lb) = vacate (buckets hm1) last).
  { unfold vacate. now rewrite El. }
  rewrite Ev. cbv zeta.
  set (hm3 := set_size (set_buckets hm1 (vacate (buckets hm1) last)) (to_size (size hm1 - 1))).
  destruct (entries_store (buckets hm) r br (clear_filled br) Er) as [rest [P1 P2]].
  rewrite Fr in P1. cbn [filled clear_filled app] in P1, P2.
  assert (P3 : Permutation (entries hm3) rest).
  { unfold entries, hm3. cbn [buckets set_size set_buckets]. rewrite P.
    unfold vacate. rewrite Er. exact P2. }
  assert (P4 : Permutation (br :: entries hm3) (entries hm)).
  { unfold entries at 2. rewrite P1. now apply Permutation_cons. }
  assert (Hs : size hm3 = size hm - 1).
  { unfold hm3. cbn [size set_size]. rewrite S1. apply to_size_small.
    pose proof (ok_size hm Hok) as S. rewrite <- (Permutation_length P4) in S.
    cbn [length] in S. pose proof (ok_int hm Hok). unfold INT_MAX in *. lia. }
  split; [|split; [exact Hs|repeat (split; [assumption|]); exact P4]].
  constructor.
  - change (alloc_size hm3) with (alloc_size hm1). rewrite A1. apply (ok_pos hm Hok).
  - change (alloc_size hm3) with (alloc_size hm1). rewrite A1. apply (ok_int hm Hok).
  - change (alloc_size hm3) with (alloc_size hm1). unfold hm3.
    cbn [buckets set_size set_buckets]. rewrite length_vacate, L1, A1. apply (ok_len hm Hok).
  - rewrite Hs. pose proof (ok_size hm Hok) as S.
    rewrite <- (Permutation_length P4) in S. cbn [length] in S. lia.
  - pose proof (ok_good hm Hok) as G. rewrite Forall_forall in *. intros b Hb.
    apply (good_bucket_ext hm hm3); [exact K1|exact A1|].
    apply G. apply (Permutation_in _ P4). now right.
  - rewrite (map_span_ext hm hm3) by exact K1.
    pose proof (ok_distinct hm Hok) as ND.
    apply (Permutation_NoDup (Permutation_sym (Permutation_map (span_of hm) P4))) in ND.
    cbn [map] in ND. now inversion ND.
  - exact Ch.
Qed.

(** the shrink check that closes [hashmap_remove] *)
Lemma shrink_spec hm :
  table_ok hm -> MIN_HASHMAP_SIZE <= min_size hm ->
  (exists e : nat, alloc_size hm = min_size hm * 2 ^ Z.of_nat e) ->
  size hm <= Z.shiftr (alloc_size hm) 1 ->
  exists hm',
    (if size hm <? Z.shiftr (alloc_size hm) 2
     then rehash hm (Z.shiftr (alloc_size hm) 1)
     else Some (hm, [])) = Some (hm', []) /\
    WF hm' /\
    alloc_size hm' = (if (size hm <? Z.shiftr (alloc_size hm) 2) &&
                         (min_size hm <=? Z.shiftr (alloc_size hm) 1)
                      then Z.shiftr (alloc_size hm) 1 else alloc_size hm) /\
    min_size hm' = min_size hm /\ key_size hm' = key_size hm /\
    copy_keys hm' = copy_keys hm /\ size hm' = size hm /\
    Permutation (contents hm') (contents hm).
Proof.
  intros Hok H8 [e Ee] Hload. unfold MIN_HASHMAP_SIZE in H8.
  pose proof (WF_size_nonneg hm Hok) as H0. pose proof (ok_int hm Hok) as Hint.
  assert (Hsame : WF hm) by (constructor; eauto).
  rewrite shiftr_1, shiftr_2 in *.
  destruct (Z.ltb_spec (size hm) (alloc_size hm / 4)) as [Q|Q]; cbn [andb].
  - destruct (Z.leb_spec (min_size hm) (alloc_size hm / 2)) as [M|M].
    + assert (He : exists e', e = S e').
      { destruct e as [|e']; [|eauto]. exfalso.
        rewrite Z.pow_0_r, Z.mul_1_r in Ee. rewrite Ee in M.
        assert (min_size hm / 2 < min_size hm) by (apply Z.div_lt_upper_bound; lia). lia. }
      destruct He as [e' ->].
      assert (Hhalf : alloc_size hm / 2 = min_size hm * 2 ^ Z.of_nat e').
      { rewrite Ee, Nat2Z.inj_succ, Z.pow_succ_r by lia.
        replace (min_size hm * (2 * 2 ^ Z.of_nat e')) with (min_size hm * 2 ^ Z.of_nat e' * 2) by lia.
        apply Z.div_mul. lia. }
      assert (Hq : alloc_size hm / 4 <= alloc_size hm / 2).
      { apply Z.div_le_compat_l; lia. }
      assert (Hh : alloc_size hm / 2 <= alloc_size hm).
      { apply Z.div_le_upper_bound; lia. }
      destruct (rehash_spec hm (alloc_size hm / 2) Hok) as [hm' [R [Hok' [M' [A' [K' [C' [S' P']]]]]]]];
        try lia.
      exists hm'. split; [exact R|]. split.
      { constructor.
        - exact Hok'.
        - unfold MIN_HASHMAP_SIZE. lia.
        - exists e'. rewrite A', M'. exact Hhalf.
        - rewrite shiftr_1, A', S'.
          replace (alloc_size hm / 2 / 2) with (alloc_size hm / 4)
            by (rewrite Z.div_div by lia; reflexivity).
          lia. }
      repeat (split; [assumption|]). exact P'.
    + exists hm. unfold rehash. destruct (Z.ltb_spec (alloc_size hm / 2) (min_size hm)); [|lia].
      split; [reflexivity|]. split; [exact Hsame|]. repeat (split; [reflexivity|]). reflexivity.
  - exists hm. split; [reflexivity|]. split; [exact Hsame|].
    repeat (split; [reflexivity|]). reflexivity.
Qed.

Lemma WF_room hm : WF hm -> size hm < alloc_size hm.
Proof.
  intros W. pose proof (wf_load hm W) as L. rewrite shiftr_1 in L.
  pose proof (WF_min_le_alloc hm W). pose proof (wf_min hm W) as M.
  unfold MIN_HASHMAP_SIZE in M.
  assert (alloc_size hm / 2 < alloc_size hm) by (apply Z.div_lt_upper_bound; lia). lia.
Qed.

Lemma remove_spec hm k :
  WF hm ->
  exists hm' v fr,
    hashmap_remove hm k = Some (hm', v, fr) /\
    WF hm' /\
    min_size hm' = min_size hm /\ key_size hm' = key_size hm /\
    copy_keys hm' = copy_keys hm /\
    (forall k' v', key_equals hm k' k = false -> (holds hm' k' v' <-> holds hm k' v')) /\
    (forall k', key_equals hm k' k = false -> (absent hm' k' <-> absent hm k')) /\
    ((absent hm k /\ hm' = hm /\ v = 0 /\ fr = []) \/
     (holds hm k v /\ absent hm' k /\ size hm' = size hm - 1 /\
      alloc_size hm' =
        (if (size hm - 1 <? Z.shiftr (alloc_size hm) 2) &&
            (min_size hm <=? Z.shiftr (alloc_size hm) 1)
         then Z.shiftr (alloc_size hm) 1 else alloc_size hm))).
Proof.
  intros W. pose proof (wf_ok hm W) as Hok. pose proof (WF_room hm W) as Hroom.
  destruct (lookup_spec hm Hok Hroom k) as [r [br [G [Er [St _]]]]].
  unfold hashmap_remove. rewrite G, Er.
  destruct St as [[F A]|[F [_ [o [Ko Q]]]]]; rewrite F.
  - exists hm, 0, []. split; [reflexivity|]. split; [exact W|].
    split; [reflexivity|]. split; [reflexivity|]. split; [reflexivity|].
    split; [intros; reflexivity|]. split; [intros; reflexivity|]. left. auto.
  - destruct (remove_core hm r br Hok Hroom Er F)
      as [hm1 [last [lb [R [El [Hok3 [S3 [M3 [A3 [K3 [C3 P3]]]]]]]]]]].
    rewrite R, El. cbv zeta in *.
    set (hm3 := set_size (set_buckets hm1 (store_at (buckets hm1) last
                 (mkbucket false (desired_idx lb) (hash lb) (key lb) (value lb))))
                 (to_size (size hm1 - 1))) in *.
    repeat match goal with |- context [set_size ?a ?b] =>
      change (set_size a b) with hm3 end.
    destruct (shrink_spec hm3 Hok3) as [hm4 [Sh [W4 [A4 [M4 [K4 [C4 [S4 P4]]]]]]]].
    { rewrite M3. apply (wf_min hm W). }
    { rewrite A3, M3. apply (wf_cap hm W). }
    { rewrite A3, S3. pose proof (wf_load hm W). lia. }
    assert (Hres : (if size hm3 <? Z.shiftr (alloc_size hm3) 2
                    then '(hm4, fr') <- rehash hm3 (Z.shiftr (alloc_size hm3) 1) ;;
                         Some (hm4, value br,
                               (if copy_keys hm then free_key (key br) else []) ++ fr')
                    else Some (hm3, value br,
                               if copy_keys hm then free_key (key br) else []))
                   = Some (hm4, value br, if copy_keys hm then free_key (key br) else [])).
    { destruct (size hm3 <? Z.shiftr (alloc_size hm3) 2).
      - rewrite Sh. now rewrite app_nil_r.
      - now injection Sh as <-. }
    rewrite Hres. exists hm4, (value br), (if copy_keys hm then free_key (key br) else []).
    split; [reflexivity|]. split; [exact W4|].
    split; [congruence|]. split; [congruence|]. split; [congruence|].
    (* what the table stores: the pairs of before, without the removed one *)
    assert (K43 : key_size hm4 = key_size hm3) by exact K4.
    destruct (same_contents hm3 hm4 K43 P4) as [Hh Ha].
    assert (Hin : forall b, In b (entries hm) <-> b = br \/ In b (entries hm3)).
    { intros b. split; intros H.
      - apply (Permutation_in _ (Permutation_sym P3)) in H. destruct H; auto.
      - apply (Permutation_in _ P3). destruct H; [left|right]; auto. }
    assert (Hbr : forall k', key_equals hm k' k = false -> key_equals hm k' o = false).
    { intros k' N. apply key_equals_false. apply key_equals_false in N.
      apply key_equals_span in Q. congruence. }
    assert (H3 : forall k' v', key_equals hm k' k = false ->
                               (holds hm3 k' v' <-> holds hm k' v')).
    { intros k' v' N. split; intros [b [o' [Hb [Ko' [Q' V]]]]].
      - exists b, o'. rewrite <- (key_equals_ext hm hm3) by exact K3.
        repeat split; auto. apply Hin. now right.
      - apply Hin in Hb. destruct Hb as [->|Hb].
        + rewrite Ko in Ko'. injection Ko' as <-. rewrite (Hbr k' N) in Q'. discriminate.
        + exists b, o'. rewrite (key_equals_ext hm hm3) by exact K3. auto. }
    assert (A3' : forall k', key_equals hm k' k = false -> (absent hm3 k' <-> absent hm k')).
    { intros k' N. split; intros A b o' Hb Ko'.
      - apply Hin in Hb. destruct Hb as [->|Hb].
        + rewrite Ko in Ko'. injection Ko' as <-. now apply Hbr.
        + rewrite <- (key_equals_ext hm hm3) by exact K3. now apply (A b o').
      - rewrite (key_equals_ext hm hm3) by exact K3. apply (A b o'); [|exact Ko'].
        apply Hin. now right. }
    split; [intros k' v' N; rewrite Hh; now apply H3|].
    split; [intros k' N; rewrite Ha; now apply A3'|].
    right. split; [|split; [|split]].
    + exists br, o. split; [eapply entries_In; eauto|]. auto.
    + apply Ha. intros b o' Hb Ko'.
      rewrite (key_equals_ext hm hm3) by exact K3.
      destruct (key_equals hm k o') eqn:Q'; [exfalso|reflexivity].
      pose proof (ok_distinct hm Hok) as ND.
      apply (Permutation_NoDup (Permutation_sym (Permutation_map (span_of hm) P3))) in ND.
      cbn [map] in ND. inversion ND as [|? ? Hnot _]; subst. apply Hnot.
      apply in_map_iff. exists b. split; [|exact Hb].
      unfold span_of. rewrite Ko, Ko'.
      apply key_equals_span in Q. apply key_equals_span in Q'. congruence.
    + congruence.
    + rewrite A4, S3, A3, M3. reflexivity.
Qed.

(** ** The states a table goes through *)

Lemma MAX_spec a b : MAX a b = Z.max a b.
Proof. unfold MAX. destruct (Z.gtb_spec a b); lia. Qed.

Lemma create_WF initial_size ks ck :
  MAX initial_size MIN_HASHMAP_SIZE <= INT_MAX ->
  WF (hashmap_create initial_size ks ck).
Proof.
  intros H. rewrite MAX_spec in H. unfold MIN_HASHMAP_SIZE in H.
  unfold hashmap_create. rewrite MAX_spec. unfold MIN_HASHMAP_SIZE.
  constructor; cbn [alloc_size min_size size].
  - apply fresh_table_ok. lia.
  - unfold MIN_HASHMAP_SIZE. lia.
  - exists O. simpl. lia.
  - rewrite shiftr_1. apply Z.div_pos; lia.
Qed.

Lemma reachable_WF initial_size ks ck hm :
  reachable initial_size ks ck hm ->
  WF hm /\ min_size hm = MAX initial_size MIN_HASHMAP_SIZE /\
  key_size hm = ks /\ copy_keys hm = ck.
Proof.
  induction 1 as [H0 Hmax|hm k v fresh hm' old fr R IH F E|hm k hm' v fr R IH E].
  - split; [now apply create_WF|]. repeat split.
  - destruct IH as [W [M [K C]]].
    destruct (set_spec hm k v fresh W F) as [hm1 [old1 [fr1 [E1 [W1 [_ [M1 [K1 [C1 _]]]]]]]]].
    rewrite E in E1. injection E1 as -> -> ->.
    split; [exact W1|]. repeat split; congruence.
  - destruct IH as [W [M [K C]]].
    destruct (remove_spec hm k W) as [hm1 [v1 [fr1 [E1 [W1 [M1 [K1 [C1 _]]]]]]]].
    rewrite E in E1. injection E1 as -> -> ->.
    split; [exact W1|]. repeat split; congruence.
Qed.

(** ** The chain, as a walk *)

Lemma reaches_run hm i fuel : forall s,
  Z.of_nat (length (buckets hm)) = alloc_size hm ->
  0 <= s < alloc_size hm -> 0 <= i < alloc_size hm ->
  cyc (alloc_size hm) s i < Z.of_nat fuel ->
  (forall j, 0 <= j < alloc_size hm -> on_path (alloc_size hm) s i j ->
             exists bj, bucket_at (buckets hm) j = Some bj /\ filled bj = true) ->
  reaches fuel hm s i = true.
Proof.
  induction fuel as [|fuel IH]; intros s Hlen Hs Hi Hf Hpath.
  - pose proof (cyc_range (alloc_size hm) s i Hs Hi). lia.
  - cbn [reaches]. destruct (Z.eqb_spec s i) as [->|N]; [reflexivity|].
    assert (Hpos : 0 < cyc (alloc_size hm) s i).
    { assert (cyc (alloc_size hm) s i <> 0) by (intros Z0; apply cyc_zero in Z0; auto).
      pose proof (cyc_range (alloc_size hm) s i Hs Hi). lia. }
    destruct (Hpath s Hs) as [bs [Es Fs]].
    { unfold on_path. rewrite cyc_self by lia. exact Hpos. }
    rewrite Es, Fs. cbn [andb].
    pose proof (next_range (alloc_size hm) s Hs) as Hn.
    apply IH; auto.
    + rewrite cyc_next by auto. lia.
    + intros j Hj Pj. apply Hpath; [exact Hj|].
      unfold on_path in *.
      destruct (Z.eq_dec s j) as [<-|Nj].
      * rewrite cyc_self by lia. exact Hpos.
      * rewrite (cyc_next (alloc_size hm) s i), (cyc_next (alloc_size hm) s j) in Pj by auto.
        lia.
Qed.

Lemma chain_probe_chain hm : table_ok hm -> probe_chain hm.
Proof.
  intros Hok i b Ei Fi.
  pose proof (ok_range hm Hok i b Ei) as Ri.
  destruct (ok_keyed hm Hok i b Ei Fi) as [o [_ [_ D]]].
  assert (Rd : 0 <= desired_idx b < alloc_size hm).
  { rewrite D. apply home_range. apply (ok_pos hm Hok). }
  apply reaches_run; auto.
  - apply (ok_len hm Hok).
  - pose proof (cyc_range (alloc_size hm) _ i Rd Ri). lia.
  - intros j Hj Pj. apply (ok_chain hm Hok i b j Ei Fi Hj Pj).
Qed.

(** ** Iterators *)

Lemma skipn_nth_error (bs : list hashbucket_t) i b :
  nth_error bs i = Some b -> skipn i bs = b :: skipn (S i) bs.
Proof.
  revert i. induction bs as [|x bs IH]; intros i E.
  - destruct i; discriminate.
  - destruct i; simpl in *; [congruence|]. now apply IH.
Qed.

Section Iterate.
Variable hm : hashmap_t.
Hypothesis Hlen : Z.of_nat (length (buckets hm)) = alloc_size hm.
Hypothesis Hint : alloc_size hm <= INT_MAX.

Lemma next_loop_spec fuel : forall idx,
  -1 <= idx < alloc_size hm ->
  alloc_size hm - idx <= Z.of_nat fuel ->
  (filled_after hm idx = [] /\ next_loop fuel hm idx = Some (-1, false, None, 0)) \/
  (exists idx' b,
     idx < idx' < alloc_size hm /\
     bucket_at (buckets hm) idx' = Some b /\ filled b = true /\
     filled_after hm idx = b :: filled_after hm idx' /\
     next_loop fuel hm idx = Some (idx', true, key b, value b)).
Proof.
  induction fuel as [|fuel IH]; intros idx Hidx Hf; [lia|].
  cbn [next_loop]. unfold INT_MAX in Hint.
  rewrite to_int_small by (unfold INT_MAX; lia).
  rewrite to_size_small by lia.
  destruct (Z.geb_spec (idx + 1) (alloc_size hm)) as [G|G].
  - left. split; [|reflexivity]. unfold filled_after.
    rewrite skipn_all2 by lia. reflexivity.
  - destruct (bucket_at_some (buckets hm) (idx + 1)) as [b Eb]; [lia|].
    rewrite Eb.
    assert (Es : skipn (Z.to_nat (idx + 1)) (buckets hm) =
                 b :: skipn (Z.to_nat (idx + 1 + 1)) (buckets hm)).
    { replace (Z.to_nat (idx + 1 + 1)) with (S (Z.to_nat (idx + 1))) by lia.
      apply skipn_nth_error. unfold bucket_at in Eb.
      destruct (Z.ltb_spec (idx + 1) 0); [lia|exact Eb]. }
    destruct (filled b) eqn:F; cbn [negb].
    + right. exists (idx + 1), b. split; [lia|]. split; [exact Eb|]. split; [exact F|].
      split; [|reflexivity]. unfold filled_after. rewrite Es. cbn [filter]. now rewrite F.
    + destruct (IH (idx + 1)) as [[A N]|[idx' [b' [R [Eb' [F' [A N]]]]]]]; try lia.
      * left. split; [|exact N]. unfold filled_after in *. rewrite Es. cbn [filter].
        now rewrite F.
      * right. exists idx', b'. split; [lia|]. repeat (split; [assumption|]).
        split; [|exact N]. unfold filled_after in *. rewrite Es. cbn [filter]. now rewrite F.
Qed.

Lemma hmapiter_next_spec idx :
  -1 <= idx < alloc_size hm ->
  (filled_after hm idx = [] /\ hmapiter_next hm idx = Some (-1, false, None, 0)) \/
  (exists idx' b,
     idx < idx' < alloc_size hm /\
     bucket_at (buckets hm) idx' = Some b /\ filled b = true /\
     filled_after hm idx = b :: filled_after hm idx' /\
     hmapiter_next hm idx = Some (idx', true, key b, value b)).
Proof. intros H. apply next_loop_spec; [exact H|lia]. Qed.

Lemma drain_spec fuel : forall idx,
  -1 <= idx < alloc_size hm ->
  (length (filled_after hm idx) < fuel)%nat ->
  drain fuel hm idx = Some (map entry_kv (filled_after hm idx), (-1, false, None, 0)).
Proof.
  induction fuel as [|fuel IH]; intros idx Hidx Hf; [lia|].
  cbn [drain].
  destruct (hmapiter_next_spec idx Hidx) as [[A N]|[idx' [b [R [Eb [F [A N]]]]]]].
  - rewrite N, A. reflexivity.
  - rewrite N, A. rewrite A in Hf. cbn [length] in Hf.
    rewrite IH by lia. reflexivity.
Qed.

Lemma iterate_spec idx :
  iterate hm idx = Some (contents hm, (-1, false, None, 0)).
Proof.
  unfold iterate, hmapiter_reset.
  assert (E : contents hm = map entry_kv (filled_after hm (-1))) by reflexivity.
  rewrite E. apply drain_spec.
  - lia.
  - change (filled_after hm (-1)) with (filter filled (buckets hm)).
    pose proof (filter_length_le filled (buckets hm)). lia.
Qed.
End Iterate.

Lemma NoDup_contents hm : NoDup (map (span_of hm) (entries hm)) -> NoDup (contents hm).
Proof.
  unfold contents. induction (entries hm) as [|b l IH]; intros ND; [constructor|].
  cbn [map] in *. inversion ND as [|? ? Hnot ND']; subst.
  constructor; [|now apply IH].
  intros Hin. apply Hnot. apply in_map_iff in Hin. destruct Hin as [b' [E Hb']].
  apply in_map_iff. exists b'. split; [|exact Hb'].
  unfold entry_kv in E. injection E as Ek _. unfold span_of. now rewrite Ek.
Qed.

(** ** Sample tables *)

Lemma table_empty_reachable : reachable 8 (-1) true table_empty.
Proof. apply reach_create; unfold MAX, MIN_HASHMAP_SIZE, INT_MAX; simpl; lia. Qed.

Lemma table_a_reachable : reachable 8 (-1) true table_a.
Proof.
  apply (reach_set 8 (-1) true table_empty key_a 7 100 table_a 0 []).
  - apply table_empty_reachable.
  - unfold fits. vm_compute. intros _. discriminate.
  - vm_compute. reflexivity.
Qed.

Lemma table_abc_reachable : reachable 8 (-1) true table_abc.
Proof.
  apply (reach_set 8 (-1) true (after_set table_a key_b 8 101) key_c 9 102 table_abc 0 []).
  - apply (reach_set 8 (-1) true table_a key_b 8 101 (after_set table_a key_b 8 101) 0 []).
    + apply table_a_reachable.
    + unfold fits. vm_compute. intros _. discriminate.
    + vm_compute. reflexivity.
  - unfold fits. vm_compute. intros _. discriminate.
  - vm_compute. reflexivity.
Qed.

Lemma table_a_removed_reachable : reachable 8 (-1) true table_a_removed.
Proof.
  apply (reach_remove 8 (-1) true table_a key_a table_a_removed 7 [100]).
  - apply table_a_reachable.
  - vm_compute. reflexivity.
Qed.

Lemma table_empty_WF : WF table_empty.
Proof. apply (reachable_WF 8 (-1) true). apply table_empty_reachable. Qed.

Lemma table_a_WF : WF table_a.
Proof. apply (reachable_WF 8 (-1) true). apply table_a_reachable. Qed.

Lemma table_abc_WF : WF table_abc.
Proof. apply (reachable_WF 8 (-1) true). apply table_abc_reachable. Qed.

Lemma table_abcd_reachable : reachable 8 (-1) true table_abcd.
Proof.
  apply (reach_set 8 (-1) true table_abc key_d 10 103 table_abcd 0 []).
  - apply table_abc_reachable.
  - unfold fits. vm_compute. intros _. discriminate.
  - vm_compute. reflexivity.
Qed.

Lemma table_abcd_wide_reachable : reachable 8 (-1) true table_abcd_wide.
Proof.
  apply (reach_remove 8 (-1) true table_abcde key_e table_abcd_wide 11 [104]).
  - apply (reach_set 8 (-1) true table_abcd key_e 11 104 table_abcde 0 []).
    + apply table_abcd_reachable.
    + unfold fits. vm_compute. intros _. discriminate.
    + vm_compute. reflexivity.
  - vm_compute. reflexivity.
Qed.

Lemma table_abcd_WF : WF table_abcd.
Proof. apply (reachable_WF 8 (-1) true). apply table_abcd_reachable. Qed.

Lemma table_abcd_wide_WF : WF table_abcd_wide.
Proof. apply (reachable_WF 8 (-1) true). apply table_abcd_wide_reachable. Qed.

Lemma table_abcd_fits : fits table_abcd.
Proof. unfold fits. vm_compute. intros _. discriminate. Qed.

Lemma table_empty_fits : fits table_empty.
Proof. unfold fits. vm_compute. intros _. discriminate. Qed.

Lemma table_abc_fits : fits table_abc.
Proof. unfold fits. vm_compute. intros _. discriminate. Qed.

(** * The claims *)

(** Every table built by [hashmap_create], [hashmap_set] and [hashmap_remove]
    satisfies [WF] ([reachable_WF]); the theorems are stated for [WF] tables.
    A [hashmap_set] is asked to fit ([fits]): the doubling it may trigger
    must keep the indexes of the new array within [int]. *)

(** C1: on every table, [hashmap_set] of [k] and [v] returns, and on the table
    it leaves [hashmap_get] of [k] returns [v] and [hashmap_may_get] of [k]
    returns true and writes [v], whatever [v] is, the null handle [0]
    included. *)
Theorem C1_set_then_get (hm : hashmap_t) (k : block) (v fresh : Z) :
  WF hm -> fits hm ->
  exists hm' old fr,
    hashmap_set hm k v fresh = Some (hm', old, fr) /\
    hashmap_get hm' k = Some v /\
    hashmap_may_get hm' k = Some (true, Some v).
Proof.
  intros W F.
  destruct (set_spec hm k v fresh W F) as [hm' [old [fr [E [W' [_ [_ [_ [_ [H _]]]]]]]]]].
  exists hm', old, fr. split; [exact E|].
  destruct (get_holds hm' (wf_ok hm' W') (WF_room hm' W') k v H) as [G [M _]].
  auto.
Qed.

(** the null handle stored under the key "a" of an empty table *)
Lemma C1_set_then_get_witness :
  WF table_empty /\ fits table_empty /\
  exists hm' old fr,
    hashmap_set table_empty key_a 0 100 = Some (hm', old, fr) /\
    hashmap_get hm' key_a = Some 0 /\
    hashmap_may_get hm' key_a = Some (true, Some 0).
Proof.
  split; [exact table_empty_WF|]. split; [exact table_empty_fits|].
  apply (C1_set_then_get table_empty key_a 0 100).
  - exact table_empty_WF.
  - exact table_empty_fits.
Defined.

(** C7: [hashmap_set] of a key that is absent returns null and adds one to
    the count; of a key present with value [v1] it returns [v1], leaves the
    count as it is, and [hashmap_get] of the key then returns the new value. *)
Theorem C7_set_result (hm : hashmap_t) (k : block) (v fresh : Z) :
  WF hm -> fits hm ->
  exists hm' old fr,
    hashmap_set hm k v fresh = Some (hm', old, fr) /\
    (hashmap_has hm k = Some false ->
       old = 0 /\ hashmap_size hm' = hashmap_size hm + 1) /\
    (forall v1, hashmap_may_get hm k = Some (true, Some v1) ->
       old = v1 /\ hashmap_size hm' = hashmap_size hm /\ hashmap_get hm' k = Some v).
Proof.
  intros W F. pose proof (wf_ok hm W) as Hok. pose proof (WF_room hm W) as Hroom.
  destruct (set_spec hm k v fresh W F)
    as [hm' [old [fr [E [W' [_ [_ [_ [_ [H [_ [_ D]]]]]]]]]]]].
  exists hm', old, fr. split; [exact E|]. unfold hashmap_size. split.
  - intros A. apply (has_absent hm Hok Hroom) in A.
    destruct D as [[_ [O [S _]]]|[Hv _]]; [auto|].
    exfalso. eapply holds_not_absent; eauto.
  - intros v1 M. apply (may_get_holds hm Hok Hroom) in M.
    destruct D as [[A _]|[Hv S]].
    + exfalso. eapply holds_not_absent; eauto.
    + split; [eapply holds_fun; eauto|]. split; [exact S|].
      apply (get_holds hm' (wf_ok hm' W') (WF_room hm' W') k v H).
Qed.

(** the key "a", present with value 7, is given the value 8 *)
Lemma C7_set_result_witness :
  WF table_a /\ fits table_a /\
  exists hm' old fr,
    hashmap_set table_a key_a 8 103 = Some (hm', old, fr) /\
    (hashmap_has table_a key_a = Some false ->
       old = 0 /\ hashmap_size hm' = hashmap_size table_a + 1) /\
    (forall v1, hashmap_may_get table_a key_a = Some (true, Some v1) ->
       old = v1 /\ hashmap_size hm' = hashmap_size table_a /\
       hashmap_get hm' key_a = Some 8).
Proof.
  assert (F : fits table_a) by (unfold fits; vm_compute; intros _; discriminate).
  split; [exact table_a_WF|]. split; [exact F|].
  apply (C7_set_result table_a key_a 8 103).
  - exact table_a_WF.
  - exact F.
Defined.

(** C8: [hashmap_remove] of a key that no filled bucket holds returns null
    and leaves the table as it was: buckets, count and capacity. The lookup
    reports the absence ([hashmap_has] returns false); nothing fails. *)
Theorem C8_remove_absent (hm : hashmap_t) (k : block) :
  WF hm -> absent hm k ->
  hashmap_has hm k = Some false /\
  hashmap_remove hm k = Some (hm, 0, []).
Proof.
  intros W A. pose proof (wf_ok hm W) as Hok. pose proof (WF_room hm W) as Hroom.
  destruct (absent_lookup hm Hok Hroom k A) as [r [br [G [Er F]]]].
  unfold hashmap_has, hashmap_remove. rewrite G, Er, F. auto.
Qed.

(** the key "b" is not in the table that holds "a" *)
Lemma C8_remove_absent_witness :
  WF table_a /\ absent table_a key_b /\
  hashmap_has table_a key_b = Some false /\
  hashmap_remove table_a key_b = Some (table_a, 0, []).
Proof.
  assert (A : absent table_a key_b).
  { apply (has_absent table_a (wf_ok _ table_a_WF) (WF_room _ table_a_WF)).
    vm_compute. reflexivity. }
  split; [exact table_a_WF|]. split; [exact A|].
  apply (C8_remove_absent table_a key_b).
  - exact table_a_WF.
  - exact A.
Defined.

Lemma lookup_kept hm hm' k' v' :
  WF hm -> WF hm' ->
  (holds hm' k' v' <-> holds hm k' v') ->
  hashmap_may_get hm k' = Some (true, Some v') ->
  hashmap_may_get hm' k' = Some (true, Some v') /\ hashmap_get hm' k' = Some v'.
Proof.
  intros W W' Hiff M.
  apply (may_get_holds hm (wf_ok hm W) (WF_room hm W)) in M.
  apply Hiff in M.
  destruct (get_holds hm' (wf_ok hm' W') (WF_room hm' W') k' v' M) as [G [M' _]].
  auto.
Qed.

(** C2: [hashmap_remove] returns, and in the table it leaves every filled
    bucket is met by the walk that starts at its desired index before any
    bucket that is not filled; every key other than [k] that a lookup found
    before is found after, with its value. *)
Theorem C2_remove_keeps_chains (hm : hashmap_t) (k : block) :
  WF hm ->
  exists hm' v fr,
    hashmap_remove hm k = Some (hm', v, fr) /\
    probe_chain hm' /\
    forall k' v',
      key_equals hm k' k = false ->
      hashmap_may_get hm k' = Some (true, Some v') ->
      hashmap_may_get hm' k' = Some (true, Some v') /\ hashmap_get hm' k' = Some v'.
Proof.
  intros W.
  destruct (remove_spec hm k W) as [hm' [v [fr [E [W' [_ [_ [_ [Hh _]]]]]]]]].
  exists hm', v, fr. split; [exact E|]. split.
  - apply chain_probe_chain. apply (wf_ok hm' W').
  - intros k' v' N M. apply (lookup_kept hm hm' k' v' W W' (Hh k' v' N) M).
Qed.

(** "b" is removed from the table of "a", "b" and "c" *)
Lemma C2_remove_keeps_chains_witness :
  WF table_abc /\
  exists hm' v fr,
    hashmap_remove table_abc key_b = Some (hm', v, fr) /\
    probe_chain hm' /\
    forall k' v',
      key_equals table_abc k' key_b = false ->
      hashmap_may_get table_abc k' = Some (true, Some v') ->
      hashmap_may_get hm' k' = Some (true, Some v') /\ hashmap_get hm' k' = Some v'.
Proof.
  split; [exact table_abc_WF|].
  apply (C2_remove_keeps_chains table_abc key_b). exact table_abc_WF.
Defined.

Lemma WF_half hm :
  WF hm -> min_size hm <= alloc_size hm / 2 -> 2 * (alloc_size hm / 2) = alloc_size hm.
Proof.
  intros W M. destruct (wf_cap hm W) as [e Ee]. pose proof (wf_min hm W) as H8.
  unfold MIN_HASHMAP_SIZE in H8. destruct e as [|e'].
  - exfalso. rewrite Z.pow_0_r, Z.mul_1_r in Ee. rewrite Ee in M.
    assert (min_size hm / 2 < min_size hm) by (apply Z.div_lt_upper_bound; lia). lia.
  - rewrite Ee, Nat2Z.inj_succ, Z.pow_succ_r by lia.
    replace (min_size hm * (2 * 2 ^ Z.of_nat e')) with (min_size hm * 2 ^ Z.of_nat e' * 2) by lia.
    rewrite Z.div_mul by lia. lia.
Qed.

Lemma table_nine_reachable : reachable 9 (-1) true table_nine.
Proof.
  apply (reach_set 9 (-1) true table_nine_4 key_e 11 104 table_nine 0 []).
  - apply (reach_set 9 (-1) true table_nine_3 key_d 10 103 table_nine_4 0 []).
    + apply (reach_set 9 (-1) true table_nine_2 key_c 9 102 table_nine_3 0 []).
      * apply (reach_set 9 (-1) true table_nine_1 key_b 8 101 table_nine_2 0 []).
        -- apply (reach_set 9 (-1) true table_nine_0 key_a 7 100 table_nine_1 0 []).
           ++ apply reach_create; vm_compute; discriminate.
           ++ unfold fits. vm_compute. intros _. discriminate.
           ++ vm_compute. reflexivity.
        -- unfold fits. vm_compute. intros _. discriminate.
        -- vm_compute. reflexivity.
      * unfold fits. vm_compute. intros _. discriminate.
      * vm_compute. reflexivity.
    + unfold fits. vm_compute. intros _. discriminate.
    + vm_compute. reflexivity.
  - unfold fits. vm_compute. intros _. discriminate.
  - vm_compute. reflexivity.
Qed.

(** C6, as stated: a removal that leaves the count below one quarter of the
    capacity halves the capacity, unless the half is below the minimum. It
    does not always: the table created with the hint 9 has capacity 18 once
    it holds five keys; the removal of one leaves 4, less than a quarter of
    18, and the half, 9, is the minimum, yet the capacity stays 18. The code
    compares the count with [alloc_size >> 2], which is 4. *)
Lemma C6_counterexample :
  reachable 9 (-1) true table_nine /\
  hashmap_size table_nine = 5 /\ alloc_size table_nine = 18 /\
  min_size table_nine = 9 /\
  hashmap_may_get table_nine key_e = Some (true, Some 11) /\
  exists hm' fr,
    hashmap_remove table_nine key_e = Some (hm', 11, fr) /\
    hashmap_size hm' = 4 /\
    4 * hashmap_size hm' < alloc_size table_nine /\
    2 * min_size table_nine <= alloc_size table_nine /\
    alloc_size hm' = alloc_size table_nine.
Proof.
  split; [exact table_nine_reachable|].
  split; [vm_compute; reflexivity|]. split; [vm_compute; reflexivity|].
  split; [vm_compute; reflexivity|]. split; [vm_compute; reflexivity|].
  exists (after_remove table_nine key_e), [104].
  split; [vm_compute; reflexivity|]. split; [vm_compute; reflexivity|].
  split; [vm_compute; reflexivity|]. split; [vm_compute; discriminate|].
  vm_compute. reflexivity.
Qed.

(** C6, amended: the quarter and the half are the quotients
    [alloc_size >> 2] and [alloc_size >> 1]. When [hashmap_remove] takes a
    key out and the count it leaves is below [alloc_size >> 2], the capacity
    becomes [alloc_size >> 1], exactly half, and the table is rehashed,
    unless that half is below the minimum, in which case the capacity stays;
    with a count of [alloc_size >> 2] or more it stays too. The capacity
    never goes below the minimum, and the keys that remain are found with
    their values. *)
Theorem C6_shrink_after_remove (hm : hashmap_t) (k : block) (v : Z) :
  WF hm -> hashmap_may_get hm k = Some (true, Some v) ->
  exists hm' fr,
    hashmap_remove hm k = Some (hm', v, fr) /\
    hashmap_size hm' = hashmap_size hm - 1 /\
    (hashmap_size hm' < Z.shiftr (alloc_size hm) 2 ->
     min_size hm <= Z.shiftr (alloc_size hm) 1 ->
     alloc_size hm' = Z.shiftr (alloc_size hm) 1 /\ 2 * alloc_size hm' = alloc_size hm) /\
    (hashmap_size hm' < Z.shiftr (alloc_size hm) 2 ->
     Z.shiftr (alloc_size hm) 1 < min_size hm ->
     alloc_size hm' = alloc_size hm) /\
    (Z.shiftr (alloc_size hm) 2 <= hashmap_size hm' -> alloc_size hm' = alloc_size hm) /\
    min_size hm' = min_size hm /\ min_size hm <= alloc_size hm' /\
    probe_chain hm' /\
    hashmap_has hm' k = Some false /\
    forall k' v',
      key_equals hm k' k = false ->
      hashmap_may_get hm k' = Some (true, Some v') ->
      hashmap_may_get hm' k' = Some (true, Some v') /\ hashmap_get hm' k' = Some v'.
Proof.
  intros W M. pose proof (wf_ok hm W) as Hok. pose proof (WF_room hm W) as Hroom.
  apply (may_get_holds hm Hok Hroom) in M.
  destruct (remove_spec hm k W) as [hm' [v0 [fr [E [W' [Mn [_ [_ [Hh [_ D]]]]]]]]]].
  destruct D as [[A _]|[Hv [A' [S Al]]]].
  { exfalso. eapply holds_not_absent; eauto. }
  assert (v0 = v) by (eapply holds_fun; eauto). subst v0.
  exists hm', fr. unfold hashmap_size. split; [exact E|]. split; [exact S|].
  rewrite S.
  split; [|split; [|split]].
  - intros Q Hm.
    destruct (Z.ltb_spec (size hm - 1) (Z.shiftr (alloc_size hm) 2)); [|lia].
    destruct (Z.leb_spec (min_size hm) (Z.shiftr (alloc_size hm) 1)); [|lia].
    cbn [andb] in Al. split; [exact Al|]. rewrite Al, shiftr_1.
    apply WF_half; [exact W|]. now rewrite <- shiftr_1.
  - intros Q Hm.
    destruct (Z.ltb_spec (size hm - 1) (Z.shiftr (alloc_size hm) 2)); [|lia].
    destruct (Z.leb_spec (min_size hm) (Z.shiftr (alloc_size hm) 1)); [lia|].
    exact Al.
  - intros Q.
    destruct (Z.ltb_spec (size hm - 1) (Z.shiftr (alloc_size hm) 2)); [lia|].
    exact Al.
  - split; [exact Mn|]. split; [rewrite <- Mn; now apply WF_min_le_alloc|].
    split; [apply chain_probe_chain; apply (wf_ok hm' W')|].
    split; [apply (get_absent hm' (wf_ok hm' W') (WF_room hm' W') k A')|].
    intros k' v' N M'. apply (lookup_kept hm hm' k' v' W W' (Hh k' v' N) M').
Qed.

(** "d" is removed from a table of capacity 16 that holds "a", "b", "c" and
    "d": three keys are left, less than a quarter of 16, and the capacity
    goes back to 8 *)
Lemma C6_shrink_after_remove_witness :
  WF table_abcd_wide /\ hashmap_may_get table_abcd_wide key_d = Some (true, Some 10) /\
  alloc_size table_abcd_wide = 16 /\
  exists hm' fr,
    hashmap_remove table_abcd_wide key_d = Some (hm', 10, fr) /\
    hashmap_size hm' = hashmap_size table_abcd_wide - 1 /\
    (hashmap_size hm' < Z.shiftr (alloc_size table_abcd_wide) 2 ->
     min_size table_abcd_wide <= Z.shiftr (alloc_size table_abcd_wide) 1 ->
     alloc_size hm' = Z.shiftr (alloc_size table_abcd_wide) 1 /\
     2 * alloc_size hm' = alloc_size table_abcd_wide) /\
    (hashmap_size hm' < Z.shiftr (alloc_size table_abcd_wide) 2 ->
     Z.shiftr (alloc_size table_abcd_wide) 1 < min_size table_abcd_wide ->
     alloc_size hm' = alloc_size table_abcd_wide) /\
    (Z.shiftr (alloc_size table_abcd_wide) 2 <= hashmap_size hm' ->
     alloc_size hm' = alloc_size table_abcd_wide) /\
    min_size hm' = min_size table_abcd_wide /\
    min_size table_abcd_wide <= alloc_size hm' /\
    probe_chain hm' /\
    hashmap_has hm' key_d = Some false /\
    forall k' v',
      key_equals table_abcd_wide k' key_d = false ->
      hashmap_may_get table_abcd_wide k' = Some (true, Some v') ->
      hashmap_may_get hm' k' = Some (true, Some v') /\ hashmap_get hm' k' = Some v'.
Proof.
  assert (M : hashmap_may_get table_abcd_wide key_d = Some (true, Some 10))
    by (vm_compute; reflexivity).
  split; [exact table_abcd_wide_WF|]. split; [exact M|].
  split; [vm_compute; reflexivity|].
  apply (C6_shrink_after_remove table_abcd_wide key_d 10).
  - exact table_abcd_wide_WF.
  - exact M.
Defined.

(** C5, as stated: an insertion that brings the count to half of the
    capacity is preceded by a doubling. It is not: the fourth key goes into a
    table of capacity 8 that holds three, and the capacity is still 8 with
    four keys in. *)
Lemma C5_counterexample :
  reachable 8 (-1) true table_abc /\
  hashmap_has table_abc key_d = Some false /\
  hashmap_size table_abc + 1 >= Z.shiftr (alloc_size table_abc) 1 /\
  exists hm',
    hashmap_set table_abc key_d 10 103 = Some (hm', 0, []) /\
    alloc_size hm' = alloc_size table_abc /\
    alloc_size hm' = 8 /\ hashmap_size hm' = 4.
Proof.
  split; [exact table_abc_reachable|].
  split; [vm_compute; reflexivity|].
  split; [vm_compute; discriminate|].
  exists table_abcd. vm_compute. repeat split; reflexivity.
Qed.

(** C5, amended: [hashmap_set] checks for growth before it inserts. When the
    count has reached half of the capacity by the time of the call, the
    capacity doubles and the pairs of the filled buckets are inserted anew
    into the new array, where every key is found with its value; otherwise
    the capacity stays. Either way the keys stored before, other than [k],
    are found after the call with their values. *)
Theorem C5_growth_before_insert (hm : hashmap_t) (k : block) (v fresh : Z) :
  WF hm -> fits hm ->
  exists hm' old fr,
    hashmap_set hm k v fresh = Some (hm', old, fr) /\
    (size hm >= Z.shiftr (alloc_size hm) 1 ->
       alloc_size hm' = 2 * alloc_size hm /\
       exists hm1,
         rehash hm (to_size (Z.shiftl (alloc_size hm) 1)) = Some (hm1, []) /\
         alloc_size hm1 = 2 * alloc_size hm /\
         Permutation (contents hm1) (contents hm) /\
         probe_chain hm1 /\
         forall k' v', hashmap_may_get hm k' = Some (true, Some v') ->
                       hashmap_get hm1 k' = Some v') /\
    (size hm < Z.shiftr (alloc_size hm) 1 -> alloc_size hm' = alloc_size hm) /\
    forall k' v',
      key_equals hm k' k = false ->
      hashmap_may_get hm k' = Some (true, Some v') ->
      hashmap_may_get hm' k' = Some (true, Some v') /\ hashmap_get hm' k' = Some v'.
Proof.
  intros W F. pose proof (wf_ok hm W) as Hok. pose proof (WF_room hm W) as Hroom.
  destruct (set_spec hm k v fresh W F)
    as [hm' [old [fr [E [W' [A [_ [_ [_ [_ [Hh _]]]]]]]]]]].
  exists hm', old, fr. split; [exact E|]. split; [|split].
  - intros G. destruct (Z.geb_spec (size hm) (Z.shiftr (alloc_size hm) 1)); [|lia].
    split; [exact A|].
    destruct (grow_spec hm W F) as [hm1 [R [Hok1 [A1 [_ [K1 [_ [_ [P1 L1]]]]]]]]].
    destruct (Z.geb_spec (size hm) (Z.shiftr (alloc_size hm) 1)); [|lia].
    exists hm1. split; [exact R|]. split; [exact A1|]. split; [exact P1|].
    split; [now apply chain_probe_chain|].
    intros k' v' M. apply (may_get_holds hm Hok Hroom) in M.
    destruct (same_contents hm hm1 K1 P1) as [Hs _]. apply Hs in M.
    assert (Hroom1 : size hm1 < alloc_size hm1).
    { rewrite shiftr_1 in L1. pose proof (ok_pos hm1 Hok1).
      assert (alloc_size hm1 / 2 <= alloc_size hm1) by (apply Z.div_le_upper_bound; lia).
      lia. }
    apply (get_holds hm1 Hok1 Hroom1 k' v' M).
  - intros L. destruct (Z.geb_spec (size hm) (Z.shiftr (alloc_size hm) 1)); [lia|].
    exact A.
  - intros k' v' N M. apply (lookup_kept hm hm' k' v' W W' (Hh k' v' N) M).
Qed.

(** the fifth key goes into the table of capacity 8 that holds four: the
    capacity becomes 16 *)
Lemma C5_growth_before_insert_witness :
  WF table_abcd /\ fits table_abcd /\
  size table_abcd >= Z.shiftr (alloc_size table_abcd) 1 /\
  exists hm' old fr,
    hashmap_set table_abcd key_e 11 104 = Some (hm', old, fr) /\
    (size table_abcd >= Z.shiftr (alloc_size table_abcd) 1 ->
       alloc_size hm' = 2 * alloc_size table_abcd /\
       exists hm1,
         rehash table_abcd (to_size (Z.shiftl (alloc_size table_abcd) 1)) = Some (hm1, []) /\
         alloc_size hm1 = 2 * alloc_size table_abcd /\
         Permutation (contents hm1) (contents table_abcd) /\
         probe_chain hm1 /\
         forall k' v', hashmap_may_get table_abcd k' = Some (true, Some v') ->
                       hashmap_get hm1 k' = Some v') /\
    (size table_abcd < Z.shiftr (alloc_size table_abcd) 1 ->
       alloc_size hm' = alloc_size table_abcd) /\
    forall k' v',
      key_equals table_abcd k' key_e = false ->
      hashmap_may_get table_abcd k' = Some (true, Some v') ->
      hashmap_may_get hm' k' = Some (true, Some v') /\ hashmap_get hm' k' = Some v'.
Proof.
  split; [exact table_abcd_WF|]. split; [exact table_abcd_fits|].
  split; [vm_compute; discriminate|].
  apply (C5_growth_before_insert table_abcd key_e 11 104).
  - exact table_abcd_WF.
  - exact table_abcd_fits.
Defined.

(** ** Keys of variable length *)

Lemma strlen_app_zero pre :
  Forall (fun b => b <> x00) pre -> strlen (pre ++ [x00]) = length pre.
Proof.
  induction 1 as [|b pre Hb _ IH]; [reflexivity|].
  cbn [app strlen length]. destruct (byte_eqb_spec b x00); [contradiction|].
  now rewrite IH.
Qed.

Lemma take_app_exact pre rest : take (length pre) (pre ++ rest) = pre.
Proof. induction pre as [|b pre IH]; simpl; [reflexivity|]. now rewrite IH. Qed.

Lemma str_equals_terminated pre o :
  Forall (fun b => b <> x00) pre ->
  str_equals (pre ++ [x00]) o = true <-> take (length pre + 1) o = pre ++ [x00].
Proof.
  intros H. revert o. induction H as [|b pre Hb _ IH]; intros o.
  - cbn [app str_equals length Nat.add take].
    destruct (byte_eqb_spec x00 (hd x00 o)) as [E|N]; cbn [negb].
    + rewrite <- E. split; reflexivity.
    + split; [discriminate|]. intros E. injection E as E. congruence.
  - cbn [app str_equals length Nat.add take].
    destruct (byte_eqb_spec b (hd x00 o)) as [E|N]; cbn [negb].
    + destruct (byte_eqb_spec b x00); [contradiction|].
      rewrite IH, <- E. split; intros Q; [now f_equal|now injection Q].
    + split; [discriminate|]. intros E. injection E as E _. congruence.
Qed.

(** In the 32 bit branch the constant [FNV_PRIME] is written [0x01000193a],
    one digit longer than the FNV prime [0x01000193]: the hash of that branch
    is not FNV-1a. The statements below are about the 64 bit branch. *)
Lemma hash_32_not_fnv1a :
  FNV_PRIME_32 <> 16777619 /\
  hash_str_32 FNV_BASIS_32 ["a"%byte; x00] <> fnv1a_32 ["a"%byte].
Proof. split; vm_compute; discriminate. Qed.

(** C3, as stated: the hash of a terminated key is FNV-1a over the bytes
    with the terminator. For the key "a" it is not: the hash is FNV-1a over
    the byte "a" alone. *)
Lemma C3_counterexample :
  key_size table_empty < 0 /\
  bytes key_a = ["a"%byte; x00] /\
  hash_key table_empty key_a <> fnv1a_64 ["a"%byte; x00] /\
  hash_key table_empty key_a = fnv1a_64 ["a"%byte].
Proof.
  split; [reflexivity|]. split; [reflexivity|].
  split; [vm_compute; discriminate|vm_compute; reflexivity].
Qed.

(** C3, amended: with keys of variable length, the hash of a key that ends
    in a zero byte is FNV-1a (64 bits) over the bytes before the terminator,
    the terminator left out; key equality compares those bytes and the
    terminator, one byte more than is hashed. *)
Theorem C3_hash_span (hm : hashmap_t) (k : block) (pre : list byte) :
  key_size hm < 0 ->
  Forall (fun b => b <> x00) pre ->
  bytes k = pre ++ [x00] ->
  hash_key hm k = fnv1a_64 pre /\
  forall o, key_equals hm k o = true <-> take (length pre + 1) (bytes o) = pre ++ [x00].
Proof.
  intros Hk Hpre Eb. unfold hash_key, key_equals.
  destruct (Z.ltb_spec (key_size hm) 0); [|lia]. rewrite Eb. split.
  - rewrite hash_str_span, strlen_app_zero by exact Hpre.
    rewrite take_app_exact. symmetry. apply fnv1a_64_fold.
  - intros o. now apply str_equals_terminated.
Qed.

Lemma C3_hash_span_witness :
  key_size table_empty < 0 /\
  Forall (fun b => b <> x00) ["a"%byte] /\
  bytes key_a = ["a"%byte] ++ [x00] /\
  hash_key table_empty key_a = fnv1a_64 ["a"%byte] /\
  forall o, key_equals table_empty key_a o = true <->
            take (length ["a"%byte] + 1) (bytes o) = ["a"%byte] ++ [x00].
Proof.
  assert (H : Forall (fun b => b <> x00) ["a"%byte]).
  { constructor; [discriminate|constructor]. }
  split; [reflexivity|]. split; [exact H|]. split; [reflexivity|].
  apply (C3_hash_span table_empty key_a ["a"%byte]).
  - reflexivity.
  - exact H.
  - reflexivity.
Defined.

(** ** Capacity *)

Lemma twelve_not_pow2 : ~ exists e : nat, 12 = 2 ^ Z.of_nat e.
Proof.
  intros [e E]. destruct e as [|[|[|[|e]]]]; try discriminate.
  rewrite !Nat2Z.inj_succ, !Z.pow_succ_r in E by lia.
  assert (0 <= 2 ^ Z.of_nat e) by (apply Z.pow_nonneg; lia). lia.
Qed.

(** C4, as stated: the capacity of a reachable table is a power of two. A
    table created with the hint 12 has capacity 12. *)
Lemma C4_counterexample :
  reachable 12 4 false table_twelve /\
  alloc_size table_twelve = 12 /\
  ~ exists e : nat, alloc_size table_twelve = 2 ^ Z.of_nat e.
Proof.
  split; [|split].
  - apply reach_create; vm_compute; discriminate.
  - reflexivity.
  - exact twelve_not_pow2.
Qed.

(** C4, amended: in every reachable table the minimum capacity is the larger
    of 8 and the requested initial size, the capacity is the minimum capacity
    times a power of two (so a power of two when the minimum is one), hence
    at least the minimum, and the count is at most half of the capacity,
    hence at most the capacity. *)
Theorem C4_capacity (initial_size ks : Z) (ck : bool) (hm : hashmap_t) :
  reachable initial_size ks ck hm ->
  min_size hm = Z.max initial_size 8 /\
  (exists e : nat, alloc_size hm = min_size hm * 2 ^ Z.of_nat e) /\
  ((exists m : nat, min_size hm = 2 ^ Z.of_nat m) ->
   exists e : nat, alloc_size hm = 2 ^ Z.of_nat e) /\
  min_size hm <= alloc_size hm /\
  0 <= hashmap_size hm <= Z.shiftr (alloc_size hm) 1 /\
  hashmap_size hm <= alloc_size hm.
Proof.
  intros R. destruct (reachable_WF _ _ _ _ R) as [W [M _]].
  pose proof (WF_room hm W). pose proof (WF_size_nonneg hm (wf_ok hm W)).
  pose proof (wf_load hm W). unfold hashmap_size.
  split; [rewrite M; apply MAX_spec|].
  split; [apply (wf_cap hm W)|].
  split; [|split; [now apply WF_min_le_alloc|lia]].
  intros [m Em]. destruct (wf_cap hm W) as [e Ee].
  exists (m + e)%nat. rewrite Ee, Em, Nat2Z.inj_add, Z.pow_add_r by lia. reflexivity.
Qed.

Lemma C4_capacity_witness :
  reachable 12 4 false table_twelve /\
  min_size table_twelve = Z.max 12 8 /\
  (exists e : nat, alloc_size table_twelve = min_size table_twelve * 2 ^ Z.of_nat e) /\
  ((exists m : nat, min_size table_twelve = 2 ^ Z.of_nat m) ->
   exists e : nat, alloc_size table_twelve = 2 ^ Z.of_nat e) /\
  min_size table_twelve <= alloc_size table_twelve /\
  0 <= hashmap_size table_twelve <= Z.shiftr (alloc_size table_twelve) 1 /\
  hashmap_size table_twelve <= alloc_size table_twelve.
Proof.
  assert (R : reachable 12 4 false table_twelve).
  { apply reach_create; vm_compute; discriminate. }
  split; [exact R|].
  apply (C4_capacity 12 4 false table_twelve). exact R.
Defined.

(** ** Iteration and teardown *)

(** C9: on a table of [N] entries, a reset followed by calls of
    [hmapiter_next] until the first failure yields the pairs of the filled
    buckets in array order: [N] pairs, no pair twice, each with a key that a
    lookup finds with the value of the pair. The call that fails returns
    false, writes null to both outputs and leaves the iterator at [-1], the
    state of an iterator not started. *)
Theorem C9_iterate (hm : hashmap_t) (idx : Z) :
  WF hm ->
  exists items,
    iterate hm idx = Some (items, (hmapiter_create, false, None, 0)) /\
    items = map (fun b => (key b, value b)) (filter filled (buckets hm)) /\
    Z.of_nat (length items) = hashmap_size hm /\
    NoDup items /\
    forall kp v, In (kp, v) items ->
      exists k, kp = Some k /\ hashmap_may_get hm k = Some (true, Some v).
Proof.
  intros W. pose proof (wf_ok hm W) as Hok. pose proof (WF_room hm W) as Hroom.
  exists (contents hm). split; [|split; [reflexivity|split; [|split]]].
  - apply iterate_spec; [apply (ok_len hm Hok)|apply (ok_int hm Hok)].
  - unfold contents, hashmap_size. rewrite length_map. symmetry. apply (ok_size hm Hok).
  - apply NoDup_contents. apply (ok_distinct hm Hok).
  - intros kp v Hin. unfold contents in Hin. apply in_map_iff in Hin.
    destruct Hin as [b [E Hb]]. unfold entry_kv in E. injection E as Ek Ev.
    pose proof (ok_good hm Hok) as G. rewrite Forall_forall in G.
    destruct (G b Hb) as [o [Ko _]]. exists o. split; [congruence|].
    apply (get_holds hm Hok Hroom o v). exists b, o.
    split; [exact Hb|]. split; [exact Ko|]. split; [apply key_equals_refl|exact Ev].
Qed.

Lemma C9_iterate_witness :
  WF table_abc /\
  exists items,
    iterate table_abc 5 = Some (items, (hmapiter_create, false, None, 0)) /\
    items = map (fun b => (key b, value b)) (filter filled (buckets table_abc)) /\
    Z.of_nat (length items) = hashmap_size table_abc /\
    NoDup items /\
    forall kp v, In (kp, v) items ->
      exists k, kp = Some k /\ hashmap_may_get table_abc k = Some (true, Some v).
Proof.
  split; [exact table_abc_WF|].
  apply (C9_iterate table_abc 5). exact table_abc_WF.
Defined.

(** C10, at two failing inputs, in a table that copies its keys.
    - [hashmap_set] of "a" stores a copy at the address 100 and
      [hashmap_remove] of "a" frees it; the bucket keeps the pointer with its
      flag cleared, and [hashmap_destroy] frees the address 100 again.
    - With "a" and "i" stored, which collide, [hashmap_remove] of "a" moves
      the bucket of "i" back by one; the bucket it came from keeps the
      pointer to the copy of "i" at 101 with its flag cleared, and
      [hashmap_destroy] frees the address 101 twice. *)
Theorem C10_vacated_bucket_keeps_key :
  (hashmap_set table_empty key_a 7 100 = Some (table_a, 0, []) /\
   hashmap_remove table_a key_a = Some (table_a_removed, 7, [100]) /\
   reachable 8 (-1) true table_a_removed /\
   copy_keys table_a_removed = true /\
   (exists b, bucket_at (buckets table_a_removed) 4 = Some b /\
              filled b = false /\
              key b = Some (mkblock 100 ["a"%byte; x00])) /\
   hashmap_destroy table_a_removed false = [100]) /\
  (hashmap_set table_a key_i 8 101 = Some (table_ai, 0, []) /\
   hashmap_remove table_ai key_a = Some (table_ai_removed, 7, [100]) /\
   reachable 8 (-1) true table_ai_removed /\
   (exists b b', bucket_at (buckets table_ai_removed) 4 = Some b /\
                 bucket_at (buckets table_ai_removed) 5 = Some b' /\
                 filled b = true /\ filled b' = false /\
                 key b = Some (mkblock 101 ["i"%byte; x00]) /\
                 key b' = Some (mkblock 101 ["i"%byte; x00])) /\
   hashmap_destroy table_ai_removed false = [101; 101]).
Proof.
  split.
  - split; [vm_compute; reflexivity|].
    split; [vm_compute; reflexivity|].
    split; [exact table_a_removed_reachable|].
    split; [reflexivity|].
    split; [|vm_compute; reflexivity].
    eexists. split; [vm_compute; reflexivity|]. split; reflexivity.
  - split; [vm_compute; reflexivity|].
    split; [vm_compute; reflexivity|].
    split; [|split; [|vm_compute; reflexivity]].
    + apply (reach_remove 8 (-1) true table_ai key_a table_ai_removed 7 [100]).
      * apply (reach_set 8 (-1) true table_a key_i 8 101 table_ai 0 []).
        -- exact table_a_reachable.
        -- unfold fits. vm_compute. intros _. discriminate.
        -- vm_compute. reflexivity.
      * vm_compute. reflexivity.
    + eexists. eexists. split; [vm_compute; reflexivity|].
      split; [vm_compute; reflexivity|]. repeat split; reflexivity.
Qed.

(** * Further properties of the code *)

(** ** Lookups *)

(** on tables with a vacant bucket, what is stored decides what a lookup
    returns *)
Lemma lookup_ext hm1 hm2 k :
  table_ok hm1 -> size hm1 < alloc_size hm1 ->
  table_ok hm2 -> size hm2 < alloc_size hm2 ->
  (forall v, holds hm1 k v <-> holds hm2 k v) ->
  hashmap_may_get hm1 k = hashmap_may_get hm2 k /\
  hashmap_get hm1 k = hashmap_get hm2 k /\
  hashmap_has hm1 k = hashmap_has hm2 k.
Proof.
  intros O1 R1 O2 R2 Hiff.
  destruct (holds_or_absent hm1 O1 R1 k) as [[v Hv]|A1].
  - destruct (get_holds hm1 O1 R1 k v Hv) as [G1 [M1 H1]].
    apply Hiff in Hv.
    destruct (get_holds hm2 O2 R2 k v Hv) as [G2 [M2 H2]].
    repeat split; congruence.
  - destruct (get_absent hm1 O1 R1 k A1) as [G1 [M1 H1]].
    destruct (holds_or_absent hm2 O2 R2 k) as [[v Hv]|A2].
    + apply Hiff in Hv. exfalso. eapply holds_not_absent; eauto.
    + destruct (get_absent hm2 O2 R2 k A2) as [G2 [M2 H2]].
      repeat split; congruence.
Qed.

Lemma flat_map_free_calloc n : flat_map (fun b => free_key (key b)) (calloc n) = [].
Proof.
  unfold calloc. induction (Z.to_nat n) as [|m IH]; simpl; [reflexivity|exact IH].
Qed.

(** X1: a table from [hashmap_create] has capacity max(hint, 8) and no entry:
    every lookup reports absence ([hashmap_get] returns null), a removal
    returns null and changes nothing, an iteration fails at the first call,
    and [hashmap_destroy] frees no key and no value. *)
Theorem X1_create_empty (initial_size ks : Z) (ck dv : bool) (k : block) (idx : Z) :
  MAX initial_size MIN_HASHMAP_SIZE <= INT_MAX ->
  let hm := hashmap_create initial_size ks ck in
  hashmap_size hm = 0 /\ alloc_size hm = Z.max initial_size 8 /\
  hashmap_get hm k = Some 0 /\
  hashmap_may_get hm k = Some (false, None) /\
  hashmap_has hm k = Some false /\
  hashmap_remove hm k = Some (hm, 0, []) /\
  iterate hm idx = Some ([], (-1, false, None, 0)) /\
  hashmap_destroy hm dv = [].
Proof.
  intros H hm. pose proof (create_WF initial_size ks ck H) as W. fold hm in W.
  pose proof (wf_ok hm W) as Hok. pose proof (WF_room hm W) as Hroom.
  assert (E : entries hm = []) by apply filter_calloc.
  assert (A : absent hm k).
  { intros b o Hb. rewrite E in Hb. contradiction. }
  destruct (get_absent hm Hok Hroom k A) as [G [M Hs]].
  destruct (absent_lookup hm Hok Hroom k A) as [r [br [Gi [Er F]]]].
  split; [reflexivity|]. split; [apply MAX_spec|].
  split; [exact G|]. split; [exact M|]. split; [exact Hs|].
  split; [unfold hashmap_remove; now rewrite Gi, Er, F|].
  split.
  - rewrite (iterate_spec hm (ok_len hm Hok) (ok_int hm Hok) idx).
    unfold contents. now rewrite E.
  - unfold hashmap_destroy. fold (entries hm). rewrite E.
    unfold hm, hashmap_create. cbn [buckets copy_keys].
    rewrite flat_map_free_calloc. now destruct dv, ck.
Qed.

Lemma X1_create_empty_witness :
  MAX 0 MIN_HASHMAP_SIZE <= INT_MAX /\
  let hm := hashmap_create 0 4 false in
  hashmap_size hm = 0 /\ alloc_size hm = Z.max 0 8 /\
  hashmap_get hm key_a = Some 0 /\
  hashmap_may_get hm key_a = Some (false, None) /\
  hashmap_has hm key_a = Some false /\
  hashmap_remove hm key_a = Some (hm, 0, []) /\
  iterate hm 3 = Some ([], (-1, false, None, 0)) /\
  hashmap_destroy hm true = [].
Proof.
  assert (H : MAX 0 MIN_HASHMAP_SIZE <= INT_MAX) by (vm_compute; discriminate).
  split; [exact H|].
  apply (X1_create_empty 0 4 false true key_a 3 H).
Defined.

(** X2: on every table between two operations [get_bucket_index] returns an
    index inside the bucket array, never -1. Every bucket from the home
    index of the key up to it is filled; the bucket at the index is vacant
    when no filled bucket holds the key, and holds the key otherwise. *)
Theorem X2_get_bucket_index (hm : hashmap_t) (k : block) :
  WF hm ->
  exists i b,
    get_bucket_index hm (Some k) (hash_key hm k) = Some i /\
    0 <= i < alloc_size hm /\
    bucket_at (buckets hm) i = Some b /\
    (filled b = false -> absent hm k) /\
    (filled b = true ->
       hash b = hash_key hm k /\ exists o, key b = Some o /\ key_equals hm k o = true) /\
    forall j bj, bucket_at (buckets hm) j = Some bj ->
                 on_path (alloc_size hm) (hash_key hm k mod alloc_size hm) i j ->
                 filled bj = true.
Proof.
  intros W. pose proof (wf_ok hm W) as Hok. pose proof (WF_room hm W) as Hroom.
  destruct (lookup_spec hm Hok Hroom k) as [r [br [G [Er [St Path]]]]].
  exists r, br. split; [exact G|]. split; [apply (ok_range hm Hok r br Er)|].
  split; [exact Er|]. split; [|split; [|exact Path]].
  - intros F. destruct St as [[_ A]|[F' _]]; [exact A|congruence].
  - intros F. destruct St as [[F' _]|[_ [Hh Ho]]]; [congruence|auto].
Qed.

Lemma X2_get_bucket_index_witness :
  WF table_abc /\
  exists i b,
    get_bucket_index table_abc (Some key_b) (hash_key table_abc key_b) = Some i /\
    0 <= i < alloc_size table_abc /\
    bucket_at (buckets table_abc) i = Some b /\
    (filled b = false -> absent table_abc key_b) /\
    (filled b = true ->
       hash b = hash_key table_abc key_b /\
       exists o, key b = Some o /\ key_equals table_abc key_b o = true) /\
    forall j bj, bucket_at (buckets table_abc) j = Some bj ->
                 on_path (alloc_size table_abc)
                         (hash_key table_abc key_b mod alloc_size table_abc) i j ->
                 filled bj = true.
Proof.
  split; [exact table_abc_WF|].
  apply (X2_get_bucket_index table_abc key_b). exact table_abc_WF.
Defined.

(** ** Keys *)

Lemma key_equals_sym hm a b : key_equals hm a b = key_equals hm b a.
Proof.
  destruct (key_equals hm b a) eqn:Q.
  - apply key_equals_span. apply key_equals_span in Q. congruence.
  - apply key_equals_false. apply key_equals_false in Q. congruence.
Qed.

Lemma key_equals_span_l hm a a' b :
  key_span hm a = key_span hm a' -> key_equals hm a b = key_equals hm a' b.
Proof.
  intros E. rewrite (key_equals_sym hm a b), (key_equals_sym hm a' b).
  now apply key_equals_span_r.
Qed.

Lemma hash_step_range h b : 0 <= hash_step h b < 2 ^ 64.
Proof. unfold hash_step, to_hash. apply Z.mod_pos_bound. reflexivity. Qed.

Lemma fold_hash_range l : forall h,
  0 <= h < 2 ^ 64 -> 0 <= fold_left hash_step l h < 2 ^ 64.
Proof.
  induction l as [|b l IH]; intros h H; [exact H|].
  cbn [fold_left]. apply IH. apply hash_step_range.
Qed.

(** X3: [key_equals] is an equivalence on keys, keys that are equal have the
    same hash, and a hash is a 64 bit value. *)
Theorem X3_key_equality (hm : hashmap_t) (a b c : block) :
  key_equals hm a a = true /\
  key_equals hm a b = key_equals hm b a /\
  (key_equals hm a b = true -> key_equals hm b c = true -> key_equals hm a c = true) /\
  (key_equals hm a b = true -> hash_key hm a = hash_key hm b) /\
  0 <= hash_key hm a < 2 ^ 64.
Proof.
  split; [apply key_equals_refl|]. split; [apply key_equals_sym|]. split; [|split].
  - intros Q1 Q2. apply key_equals_span. apply key_equals_span in Q1.
    apply key_equals_span in Q2. congruence.
  - apply key_equals_hash.
  - rewrite hash_key_span. apply fold_hash_range.
    split; [vm_compute; discriminate|vm_compute; reflexivity].
Qed.

(** "a" at three addresses, with and without bytes behind the terminator *)
Lemma X3_key_equality_witness :
  key_equals table_empty key_a (mkblock 5 ["a"%byte; x00; "z"%byte]) = true /\
  key_equals table_empty (mkblock 5 ["a"%byte; x00; "z"%byte]) (mkblock 6 ["a"%byte]) = true /\
  key_equals table_empty key_a (mkblock 6 ["a"%byte]) = true /\
  hash_key table_empty key_a = hash_key table_empty (mkblock 5 ["a"%byte; x00; "z"%byte]).
Proof.
  assert (Q1 : key_equals table_empty key_a (mkblock 5 ["a"%byte; x00; "z"%byte]) = true)
    by (vm_compute; reflexivity).
  assert (Q2 : key_equals table_empty (mkblock 5 ["a"%byte; x00; "z"%byte])
                          (mkblock 6 ["a"%byte]) = true)
    by (vm_compute; reflexivity).
  split; [exact Q1|]. split; [exact Q2|].
  destruct (X3_key_equality table_empty key_a (mkblock 5 ["a"%byte; x00; "z"%byte])
                            (mkblock 6 ["a"%byte])) as [_ [_ [T [H _]]]].
  split; [exact (T Q1 Q2)|exact (H Q1)].
Defined.

Lemma probe_key_ext hm k k' h fuel : forall i,
  key_span hm k = key_span hm k' ->
  probe fuel hm (Some k) h i = probe fuel hm (Some k') h i.
Proof.
  induction fuel as [|fuel IH]; intros i E; [reflexivity|].
  cbn [probe]. destruct (bucket_at (buckets hm) i) as [b|]; [|reflexivity].
  destruct (filled b); [|reflexivity].
  destruct (hash b =? h); [|now apply IH].
  destruct (key b) as [o|]; [|reflexivity].
  rewrite (key_equals_span_l hm k k' o E). rewrite IH by exact E. reflexivity.
Qed.

(** X4: on any table, two keys that [key_equals] takes for equal are one key
    for the lookups and for the removal: the address of a key and the bytes
    behind the compared span play no part. *)
Theorem X4_equal_keys_same_lookup (hm : hashmap_t) (k k' : block) :
  key_equals hm k k' = true ->
  hashmap_get hm k = hashmap_get hm k' /\
  hashmap_may_get hm k = hashmap_may_get hm k' /\
  hashmap_has hm k = hashmap_has hm k' /\
  hashmap_remove hm k = hashmap_remove hm k'.
Proof.
  intros Q. pose proof (key_equals_hash hm k k' Q) as Hh.
  apply key_equals_span in Q.
  assert (G : get_bucket_index hm (Some k) (hash_key hm k) =
              get_bucket_index hm (Some k') (hash_key hm k')).
  { unfold get_bucket_index. rewrite Hh. now apply probe_key_ext. }
  unfold hashmap_get, hashmap_may_get, hashmap_has, hashmap_remove.
  rewrite G. repeat split; reflexivity.
Qed.

(** the key "a" at another address, with other bytes behind the terminator *)
Lemma X4_equal_keys_same_lookup_witness :
  key_equals table_abc key_a (mkblock 5 ["a"%byte; x00; "z"%byte]) = true /\
  hashmap_get table_abc key_a = hashmap_get table_abc (mkblock 5 ["a"%byte; x00; "z"%byte]) /\
  hashmap_may_get table_abc key_a =
    hashmap_may_get table_abc (mkblock 5 ["a"%byte; x00; "z"%byte]) /\
  hashmap_has table_abc key_a = hashmap_has table_abc (mkblock 5 ["a"%byte; x00; "z"%byte]) /\
  hashmap_remove table_abc key_a =
    hashmap_remove table_abc (mkblock 5 ["a"%byte; x00; "z"%byte]).
Proof.
  assert (Q : key_equals table_abc key_a (mkblock 5 ["a"%byte; x00; "z"%byte]) = true)
    by (vm_compute; reflexivity).
  split; [exact Q|].
  apply (X4_equal_keys_same_lookup table_abc key_a (mkblock 5 ["a"%byte; x00; "z"%byte]) Q).
Defined.

Lemma take_firstn n : forall l, (n <= length l)%nat -> take n l = firstn n l.
Proof.
  induction n as [|n IH]; intros l H; [reflexivity|].
  destruct l as [|b l]; simpl in H; [lia|].
  simpl. f_equal. apply IH. lia.
Qed.

(** X5: with keys of a fixed size [n], the hash is FNV-1a (64 bits) over the
    first [n] bytes of the key, zero bytes included, and two keys are equal
    exactly when their first [n] bytes are. *)
Theorem X5_fixed_size_keys (hm : hashmap_t) (k : block) :
  0 <= key_size hm ->
  (Z.to_nat (key_size hm) <= length (bytes k))%nat ->
  hash_key hm k = fnv1a_64 (firstn (Z.to_nat (key_size hm)) (bytes k)) /\
  forall o, (Z.to_nat (key_size hm) <= length (bytes o))%nat ->
    (key_equals hm k o = true <->
     firstn (Z.to_nat (key_size hm)) (bytes k) = firstn (Z.to_nat (key_size hm)) (bytes o)).
Proof.
  intros Hk Hl. unfold hash_key, key_equals.
  destruct (Z.ltb_spec (key_size hm) 0); [lia|]. split.
  - rewrite hash_fixed_span, take_firstn by exact Hl. symmetry. apply fnv1a_64_fold.
  - intros o Ho. rewrite fixed_equals_span, !take_firstn by assumption. reflexivity.
Qed.

(** keys of two bytes, one of them zero: "a\0" and "a\0" followed by "z" *)
Lemma X5_fixed_size_keys_witness :
  0 <= key_size (hashmap_create 8 2 false) /\
  (Z.to_nat (key_size (hashmap_create 8 2 false)) <= length (bytes key_a))%nat /\
  hash_key (hashmap_create 8 2 false) key_a =
    fnv1a_64 (firstn (Z.to_nat (key_size (hashmap_create 8 2 false))) (bytes key_a)) /\
  forall o, (Z.to_nat (key_size (hashmap_create 8 2 false)) <= length (bytes o))%nat ->
    (key_equals (hashmap_create 8 2 false) key_a o = true <->
     firstn (Z.to_nat (key_size (hashmap_create 8 2 false))) (bytes key_a) =
     firstn (Z.to_nat (key_size (hashmap_create 8 2 false))) (bytes o)).
Proof.
  assert (H1 : 0 <= key_size (hashmap_create 8 2 false)) by (vm_compute; discriminate).
  assert (H2 : (Z.to_nat (key_size (hashmap_create 8 2 false)) <= length (bytes key_a))%nat)
    by (vm_compute; constructor).
  split; [exact H1|]. split; [exact H2|].
  apply (X5_fixed_size_keys (hashmap_create 8 2 false) key_a H1 H2).
Defined.

Lemma NoDup_constant (A : Type) (l : list A) (x : A) :
  NoDup l -> (forall y, In y l -> y = x) -> (length l <= 1)%nat.
Proof.
  intros ND H. destruct l as [|a [|b l]]; simpl; try lia.
  exfalso. inversion ND as [|? ? Hnot _]; subst. apply Hnot.
  rewrite (H a), (H b); simpl; auto.
Qed.

(** X6: with a key size of 0 no byte of a key is read: all keys are equal,
    all hash to the offset basis, and the table never holds more than one
    entry. *)
Theorem X6_key_size_zero (hm : hashmap_t) (a b : block) :
  WF hm -> key_size hm = 0 ->
  key_equals hm a b = true /\
  hash_key hm a = FNV_BASIS /\
  hashmap_size hm <= 1.
Proof.
  intros W K. unfold key_equals, hash_key. rewrite K. cbn.
  split; [reflexivity|]. split; [reflexivity|].
  pose proof (wf_ok hm W) as Hok. unfold hashmap_size. rewrite (ok_size hm Hok).
  assert (L : (length (map (span_of hm) (entries hm)) <= 1)%nat).
  { apply (NoDup_constant _ _ []); [apply (ok_distinct hm Hok)|].
    intros y Hy. apply in_map_iff in Hy. destruct Hy as [x [<- _]].
    unfold span_of, key_span. rewrite K. now destruct (key x). }
  rewrite length_map in L. lia.
Qed.

Lemma X6_key_size_zero_witness :
  WF (after_set (hashmap_create 8 0 false) key_a 7 0) /\
  key_size (after_set (hashmap_create 8 0 false) key_a 7 0) = 0 /\
  key_equals (after_set (hashmap_create 8 0 false) key_a 7 0) key_a key_b = true /\
  hash_key (after_set (hashmap_create 8 0 false) key_a 7 0) key_a = FNV_BASIS /\
  hashmap_size (after_set (hashmap_create 8 0 false) key_a 7 0) <= 1.
Proof.
  assert (W : WF (after_set (hashmap_create 8 0 false) key_a 7 0)).
  { apply (reachable_WF 8 0 false).
    apply (reach_set 8 0 false (hashmap_create 8 0 false) key_a 7 0 _ 0 []).
    - apply reach_create; vm_compute; discriminate.
    - unfold fits. vm_compute. intros _. discriminate.
    - vm_compute. reflexivity. }
  split; [exact W|]. split; [reflexivity|].
  apply (X6_key_size_zero _ key_a key_b W). reflexivity.
Defined.

Lemma strlen_app_terminated pre rest :
  Forall (fun b => b <> x00) pre -> strlen (pre ++ x00 :: rest) = length pre.
Proof.
  induction 1 as [|b pre Hb _ IH]; [reflexivity|].
  cbn [app strlen length]. destruct (byte_eqb_spec b x00); [contradiction|].
  now rewrite IH.
Qed.

Lemma take_app_one pre (x : byte) rest :
  take (S (length pre)) (pre ++ x :: rest) = pre ++ [x].
Proof. induction pre as [|b pre IH]; simpl; [reflexivity|]. now rewrite <- IH. Qed.

(** X7: [copy_key] returns the block [malloc] gave it, filled with the bytes
    of the key up to and with the terminator (variable length) or with the
    first [key_size] bytes (fixed size); the copy is equal to the key and has
    its hash. *)
Theorem X7_copy_key (hm : hashmap_t) (k : block) (fresh : Z) :
  addr (copy_key hm k fresh) = fresh /\
  key_equals hm (copy_key hm k fresh) k = true /\
  key_equals hm k (copy_key hm k fresh) = true /\
  hash_key hm (copy_key hm k fresh) = hash_key hm k /\
  (key_size hm < 0 -> forall pre rest,
     Forall (fun b => b <> x00) pre -> bytes k = pre ++ x00 :: rest ->
     bytes (copy_key hm k fresh) = pre ++ [x00]) /\
  (0 <= key_size hm -> (Z.to_nat (key_size hm) <= length (bytes k))%nat ->
     bytes (copy_key hm k fresh) = firstn (Z.to_nat (key_size hm)) (bytes k)).
Proof.
  assert (Q : key_equals hm (copy_key hm k fresh) k = true).
  { apply key_equals_span. apply copy_key_span. }
  split; [unfold copy_key; now destruct (key_size hm <? 0)|].
  split; [exact Q|]. split; [now rewrite key_equals_sym|].
  split; [now apply key_equals_hash|]. split.
  - intros Hk pre rest Hpre Eb. unfold copy_key.
    destruct (Z.ltb_spec (key_size hm) 0); [|lia]. cbn [bytes].
    rewrite Eb, strlen_app_terminated by exact Hpre.
    apply take_app_one.
  - intros Hk Hl. unfold copy_key.
    destruct (Z.ltb_spec (key_size hm) 0); [lia|]. cbn [bytes].
    now apply take_firstn.
Qed.

(** the key "a" with a byte behind its terminator, copied to the address 100 *)
Lemma X7_copy_key_witness :
  key_size table_empty < 0 /\
  Forall (fun b => b <> x00) ["a"%byte] /\
  bytes (copy_key table_empty (mkblock 5 ["a"%byte; x00; "z"%byte]) 100) = ["a"%byte] ++ [x00] /\
  addr (copy_key table_empty (mkblock 5 ["a"%byte; x00; "z"%byte]) 100) = 100.
Proof.
  assert (H1 : key_size table_empty < 0) by reflexivity.
  assert (H2 : Forall (fun b => b <> x00) ["a"%byte]).
  { constructor; [discriminate|constructor]. }
  split; [exact H1|]. split; [exact H2|].
  destruct (X7_copy_key table_empty (mkblock 5 ["a"%byte; x00; "z"%byte]) 100)
    as [A [_ [_ [_ [V _]]]]].
  split; [exact (V H1 ["a"%byte] ["z"%byte] H2 eq_refl)|exact A].
Defined.

(** ** What the operations do to the stored pairs *)

Lemma copy_key_ext hm hm' k fresh :
  key_size hm' = key_size hm -> copy_key hm' k fresh = copy_key hm k fresh.
Proof. unfold copy_key. now intros ->. Qed.

Lemma set_contents hm k v fresh :
  WF hm -> fits hm ->
  exists hm' old fr rest,
    hashmap_set hm k v fresh = Some (hm', old, fr) /\
    WF hm' /\
    Permutation (contents hm')
      ((Some (if copy_keys hm then copy_key hm k fresh else k), v) :: rest) /\
    ((absent hm k /\ Permutation (contents hm) rest /\ old = 0 /\ fr = []) \/
     (exists o, key_equals hm k o = true /\
                Permutation (contents hm) ((Some o, old) :: rest) /\
                fr = if copy_keys hm then [addr o] else [])).
Proof.
  intros W F.
  destruct (set_spec hm k v fresh W F) as [hm' [old [fr [E' [W' _]]]]].
  destruct (grow_spec hm W F) as [hm1 [G [Hok1 [A1 [M1 [K1 [C1 [S1 [P1 L1]]]]]]]]].
  destruct (same_contents hm hm1 K1 P1) as [_ Ha].
  set (k' := if copy_keys hm1 then copy_key hm1 k fresh else k).
  assert (Ek' : key_span hm1 k' = key_span hm1 k) by apply set_key_span.
  assert (Hroom : size hm1 < alloc_size hm1).
  { rewrite shiftr_1 in L1. pose proof (ok_pos hm1 Hok1).
    assert (alloc_size hm1 / 2 <= alloc_size hm1) by (apply Z.div_le_upper_bound; lia).
    lia. }
  destruct (set_lower_spec hm1 Hok1 Hroom k' v)
    as [r [br [hm2 [Er [E [Hok2 [_ [_ [_ [_ [_ [St [rest [Q1 Q2]]]]]]]]]]]]]].
  assert (Es : hashmap_set hm k v fresh =
               Some (hm2, (if filled br then value br else 0),
                     (if filled br && copy_keys hm1 then free_key (key br) else []))).
  { unfold hashmap_set. rewrite G. fold k'. rewrite E. now rewrite app_nil_l. }
  rewrite Es in E'. injection E' as <- <- <-.
  assert (Ekk : k' = if copy_keys hm then copy_key hm k fresh else k).
  { unfold k'. rewrite C1. now rewrite (copy_key_ext hm hm1) by exact K1. }
  exists hm2, (if filled br then value br else 0),
         (if filled br && copy_keys hm1 then free_key (key br) else []),
         (map entry_kv rest).
  split; [exact Es|]. split; [exact W'|]. split.
  { rewrite <- Ekk. unfold contents. rewrite (Permutation_map entry_kv Q2). reflexivity. }
  destruct St as [[Fb A]|[Fb [_ [o [Ko Q]]]]]; rewrite Fb in *; cbn [andb app] in *.
  - left. split; [|split; [|auto]].
    + apply Ha. apply (absent_span hm1 k' k Ek' A).
    + rewrite <- P1. unfold contents. now apply Permutation_map.
  - right. exists o. split; [|split].
    + rewrite <- (key_equals_ext hm hm1) by exact K1.
      rewrite <- (key_equals_span_l hm1 k' k o Ek'). exact Q.
    + rewrite <- P1. unfold contents. rewrite (Permutation_map entry_kv Q1).
      cbn [map]. unfold entry_kv at 1. now rewrite Ko.
    + rewrite C1, Ko. reflexivity.
Qed.

(** X8: [hashmap_set] replaces the pair stored under the key, if there is
    one, by the pair of the pointer it keeps and the new value, and leaves
    all other pairs as they are, pointers included. The pointer it keeps is
    the copy when the table copies keys and the pointer of the caller
    otherwise; the old value is returned, and the old copy is freed. *)
Theorem X8_set_pairs (hm : hashmap_t) (k : block) (v fresh : Z) :
  WF hm -> fits hm ->
  exists hm' old fr rest,
    hashmap_set hm k v fresh = Some (hm', old, fr) /\
    Permutation (contents hm')
      ((Some (if copy_keys hm then copy_key hm k fresh else k), v) :: rest) /\
    ((hashmap_has hm k = Some false /\
      Permutation (contents hm) rest /\ old = 0 /\ fr = []) \/
     (exists o, hashmap_has hm k = Some true /\ key_equals hm k o = true /\
                Permutation (contents hm) ((Some o, old) :: rest) /\
                fr = if copy_keys hm then [addr o] else [])).
Proof.
  intros W F. pose proof (wf_ok hm W) as Hok. pose proof (WF_room hm W) as Hroom.
  destruct (set_contents hm k v fresh W F) as [hm' [old [fr [rest [E [_ [P D]]]]]]].
  exists hm', old, fr, rest. split; [exact E|]. split; [exact P|].
  destruct D as [[A [P0 [O Fr]]]|[o [Q [P0 Fr]]]].
  - left. split; [apply (get_absent hm Hok Hroom k A)|auto].
  - right. exists o. split; [|auto].
    apply (get_holds hm Hok Hroom k old). apply holds_contents. exists o.
    split; [|exact Q]. apply (Permutation_in _ (Permutation_sym P0)). now left.
Qed.

Lemma X8_set_pairs_witness :
  WF table_abc /\ fits table_abc /\
  exists hm' old fr rest,
    hashmap_set table_abc key_b 12 105 = Some (hm', old, fr) /\
    Permutation (contents hm')
      ((Some (if copy_keys table_abc then copy_key table_abc key_b 105 else key_b), 12)
       :: rest) /\
    ((hashmap_has table_abc key_b = Some false /\
      Permutation (contents table_abc) rest /\ old = 0 /\ fr = []) \/
     (exists o, hashmap_has table_abc key_b = Some true /\
                key_equals table_abc key_b o = true /\
                Permutation (contents table_abc) ((Some o, old) :: rest) /\
                fr = if copy_keys table_abc then [addr o] else [])).
Proof.
  split; [exact table_abc_WF|]. split; [exact table_abc_fits|].
  apply (X8_set_pairs table_abc key_b 12 105).
  - exact table_abc_WF.
  - exact table_abc_fits.
Defined.

Lemma remove_contents hm k :
  WF hm ->
  exists hm' v fr,
    hashmap_remove hm k = Some (hm', v, fr) /\
    WF hm' /\
    ((absent hm k /\ hm' = hm /\ v = 0 /\ fr = []) \/
     (exists o, key_equals hm k o = true /\
                Permutation (contents hm) ((Some o, v) :: contents hm') /\
                fr = if copy_keys hm then [addr o] else [])).
Proof.
  intros W. pose proof (wf_ok hm W) as Hok. pose proof (WF_room hm W) as Hroom.
  destruct (remove_spec hm k W) as [hm' [v [fr [E' [W' _]]]]].
  exists hm', v, fr. split; [exact E'|]. split; [exact W'|].
  destruct (lookup_spec hm Hok Hroom k) as [r [br [G [Er [St _]]]]].
  unfold hashmap_remove in E'. rewrite G, Er in E'.
  destruct St as [[F A]|[F [_ [o [Ko Q]]]]]; rewrite F in E'.
  - injection E' as <- <- <-. left. auto.
  - right. exists o. split; [exact Q|].
    destruct (remove_core hm r br Hok Hroom Er F)
      as [hm1 [last [lb [R [El [Hok3 [S3 [M3 [A3 [K3 [C3 P3]]]]]]]]]]].
    rewrite R, El in E'. cbv zeta in *.
    set (hm3 := set_size (set_buckets hm1 (store_at (buckets hm1) last
                 (mkbucket false (desired_idx lb) (hash lb) (key lb) (value lb))))
                 (to_size (size hm1 - 1))) in *.
    repeat match type of E' with context [set_size ?a ?b] =>
      change (set_size a b) with hm3 in E' end.
    destruct (shrink_spec hm3 Hok3) as [hm4 [Sh [_ [_ [_ [_ [_ [_ P4]]]]]]]].
    { rewrite M3. apply (wf_min hm W). }
    { rewrite A3, M3. apply (wf_cap hm W). }
    { rewrite A3, S3. pose proof (wf_load hm W). lia. }
    assert (Hres : hm' = hm4 /\ v = value br /\
                   fr = if copy_keys hm then free_key (key br) else []).
    { destruct (size hm3 <? Z.shiftr (alloc_size hm3) 2).
      - rewrite Sh in E'. rewrite app_nil_r in E'. injection E' as <- <- <-. auto.
      - injection Sh as <-. injection E' as <- <- <-. auto. }
    destruct Hres as [-> [-> ->]]. split.
    + rewrite P4. unfold contents. rewrite <- (Permutation_map entry_kv P3).
      cbn [map]. unfold entry_kv at 1. now rewrite Ko.
    + now rewrite Ko.
Qed.

(** X9: [hashmap_remove] of a key that is stored returns its value and takes
    its pair out; all other pairs stay, pointers included, also across the
    rehash of a shrink. In a table that copies keys the copy is freed;
    otherwise nothing is. *)
Theorem X9_remove_pairs (hm : hashmap_t) (k : block) :
  WF hm -> hashmap_has hm k = Some true ->
  exists hm' v fr o,
    hashmap_remove hm k = Some (hm', v, fr) /\
    key_equals hm k o = true /\
    Permutation (contents hm) ((Some o, v) :: contents hm') /\
    hashmap_get hm k = Some v /\
    fr = if copy_keys hm then [addr o] else [].
Proof.
  intros W H. pose proof (wf_ok hm W) as Hok. pose proof (WF_room hm W) as Hroom.
  destruct (remove_contents hm k W) as [hm' [v [fr [E [_ D]]]]].
  destruct D as [[A _]|[o [Q [P Fr]]]].
  - destruct (get_absent hm Hok Hroom k A) as [_ [_ Hf]]. congruence.
  - exists hm', v, fr, o. split; [exact E|]. split; [exact Q|]. split; [exact P|].
    split; [|exact Fr].
    apply (get_holds hm Hok Hroom k v). apply holds_contents. exists o.
    split; [|exact Q]. apply (Permutation_in _ (Permutation_sym P)). now left.
Qed.

Lemma X9_remove_pairs_witness :
  WF table_abcd_wide /\ hashmap_has table_abcd_wide key_d = Some true /\
  exists hm' v fr o,
    hashmap_remove table_abcd_wide key_d = Some (hm', v, fr) /\
    key_equals table_abcd_wide key_d o = true /\
    Permutation (contents table_abcd_wide) ((Some o, v) :: contents hm') /\
    hashmap_get table_abcd_wide key_d = Some v /\
    fr = if copy_keys table_abcd_wide then [addr o] else [].
Proof.
  assert (H : hashmap_has table_abcd_wide key_d = Some true) by (vm_compute; reflexivity).
  split; [exact table_abcd_wide_WF|]. split; [exact H|].
  apply (X9_remove_pairs table_abcd_wide key_d table_abcd_wide_WF H).
Defined.

(** ** Other keys *)

(** X10: [hashmap_set] of a key changes no lookup of another key: what
    [hashmap_may_get], [hashmap_get] and [hashmap_has] return for a key that
    is not equal to it, stored or not, is what they returned before, also
    when the table grows. *)
Theorem X10_set_frame (hm : hashmap_t) (k : block) (v fresh : Z) :
  WF hm -> fits hm ->
  exists hm' old fr,
    hashmap_set hm k v fresh = Some (hm', old, fr) /\
    forall k', key_equals hm k' k = false ->
      hashmap_may_get hm' k' = hashmap_may_get hm k' /\
      hashmap_get hm' k' = hashmap_get hm k' /\
      hashmap_has hm' k' = hashmap_has hm k'.
Proof.
  intros W F.
  destruct (set_spec hm k v fresh W F) as [hm' [old [fr [E [W' [_ [_ [_ [_ [_ [Hh _]]]]]]]]]]].
  exists hm', old, fr. split; [exact E|]. intros k' N.
  apply lookup_ext;
    [apply (wf_ok _ W')|apply (WF_room _ W')|apply (wf_ok _ W)|apply (WF_room _ W)|].
  intros v'. apply Hh. exact N.
Qed.

(** the fifth key makes the table grow *)
Lemma X10_set_frame_witness :
  WF table_abcd /\ fits table_abcd /\
  exists hm' old fr,
    hashmap_set table_abcd key_e 11 104 = Some (hm', old, fr) /\
    forall k', key_equals table_abcd k' key_e = false ->
      hashmap_may_get hm' k' = hashmap_may_get table_abcd k' /\
      hashmap_get hm' k' = hashmap_get table_abcd k' /\
      hashmap_has hm' k' = hashmap_has table_abcd k'.
Proof.
  split; [exact table_abcd_WF|]. split; [exact table_abcd_fits|].
  apply (X10_set_frame table_abcd key_e 11 104).
  - exact table_abcd_WF.
  - exact table_abcd_fits.
Defined.

(** X11: after [hashmap_remove] of a key, stored or not, the key is not
    found, a second [hashmap_remove] of it returns null and changes nothing,
    and the lookups of every other key return what they returned before. *)
Theorem X11_remove_frame (hm : hashmap_t) (k : block) :
  WF hm ->
  exists hm' v fr,
    hashmap_remove hm k = Some (hm', v, fr) /\
    hashmap_has hm' k = Some false /\
    hashmap_get hm' k = Some 0 /\
    hashmap_remove hm' k = Some (hm', 0, []) /\
    forall k', key_equals hm k' k = false ->
      hashmap_may_get hm' k' = hashmap_may_get hm k' /\
      hashmap_get hm' k' = hashmap_get hm k' /\
      hashmap_has hm' k' = hashmap_has hm k'.
Proof.
  intros W.
  destruct (remove_spec hm k W) as [hm' [v [fr [E [W' [_ [K [_ [Hh [_ D]]]]]]]]]].
  exists hm', v, fr. split; [exact E|].
  pose proof (wf_ok hm' W') as Hok'. pose proof (WF_room hm' W') as Hroom'.
  assert (A : absent hm' k).
  { destruct D as [[A [-> _]]|[_ [A _]]]; exact A. }
  destruct (get_absent hm' Hok' Hroom' k A) as [G [_ H]].
  destruct (absent_lookup hm' Hok' Hroom' k A) as [r [br [Gi [Er F]]]].
  split; [exact H|]. split; [exact G|].
  split; [unfold hashmap_remove; now rewrite Gi, Er, F|].
  intros k' N.
  apply lookup_ext;
    [exact Hok'|exact Hroom'|apply (wf_ok _ W)|apply (WF_room _ W)|].
  intros v'. apply Hh. exact N.
Qed.

Lemma X11_remove_frame_witness :
  WF table_abc /\
  exists hm' v fr,
    hashmap_remove table_abc key_b = Some (hm', v, fr) /\
    hashmap_has hm' key_b = Some false /\
    hashmap_get hm' key_b = Some 0 /\
    hashmap_remove hm' key_b = Some (hm', 0, []) /\
    forall k', key_equals table_abc k' key_b = false ->
      hashmap_may_get hm' k' = hashmap_may_get table_abc k' /\
      hashmap_get hm' k' = hashmap_get table_abc k' /\
      hashmap_has hm' k' = hashmap_has table_abc k'.
Proof.
  split; [exact table_abc_WF|].
  apply (X11_remove_frame table_abc key_b table_abc_WF).
Defined.

Lemma NoDup_map_same (A B : Type) (f : A -> B) (l : list A) x y :
  NoDup (map f l) -> In x l -> In y l -> f x = f y -> x = y.
Proof.
  induction l as [|a l IH]; intros ND Hx Hy E; [contradiction|].
  cbn [map] in ND. inversion ND as [|? ? Hnot ND']; subst.
  destruct Hx as [<-|Hx], Hy as [<-|Hy]; auto.
  - exfalso. apply Hnot. rewrite E. now apply in_map.
  - exfalso. apply Hnot. rewrite <- E. now apply in_map.
Qed.

(** two stored pairs with equal keys are one pair *)
Lemma contents_same_key hm o o' v v' :
  table_ok hm ->
  In (Some o, v) (contents hm) -> In (Some o', v') (contents hm) ->
  key_equals hm o o' = true -> (Some o, v) = (Some o', v').
Proof.
  intros Hok H H' Q. unfold contents in *.
  apply in_map_iff in H. destruct H as [b [E Hb]].
  apply in_map_iff in H'. destruct H' as [b' [E' Hb']].
  assert (b = b').
  { apply (NoDup_map_same _ _ (span_of hm) (entries hm)); auto using ok_distinct.
    unfold entry_kv in E, E'. injection E as Ko _. injection E' as Ko' _.
    unfold span_of. rewrite Ko, Ko'. now apply key_equals_span. }
  subst b'. congruence.
Qed.

(** X12: a key that is not stored is set and then removed: the removal
    returns the value that was set, the table holds the pairs it held before,
    its count is the one of before, every lookup returns what it returned
    before, and in a table that copies keys the copy made by the set is the
    one address freed. *)
Theorem X12_set_then_remove (hm : hashmap_t) (k : block) (v fresh : Z) :
  WF hm -> fits hm -> hashmap_has hm k = Some false ->
  exists hm1 hm2 fr,
    hashmap_set hm k v fresh = Some (hm1, 0, []) /\
    hashmap_remove hm1 k = Some (hm2, v, fr) /\
    fr = (if copy_keys hm then [fresh] else []) /\
    Permutation (contents hm2) (contents hm) /\
    hashmap_size hm2 = hashmap_size hm /\
    forall k', hashmap_may_get hm2 k' = hashmap_may_get hm k' /\
               hashmap_get hm2 k' = hashmap_get hm k'.
Proof.
  intros W F H. pose proof (wf_ok hm W) as Hok. pose proof (WF_room hm W) as Hroom.
  apply (has_absent hm Hok Hroom) in H.
  destruct (set_contents hm k v fresh W F) as [hm1 [old [fr1 [rest [E1 [W1 [P1 D1]]]]]]].
  destruct D1 as [[_ [P0 [-> ->]]]|[o [Q [P0 _]]]].
  2:{ exfalso. apply (holds_not_absent hm k old); [|exact H].
      apply holds_contents. exists o. split; [|exact Q].
      apply (Permutation_in _ (Permutation_sym P0)). now left. }
  destruct (set_spec hm k v fresh W F)
    as [hm1' [old' [fr' [E1' [_ [_ [_ [K1 [C1 [Hk _]]]]]]]]]].
  rewrite E1 in E1'. injection E1' as <- <- <-.
  destruct (remove_contents hm1 k W1) as [hm2 [v2 [fr2 [E2 [W2 D2]]]]].
  destruct D2 as [[A _]|[o [Q [P2 Fr]]]].
  { exfalso. eapply holds_not_absent; eauto. }
  set (k' := if copy_keys hm then copy_key hm k fresh else k) in *.
  assert (Qk : key_equals hm1 k' o = true).
  { rewrite <- Q. apply key_equals_span_l.
    rewrite !(key_span_ext hm hm1) by exact K1. apply set_key_span. }
  assert (Epair : (Some k', v) = (Some o, v2)).
  { apply (contents_same_key hm1); auto using wf_ok.
    - apply (Permutation_in _ (Permutation_sym P1)). now left.
    - apply (Permutation_in _ (Permutation_sym P2)). now left. }
  injection Epair as <- <-.
  assert (Pc : Permutation (contents hm2) (contents hm)).
  { rewrite P0. apply Permutation_cons_inv with (a := (Some k', v)).
    rewrite <- P1. symmetry. exact P2. }
  assert (K2 : key_size hm2 = key_size hm).
  { destruct (remove_spec hm1 k W1) as [h [x [y [E [_ [_ [K _]]]]]]].
    rewrite E2 in E. injection E as <- _ _. congruence. }
  exists hm1, hm2, fr2. split; [exact E1|]. split; [exact E2|]. split.
  - rewrite Fr, C1. unfold k'. destruct (copy_keys hm); [|reflexivity].
    unfold copy_key. now destruct (key_size hm <? 0).
  - split; [exact Pc|]. split.
    + unfold hashmap_size.
      rewrite (ok_size hm2 (wf_ok hm2 W2)), (ok_size hm Hok).
      fold (contents hm2) in Pc.
      pose proof (Permutation_length Pc) as L. unfold contents in L.
      rewrite !length_map in L. now rewrite L.
    + intros k0. destruct (same_contents hm hm2 K2 Pc) as [Hh _].
      destruct (lookup_ext hm2 hm k0 (wf_ok _ W2) (WF_room _ W2) Hok Hroom
                           (fun v0 => Hh k0 v0)) as [M [G _]].
      auto.
Qed.

Lemma X12_set_then_remove_witness :
  WF table_abcd /\ fits table_abcd /\ hashmap_has table_abcd key_e = Some false /\
  exists hm1 hm2 fr,
    hashmap_set table_abcd key_e 11 104 = Some (hm1, 0, []) /\
    hashmap_remove hm1 key_e = Some (hm2, 11, fr) /\
    fr = (if copy_keys table_abcd then [104] else []) /\
    Permutation (contents hm2) (contents table_abcd) /\
    hashmap_size hm2 = hashmap_size table_abcd /\
    forall k', hashmap_may_get hm2 k' = hashmap_may_get table_abcd k' /\
               hashmap_get hm2 k' = hashmap_get table_abcd k'.
Proof.
  assert (H : hashmap_has table_abcd key_e = Some false) by (vm_compute; reflexivity).
  split; [exact table_abcd_WF|]. split; [exact table_abcd_fits|]. split; [exact H|].
  apply (X12_set_then_remove table_abcd key_e 11 104 table_abcd_WF table_abcd_fits H).
Defined.

(** ** Who frees a key *)

Lemma held_perm hm l :
  Permutation (contents hm) l -> Permutation (held hm) (flat_map (fun p => free_key (fst p)) l).
Proof. intros P. unfold held. now rewrite P. Qed.

Lemma set_balance hm k v fresh hm' old fr :
  WF hm -> fits hm ->
  hashmap_set hm k v fresh = Some (hm', old, fr) ->
  (copy_keys hm = true -> Permutation (fresh :: held hm) (fr ++ held hm')) /\
  (copy_keys hm = false -> fr = []).
Proof.
  intros W F E.
  destruct (set_contents hm k v fresh W F) as [hm1 [old1 [fr1 [rest [E1 [_ [P D]]]]]]].
  rewrite E in E1. injection E1 as <- <- <-.
  apply held_perm in P. cbn [flat_map fst free_key app] in P.
  split.
  - intros C. rewrite C in *.
    assert (A : addr (copy_key hm k fresh) = fresh).
    { unfold copy_key. now destruct (key_size hm <? 0). }
    rewrite A in P.
    destruct D as [[_ [P0 [_ ->]]]|[o [_ [P0 ->]]]]; apply held_perm in P0.
    + cbn [app]. rewrite P, P0. reflexivity.
    + cbn [flat_map fst free_key app] in P0. cbn [app].
      rewrite P, P0. apply perm_swap.
  - intros C. rewrite C in *. destruct D as [[_ [_ [_ ->]]]|[o [_ [_ ->]]]]; reflexivity.
Qed.

Lemma remove_balance hm k hm' v fr :
  WF hm ->
  hashmap_remove hm k = Some (hm', v, fr) ->
  (copy_keys hm = true -> Permutation (held hm) (fr ++ held hm')) /\
  (copy_keys hm = false -> fr = []).
Proof.
  intros W E.
  destruct (remove_contents hm k W) as [hm1 [v1 [fr1 [E1 [_ D]]]]].
  rewrite E in E1. injection E1 as <- <- <-.
  split.
  - intros C. rewrite C in *. destruct D as [[_ [-> [_ ->]]]|[o [_ [P ->]]]].
    + reflexivity.
    + apply held_perm in P. cbn [flat_map fst free_key app] in P. exact P.
  - intros C. rewrite C in *. destruct D as [[_ [_ [_ ->]]]|[o [_ [_ ->]]]]; reflexivity.
Qed.

Lemma run_reachable initial_size ks ck hm allocated freed :
  run initial_size ks ck hm allocated freed -> reachable initial_size ks ck hm.
Proof.
  induction 1.
  - now apply reach_create.
  - eapply reach_set; eauto.
  - eapply reach_remove; eauto.
Qed.

(** X13: along any run of [hashmap_set] and [hashmap_remove] on a new table
    that copies its keys, every block [copy_key] obtained has been freed
    once or is the key of one filled bucket, and nothing else was freed:
    the allocated addresses are, up to order, the freed ones and the held
    ones. In a table that does not copy keys nothing is allocated and
    nothing is freed. *)
Theorem X13_key_ownership (initial_size ks : Z) (ck : bool) (hm : hashmap_t)
        (allocated freed : list Z) :
  run initial_size ks ck hm allocated freed ->
  (ck = true -> Permutation allocated (freed ++ held hm)) /\
  (ck = false -> allocated = [] /\ freed = []).
Proof.
  induction 1 as [H0 Hm|hm al fd k v fresh hm' old fr R IH F E|hm al fd k hm' v fr R IH E].
  - split; [|auto]. intros _. unfold held, contents, entries, hashmap_create.
    cbn [buckets]. now rewrite filter_calloc.
  - destruct (reachable_WF _ _ _ _ (run_reachable _ _ _ _ _ _ R)) as [W [_ [_ C]]].
    destruct (set_balance hm k v fresh hm' old fr W F E) as [B1 B2].
    destruct IH as [I1 I2]. split.
    + intros ->. rewrite (I1 eq_refl). rewrite <- app_assoc.
      rewrite (Permutation_app_comm fd (held hm')).
      rewrite app_assoc, <- (B1 C). cbn [app].
      apply Permutation_cons; [reflexivity|]. apply Permutation_app_comm.
    + intros ->. destruct (I2 eq_refl) as [-> ->]. now rewrite (B2 C).
  - destruct (reachable_WF _ _ _ _ (run_reachable _ _ _ _ _ _ R)) as [W [_ [_ C]]].
    destruct (remove_balance hm k hm' v fr W E) as [B1 B2].
    destruct IH as [I1 I2]. split.
    + intros ->. rewrite (I1 eq_refl). rewrite (B1 C).
      rewrite <- !app_assoc. rewrite (Permutation_app_comm fd (fr ++ held hm')).
      rewrite <- app_assoc. apply Permutation_app_head. apply Permutation_app_comm.
    + intros ->. destruct (I2 eq_refl) as [-> ->]. now rewrite (B2 C).
Qed.

(** "a" is set, set again and removed, "i" is set: 100, 103 and 101 were
    allocated *)
Lemma X13_key_ownership_witness :
  exists hm,
    run 8 (-1) true hm [101; 103; 100] [103; 100] /\
    (true = true -> Permutation [101; 103; 100] ([103; 100] ++ held hm)) /\
    (true = false -> [101; 103; 100] = [] /\ [103; 100] = []).
Proof.
  exists (after_set (after_remove (after_set table_a key_a 8 103) key_a) key_i 9 101).
  assert (R : run 8 (-1) true
                (after_set (after_remove (after_set table_a key_a 8 103) key_a) key_i 9 101)
                [101; 103; 100] [103; 100]).
  { apply (run_set 8 (-1) true (after_remove (after_set table_a key_a 8 103) key_a)
             [103; 100] [103; 100] key_i 9 101 _ 0 []).
    - apply (run_remove 8 (-1) true (after_set table_a key_a 8 103)
               [103; 100] [100] key_a _ 8 [103]).
      + apply (run_set 8 (-1) true table_a [100] [] key_a 8 103 _ 7 [100]).
        * apply (run_set 8 (-1) true table_empty [] [] key_a 7 100 _ 0 []).
          -- apply run_create; vm_compute; discriminate.
          -- unfold fits. vm_compute. intros _. discriminate.
          -- vm_compute. reflexivity.
        * unfold fits. vm_compute. intros _. discriminate.
        * vm_compute. reflexivity.
      + vm_compute. reflexivity.
    - unfold fits. vm_compute. intros _. discriminate.
    - vm_compute. reflexivity. }
  split; [exact R|].
  apply (X13_key_ownership 8 (-1) true _ [101; 103; 100] [103; 100] R).
Defined.

(** ** Teardown of a table that was never removed from *)

Lemma In_upd bs i b x : In x (upd bs i b) -> x = b \/ In x bs.
Proof.
  revert i. induction bs as [|a bs IH]; intros i H; [destruct i; contradiction|].
  destruct i; simpl in H.
  - destruct H; [left; congruence|right; now right].
  - destruct H as [<-|H]; [right; now left|].
    destruct (IH i H); [now left|right; now right].
Qed.

Lemma set_lower_clean hm k v h hm' old fr :
  hashmap_set_lower hm k v h = Some (hm', old, fr) -> clean hm -> clean hm'.
Proof.
  unfold hashmap_set_lower.
  destruct (get_bucket_index hm k h) as [i|]; [|discriminate].
  destruct (bucket_at (buckets hm) i) as [b|]; [|discriminate].
  intros E C. injection E as <- _ _. intros x Hx Fx.
  cbn [buckets set_size set_buckets] in Hx. apply In_upd in Hx.
  destruct Hx as [->|Hx]; [discriminate|now apply C].
Qed.

Lemma rehash_loop_clean old : forall hm fr hm' fr',
  rehash_loop old hm fr = Some (hm', fr') -> clean hm -> clean hm'.
Proof.
  induction old as [|b old IH]; intros hm fr hm' fr' E C; cbn [rehash_loop] in E.
  - now injection E as <- _.
  - destruct (filled b); [|now apply (IH hm fr hm' fr')].
    destruct (hashmap_set_lower hm (key b) (value b) (hash b)) as [[[hm1 o] f]|] eqn:S;
      [|discriminate].
    apply (IH hm1 (fr ++ f) hm' fr' E). eapply set_lower_clean; eauto.
Qed.

Lemma calloc_clean n m a ks ck : clean (mkhmap (calloc n) 0 m a ks ck).
Proof.
  intros b Hb _. cbn [buckets] in Hb. unfold calloc in Hb.
  apply repeat_spec in Hb. now subst b.
Qed.

Lemma rehash_clean hm new_size hm' fr :
  rehash hm new_size = Some (hm', fr) ->
  clean hm \/ min_size hm <= new_size -> clean hm'.
Proof.
  unfold rehash. destruct (Z.ltb_spec new_size (min_size hm)); intros E H'.
  - injection E as <- _. destruct H'; [assumption|lia].
  - eapply rehash_loop_clean; [exact E|apply calloc_clean].
Qed.

Lemma set_clean hm k v fresh hm' old fr :
  hashmap_set hm k v fresh = Some (hm', old, fr) -> clean hm -> clean hm'.
Proof.
  unfold hashmap_set. intros E C.
  destruct (if size hm >=? Z.shiftr (alloc_size hm) 1
            then rehash hm (to_size (Z.shiftl (alloc_size hm) 1))
            else Some (hm, [])) as [[hm1 fr1]|] eqn:G; [|discriminate].
  assert (C1 : clean hm1).
  { destruct (size hm >=? Z.shiftr (alloc_size hm) 1).
    - eapply rehash_clean; eauto.
    - now injection G as <- _. }
  destruct (hashmap_set_lower hm1 _ v _) as [[[hm2 o] f]|] eqn:S; [|discriminate].
  injection E as <- _ _. eapply set_lower_clean; eauto.
Qed.

Lemma built_clean initial_size ks ck hm : built initial_size ks ck hm -> clean hm.
Proof.
  induction 1 as [|hm k v fresh hm' old fr B IH E].
  - apply calloc_clean.
  - eapply set_clean; eauto.
Qed.

Lemma flat_map_free_clean (l : list hashbucket_t) :
  (forall b, In b l -> filled b = false -> key b = None) ->
  flat_map (fun b => free_key (key b)) l =
  flat_map (fun p => free_key (fst p)) (map entry_kv (filter filled l)).
Proof.
  induction l as [|b l IH]; intros C; [reflexivity|].
  cbn [flat_map filter]. rewrite IH by (intros x Hx; apply C; now right).
  destruct (filled b) eqn:F.
  - reflexivity.
  - rewrite (C b (or_introl eq_refl) F). reflexivity.
Qed.

Lemma destroy_clean hm dv :
  clean hm ->
  hashmap_destroy hm dv =
  (if dv then map snd (contents hm) else []) ++ (if copy_keys hm then held hm else []).
Proof.
  intros C. unfold hashmap_destroy, held, contents, entries.
  rewrite (flat_map_free_clean (buckets hm) C).
  rewrite map_map. reflexivity.
Qed.

(** X14: for a table built by [hashmap_create] and [hashmap_set] alone, no
    vacant bucket holds a key pointer, whether the table copies keys or not,
    and [hashmap_destroy] frees the value of each stored pair once, when
    asked to, and then, when the table copies keys, the key of each stored
    pair once, in array order; it frees nothing else. *)
Theorem X14_destroy_after_sets (initial_size ks : Z) (ck dv : bool) (hm : hashmap_t) :
  built initial_size ks ck hm ->
  (forall b, In b (buckets hm) -> filled b = false -> key b = None) /\
  hashmap_destroy hm dv =
  (if dv then map snd (contents hm) else []) ++ (if copy_keys hm then held hm else []).
Proof.
  intros B. pose proof (built_clean _ _ _ _ B) as C.
  split; [exact C|]. now apply destroy_clean.
Qed.

Lemma X14_destroy_after_sets_witness :
  built 8 (-1) true table_abc /\
  (forall b, In b (buckets table_abc) -> filled b = false -> key b = None) /\
  hashmap_destroy table_abc true =
  (if true then map snd (contents table_abc) else []) ++
  (if copy_keys table_abc then held table_abc else []).
Proof.
  assert (B : built 8 (-1) true table_abc).
  { apply (built_set 8 (-1) true (after_set table_a key_b 8 101) key_c 9 102 _ 0 []).
    - apply (built_set 8 (-1) true table_a key_b 8 101 _ 0 []).
      + apply (built_set 8 (-1) true table_empty key_a 7 100 _ 0 []).
        * apply built_create.
        * vm_compute. reflexivity.
      + vm_compute. reflexivity.
    - vm_compute. reflexivity. }
  split; [exact B|].
  apply (X14_destroy_after_sets 8 (-1) true true table_abc B).
Defined.

(** ** rehash *)

(** X15: [rehash] to a size below the minimum returns at once. To any other
    size that an [int] can index and that exceeds the count, it returns a
    table of that capacity with the pairs of before, pointers included, and
    the same count; it frees nothing, every lookup returns what it returned
    before, every filled bucket is reached from its desired index, and no
    vacant bucket of the new array holds a key pointer. *)
Theorem X15_rehash (hm : hashmap_t) (new_size : Z) :
  WF hm ->
  (new_size < min_size hm -> rehash hm new_size = Some (hm, [])) /\
  (min_size hm <= new_size <= INT_MAX -> hashmap_size hm < new_size ->
   exists hm',
     rehash hm new_size = Some (hm', []) /\
     alloc_size hm' = new_size /\ min_size hm' = min_size hm /\
     hashmap_size hm' = hashmap_size hm /\
     Permutation (contents hm') (contents hm) /\
     probe_chain hm' /\ clean hm' /\
     forall k, hashmap_may_get hm' k = hashmap_may_get hm k /\
               hashmap_get hm' k = hashmap_get hm k).
Proof.
  intros W. pose proof (wf_ok hm W) as Hok. pose proof (WF_room hm W) as Hroom.
  pose proof (wf_min hm W) as H8. unfold MIN_HASHMAP_SIZE in H8. split.
  - intros L. unfold rehash. destruct (Z.ltb_spec new_size (min_size hm)); [reflexivity|lia].
  - intros Hn Hs. unfold hashmap_size in *.
    destruct (rehash_spec hm new_size Hok) as [hm' [R [Hok' [M [A [K [C [S P]]]]]]]];
      try lia.
    exists hm'. split; [exact R|]. repeat (split; [assumption|]).
    split; [now apply chain_probe_chain|].
    split; [eapply rehash_clean; [exact R|right; lia]|].
    intros k. destruct (same_contents hm hm' K P) as [Hh _].
    assert (Hroom' : size hm' < alloc_size hm') by lia.
    destruct (lookup_ext hm' hm k Hok' Hroom' Hok Hroom (fun v => Hh k v)) as [Mg [G _]].
    auto.
Qed.

(** the table of three keys and capacity 8, rehashed to 11 buckets *)
Lemma X15_rehash_witness :
  WF table_abc /\
  (0 < min_size table_abc -> rehash table_abc 0 = Some (table_abc, [])) /\
  (min_size table_abc <= 11 <= INT_MAX -> hashmap_size table_abc < 11 ->
   exists hm',
     rehash table_abc 11 = Some (hm', []) /\
     alloc_size hm' = 11 /\ min_size hm' = min_size table_abc /\
     hashmap_size hm' = hashmap_size table_abc /\
     Permutation (contents hm') (contents table_abc) /\
     probe_chain hm' /\ clean hm' /\
     forall k, hashmap_may_get hm' k = hashmap_may_get table_abc k /\
               hashmap_get hm' k = hashmap_get table_abc k).
Proof.
  split; [exact table_abc_WF|]. split.
  - apply (proj1 (X15_rehash table_abc 0 table_abc_WF)).
  - apply (proj2 (X15_rehash table_abc 11 table_abc_WF)).
Defined.

(** ** What every bucket of a reachable table records *)

(** X16: in every table reached by [hashmap_create], [hashmap_set] and
    [hashmap_remove], a filled bucket holds a key that is not null, the hash
    of that key, and as desired index that hash modulo the capacity of the
    moment, an index of the array; no two filled buckets hold equal keys, and
    the array has [alloc_size] buckets. *)
Theorem X16_bucket_records (initial_size ks : Z) (ck : bool) (hm : hashmap_t) :
  reachable initial_size ks ck hm ->
  (forall i b, bucket_at (buckets hm) i = Some b -> filled b = true ->
     exists o, key b = Some o /\ hash b = hash_key hm o /\
               desired_idx b = hash_key hm o mod alloc_size hm /\
               0 <= desired_idx b < alloc_size hm) /\
  (forall i j b b' o o',
     bucket_at (buckets hm) i = Some b -> bucket_at (buckets hm) j = Some b' ->
     filled b = true -> filled b' = true ->
     key b = Some o -> key b' = Some o' ->
     key_equals hm o o' = true -> i = j) /\
  Z.of_nat (length (buckets hm)) = alloc_size hm /\
  key_size hm = ks /\ copy_keys hm = ck.
Proof.
  intros R. destruct (reachable_WF _ _ _ _ R) as [W [_ [K C]]].
  pose proof (wf_ok hm W) as Hok. split; [|split; [|split; [apply (ok_len hm Hok)|auto]]].
  - intros i b Eb Fb. destruct (ok_keyed hm Hok i b Eb Fb) as [o [Ko [Hh D]]].
    exists o. split; [exact Ko|]. split; [exact Hh|]. rewrite <- Hh.
    split; [exact D|]. rewrite D. apply home_range. apply (ok_pos hm Hok).
  - intros i j b b' o o' Eb Eb' Fb Fb' Ko Ko' Q.
    apply (distinct_index hm i j b b' (ok_distinct hm Hok) Eb Eb' Fb Fb').
    unfold span_of. rewrite Ko, Ko'. now apply key_equals_span.
Qed.

Lemma X16_bucket_records_witness :
  reachable 8 (-1) true table_abcd_wide /\
  (forall i b, bucket_at (buckets table_abcd_wide) i = Some b -> filled b = true ->
     exists o, key b = Some o /\ hash b = hash_key table_abcd_wide o /\
               desired_idx b = hash_key table_abcd_wide o mod alloc_size table_abcd_wide /\
               0 <= desired_idx b < alloc_size table_abcd_wide) /\
  (forall i j b b' o o',
     bucket_at (buckets table_abcd_wide) i = Some b ->
     bucket_at (buckets table_abcd_wide) j = Some b' ->
     filled b = true -> filled b' = true ->
     key b = Some o -> key b' = Some o' ->
     key_equals table_abcd_wide o o' = true -> i = j) /\
  Z.of_nat (length (buckets table_abcd_wide)) = alloc_size table_abcd_wide /\
  key_size table_abcd_wide = -1 /\ copy_keys table_abcd_wide = true.
Proof.
  split; [exact table_abcd_wide_reachable|].
  apply (X16_bucket_records 8 (-1) true table_abcd_wide table_abcd_wide_reachable).
Defined.

(** ** One call of hmapiter_next *)

Lemma next_loop_step hm fuel : forall idx,
  Z.of_nat (length (buckets hm)) = alloc_size hm -> alloc_size hm <= INT_MAX ->
  -1 <= idx < alloc_size hm ->
  alloc_size hm - idx <= Z.of_nat fuel ->
  (next_loop fuel hm idx = Some (-1, false, None, 0) /\
   forall j bj, idx < j -> bucket_at (buckets hm) j = Some bj -> filled bj = false) \/
  (exists idx' b,
     idx < idx' < alloc_size hm /\
     bucket_at (buckets hm) idx' = Some b /\ filled b = true /\
     next_loop fuel hm idx = Some (idx', true, key b, value b) /\
     forall j bj, idx < j < idx' -> bucket_at (buckets hm) j = Some bj -> filled bj = false).
Proof.
  induction fuel as [|fuel IH]; intros idx Hlen Hint Hidx Hf; [lia|].
  cbn [next_loop]. unfold INT_MAX in Hint.
  rewrite to_int_small by (unfold INT_MAX; lia).
  rewrite to_size_small by lia.
  destruct (Z.geb_spec (idx + 1) (alloc_size hm)) as [G|G].
  - left. split; [reflexivity|]. intros j bj Hj Ej.
    apply bucket_at_range in Ej. lia.
  - destruct (bucket_at_some (buckets hm) (idx + 1)) as [b Eb]; [lia|].
    rewrite Eb. destruct (filled b) eqn:F; cbn [negb].
    + right. exists (idx + 1), b. split; [lia|]. split; [exact Eb|]. split; [exact F|].
      split; [reflexivity|]. intros j bj Hj. lia.
    + destruct (IH (idx + 1) Hlen) as [[N V]|[idx' [b' [R [Eb' [F' [N V]]]]]]];
        try (unfold INT_MAX; lia).
      * left. split; [exact N|]. intros j bj Hj Ej.
        destruct (Z.eq_dec j (idx + 1)) as [->|Nj]; [congruence|].
        apply (V j bj); [lia|exact Ej].
      * right. exists idx', b'. split; [lia|]. repeat (split; [assumption|]).
        intros j bj Hj Ej.
        destruct (Z.eq_dec j (idx + 1)) as [->|Nj]; [congruence|].
        apply (V j bj); [lia|exact Ej].
Qed.

(** X17: from any position of the array, or from the state not started, one
    call of [hmapiter_next] lands on the first filled bucket behind the
    position and yields its key and value, or, when no bucket behind it is
    filled, fails and goes back to the state not started. From a position at
    the end of the array or beyond it, it fails in the same way. *)
Theorem X17_next_step (hm : hashmap_t) (idx : Z) :
  WF hm -> -1 <= idx < INT_MAX ->
  (hmapiter_next hm idx = Some (hmapiter_create, false, None, 0) /\
   forall j bj, idx < j -> bucket_at (buckets hm) j = Some bj -> filled bj = false) \/
  (exists idx' b,
     idx < idx' < alloc_size hm /\
     bucket_at (buckets hm) idx' = Some b /\ filled b = true /\
     hmapiter_next hm idx = Some (idx', true, key b, value b) /\
     forall j bj, idx < j < idx' -> bucket_at (buckets hm) j = Some bj -> filled bj = false).
Proof.
  intros W Hidx. pose proof (wf_ok hm W) as Hok.
  pose proof (ok_len hm Hok) as Hlen. pose proof (ok_int hm Hok) as Hint.
  destruct (Z.lt_ge_cases idx (alloc_size hm)) as [L|G].
  - apply next_loop_step; auto; lia.
  - left. unfold hmapiter_next. cbn [next_loop]. unfold INT_MAX in *.
    rewrite to_int_small by (unfold INT_MAX; lia).
    rewrite to_size_small by lia.
    destruct (Z.geb_spec (idx + 1) (alloc_size hm)); [|lia].
    split; [reflexivity|]. intros j bj Hj Ej. apply bucket_at_range in Ej. lia.
Qed.

Lemma X17_next_step_witness :
  WF table_abc /\ -1 <= 2 < INT_MAX /\
  ((hmapiter_next table_abc 2 = Some (hmapiter_create, false, None, 0) /\
    forall j bj, 2 < j -> bucket_at (buckets table_abc) j = Some bj -> filled bj = false) \/
   (exists idx' b,
      2 < idx' < alloc_size table_abc /\
      bucket_at (buckets table_abc) idx' = Some b /\ filled b = true /\
      hmapiter_next table_abc 2 = Some (idx', true, key b, value b) /\
      forall j bj, 2 < j < idx' -> bucket_at (buckets table_abc) j = Some bj ->
                   filled bj = false)).
Proof.
  assert (H : -1 <= 2 < INT_MAX) by (unfold INT_MAX; lia).
  split; [exact table_abc_WF|]. split; [exact H|].
  apply (X17_next_step table_abc 2 table_abc_WF H).
Defined.

(** ** A probe without a vacant bucket *)

(** X18: when every bucket of the array is filled and none holds the key,
    the loop of [get_bucket_index] never returns, whatever the number of
    rounds it is given and wherever it starts: the vacant bucket that the
    load limit keeps in every table is what ends the search for an absent
    key. *)
Theorem X18_probe_full_table (hm : hashmap_t) (k : block) (h : Z) (fuel : nat) (i : Z) :
  Z.of_nat (length (buckets hm)) = alloc_size hm -> alloc_size hm <= INT_MAX ->
  (forall j b, bucket_at (buckets hm) j = Some b -> miss hm k h b) ->
  0 <= i < alloc_size hm ->
  probe fuel hm (Some k) h i = None.
Proof.
  intros Hlen Hint Hall. revert i.
  induction fuel as [|fuel IH]; intros i Hi; [reflexivity|].
  destruct (bucket_at_some (buckets hm) i) as [b Eb]; [lia|].
  destruct (Hall i b Eb) as [F M].
  cbn [probe]. rewrite Eb, F. rewrite next_index_eq by auto.
  pose proof (next_range (alloc_size hm) i Hi) as Hn.
  destruct (Z.eqb_spec (hash b) h) as [Eh|Nh]; [|now apply IH].
  destruct M as [Nh|[o [Ko Q]]]; [contradiction|].
  rewrite Ko, Q. now apply IH.
Qed.

(** an array of two buckets that hold "a" and "b", searched for "c" *)
Lemma X18_probe_full_table_witness :
  let hm := mkhmap [mkbucket true 0 (hash_key table_empty key_a) (Some key_a) 1;
                    mkbucket true 1 (hash_key table_empty key_b) (Some key_b) 2]
                   2 2 2 (-1) false in
  Z.of_nat (length (buckets hm)) = alloc_size hm /\ alloc_size hm <= INT_MAX /\
  (forall j b, bucket_at (buckets hm) j = Some b ->
               miss hm key_c (hash_key hm key_c) b) /\
  0 <= 0 < alloc_size hm /\
  probe 1000 hm (Some key_c) (hash_key hm key_c) 0 = None.
Proof.
  intros hm.
  assert (H1 : Z.of_nat (length (buckets hm)) = alloc_size hm) by reflexivity.
  assert (H2 : alloc_size hm <= INT_MAX) by (vm_compute; discriminate).
  assert (H3 : forall j b, bucket_at (buckets hm) j = Some b ->
                           miss hm key_c (hash_key hm key_c) b).
  { intros j b Eb. pose proof (bucket_at_range _ _ _ Eb) as R. cbn in R.
    assert (Hj : j = 0 \/ j = 1) by lia.
    destruct Hj as [-> | ->]; vm_compute in Eb; injection Eb as <-;
      (split; [reflexivity|left; vm_compute; discriminate]). }
  assert (H4 : 0 <= 0 < alloc_size hm) by (vm_compute; split; [discriminate|reflexivity]).
  split; [exact H1|]. split; [exact H2|]. split; [exact H3|]. split; [exact H4|].
  apply (X18_probe_full_table hm key_c (hash_key hm key_c) 1000 0 H1 H2 H3 H4).
Defined.

(** ** Growth and shrink together *)

(** X19: a removal does not undo a growth. When the set of a new key doubles
    the capacity, the removal of that key right after leaves the capacity
    doubled: the count it leaves is not below a quarter of the new
    capacity. *)
Theorem X19_growth_is_kept (hm : hashmap_t) (k : block) (v fresh : Z) :
  WF hm -> fits hm -> hashmap_has hm k = Some false ->
  hashmap_size hm >= Z.shiftr (alloc_size hm) 1 ->
  exists hm1 hm2 fr,
    hashmap_set hm k v fresh = Some (hm1, 0, []) /\
    alloc_size hm1 = 2 * alloc_size hm /\
    hashmap_remove hm1 k = Some (hm2, v, fr) /\
    alloc_size hm2 = 2 * alloc_size hm /\
    hashmap_size hm2 = hashmap_size hm.
Proof.
  intros W F H G. unfold hashmap_size in *.
  pose proof (wf_ok hm W) as Hok. pose proof (WF_room hm W) as Hroom.
  apply (has_absent hm Hok Hroom) in H.
  destruct (set_spec hm k v fresh W F)
    as [hm1 [old [fr1 [E1 [W1 [A1 [M1 [_ [_ [Hk [_ [_ D]]]]]]]]]]]].
  destruct D as [[_ [-> [S1 ->]]]|[Hv _]];
    [|exfalso; eapply holds_not_absent; eauto].
  destruct (Z.geb_spec (size hm) (Z.shiftr (alloc_size hm) 1)); [|lia].
  destruct (remove_spec hm1 k W1) as [hm2 [v2 [fr2 [E2 [_ [_ [_ [_ [_ [_ D2]]]]]]]]]].
  destruct D2 as [[A _]|[Hv [_ [S2 A2]]]]; [exfalso; eapply holds_not_absent; eauto|].
  assert (v2 = v).
  { eapply (holds_fun hm1 (wf_ok hm1 W1) (WF_room hm1 W1)); eauto. }
  subst v2. exists hm1, hm2, fr2.
  split; [exact E1|]. split; [exact A1|]. split; [exact E2|]. split; [|lia].
  rewrite A2, A1, S1.
  destruct (Z.ltb_spec (size hm + 1 - 1) (Z.shiftr (2 * alloc_size hm) 2)) as [L|L];
    [|reflexivity].
  exfalso. rewrite shiftr_2 in L. rewrite shiftr_1 in G.
  replace (2 * alloc_size hm / 4) with (alloc_size hm / 2) in L.
  - lia.
  - replace 4 with (2 * 2) by reflexivity.
    rewrite Z.div_mul_cancel_l by lia. reflexivity.
Qed.

Lemma X19_growth_is_kept_witness :
  WF table_abcd /\ fits table_abcd /\ hashmap_has table_abcd key_e = Some false /\
  hashmap_size table_abcd >= Z.shiftr (alloc_size table_abcd) 1 /\
  exists hm1 hm2 fr,
    hashmap_set table_abcd key_e 11 104 = Some (hm1, 0, []) /\
    alloc_size hm1 = 2 * alloc_size table_abcd /\
    hashmap_remove hm1 key_e = Some (hm2, 11, fr) /\
    alloc_size hm2 = 2 * alloc_size table_abcd /\
    hashmap_size hm2 = hashmap_size table_abcd.
Proof.
  assert (H : hashmap_has table_abcd key_e = Some false) by (vm_compute; reflexivity).
  assert (G : hashmap_size table_abcd >= Z.shiftr (alloc_size table_abcd) 1)
    by (vm_compute; discriminate).
  split; [exact table_abcd_WF|]. split; [exact table_abcd_fits|].
  split; [exact H|]. split; [exact G|].
  apply (X19_growth_is_kept table_abcd key_e 11 104 table_abcd_WF table_abcd_fits H G).
Defined.

(** ** The three lookups *)

(** X20: the three lookups agree, and [hashmap_get] alone cannot tell a key
    that is absent from a key stored with the null value: it returns null in
    both cases and only then, where [hashmap_has] and [hashmap_may_get]
    return false for the one and true for the other. *)
Theorem X20_lookups_agree (hm : hashmap_t) (k : block) :
  WF hm ->
  (hashmap_has hm k = Some false /\ hashmap_may_get hm k = Some (false, None) /\
   hashmap_get hm k = Some 0) \/
  (exists v, hashmap_has hm k = Some true /\ hashmap_may_get hm k = Some (true, Some v) /\
             hashmap_get hm k = Some v).
Proof.
  intros W. pose proof (wf_ok hm W) as Hok. pose proof (WF_room hm W) as Hroom.
  destruct (holds_or_absent hm Hok Hroom k) as [[v Hv]|A].
  - right. exists v. destruct (get_holds hm Hok Hroom k v Hv) as [G [M H]]. auto.
  - left. destruct (get_absent hm Hok Hroom k A) as [G [M H]]. auto.
Qed.

(** the null value is stored under "a" *)
Lemma X20_lookups_agree_witness :
  WF (after_set table_empty key_a 0 100) /\
  hashmap_get (after_set table_empty key_a 0 100) key_a = Some 0 /\
  hashmap_get (after_set table_empty key_a 0 100) key_b = Some 0 /\
  ((hashmap_has (after_set table_empty key_a 0 100) key_a = Some false /\
    hashmap_may_get (after_set table_empty key_a 0 100) key_a = Some (false, None) /\
    hashmap_get (after_set table_empty key_a 0 100) key_a = Some 0) \/
   (exists v, hashmap_has (after_set table_empty key_a 0 100) key_a = Some true /\
              hashmap_may_get (after_set table_empty key_a 0 100) key_a = Some (true, Some v) /\
              hashmap_get (after_set table_empty key_a 0 100) key_a = Some v)).
Proof.
  assert (W : WF (after_set table_empty key_a 0 100)).
  { apply (reachable_WF 8 (-1) true).
    apply (reach_set 8 (-1) true table_empty key_a 0 100 _ 0 []).
    - exact table_empty_reachable.
    - exact table_empty_fits.
    - vm_compute. reflexivity. }
  split; [exact W|]. split; [vm_compute; reflexivity|]. split; [vm_compute; reflexivity|].
  apply (X20_lookups_agree (after_set table_empty key_a 0 100) key_a W).
Defined.
